(** * Confidential (Liquid) extension of partially signed transactions

    A shallow embedding of [libs/common/bitcoin/liquid/pset.py]: the
    confidential input record [LInputScope], the confidential output
    record [LOutputScope] and the container [PSET], followed by the
    properties of their parsing, serialization, verification and
    blinding entry points.

    Python objects are records, attributes that may be [None] are
    options, methods that mutate [self] or raise are computations in a
    small state-and-exception monad, byte strings are lists of bytes and
    Python integers are [Z]. *)

From Stdlib Require Import ZArith List Lia String.
From Stdlib.Strings Require Import Byte.
From stdpp Require Import base option list gmap strings.
Import ListNotations.

Local Open Scope Z_scope.

(** ** Python values *)

Abbreviation bytes := (list byte).

#[global] Instance byte_eq_decision : EqDecision byte := Byte.byte_eq_dec.
#[global] Instance byte_countable : Countable byte :=
  inj_countable Byte.to_N Byte.of_N Byte.of_to_N.

(** A dynamically typed argument handed to an external function. *)
Inductive pyval : Type :=
  | PyNone
  | PyInt (z : Z)
  | PyBytes (b : bytes).

Definition py_bytes (x : option bytes) : pyval :=
  match x with
  | Some b => PyBytes b
  | None => PyNone
  end.

Definition py_int (x : option Z) : pyval :=
  match x with
  | Some z => PyInt z
  | None => PyNone
  end.

(** The exceptions the module raises itself ([PSBTError], a failed
    [assert]), the ones the interpreter raises on its behalf, and the
    ones coming out of the external libraries. *)
Inductive exn : Type :=
  | PSBTError (msg : string)
  | AssertionError
  | TypeError
  | AttributeError
  | IndexError
  | OverflowError
  | ValueError (msg : string).

Inductive result (A : Type) : Type :=
  | Ok (a : A)
  | Raise (e : exn).
Arguments Ok {A} a.
Arguments Raise {A} e.

#[global] Instance pyval_eq_decision : EqDecision pyval.
Proof. solve_decision. Defined.

#[global] Instance exn_eq_decision : EqDecision exn.
Proof. solve_decision. Defined.

#[global] Instance result_ret : MRet result := fun _ a => Ok a.
#[global] Instance result_bind : MBind result := fun _ _ f m =>
  match m with
  | Ok a => f a
  | Raise e => Raise e
  end.

(** Truthiness of a [None]-able byte string ([if self.asset:]) and of a
    [None]-able integer ([if self.value:]). *)
Definition truthy (b : option bytes) : bool :=
  match b with
  | Some (_ :: _) => true
  | _ => false
  end.

Definition truthy_int (v : option Z) : bool :=
  match v with
  | Some z => negb (z =? 0)%Z
  | None => false
  end.

(** [x or y] on [None]-able byte strings. *)
Definition or_else (x y : option bytes) : option bytes :=
  if truthy x then x else y.

(** [needle in haystack] on byte strings: a search for a contiguous
    occurrence at any offset. *)
Fixpoint startswith (p s : bytes) : bool :=
  match p, s with
  | [], _ => true
  | _ :: _, [] => false
  | x :: p', y :: s' => bool_decide (x = y) && startswith p' s'
  end.

Fixpoint bytes_in (p s : bytes) : bool :=
  startswith p s ||
  match s with
  | [] => false
  | _ :: s' => bytes_in p s'
  end.

(** [int.to_bytes(n, 'little')] and [int.from_bytes(b, 'little')]. *)
Definition byte_of_Z (z : Z) : byte :=
  default x00 (Byte.of_N (Z.to_N (z mod 256))).

Definition Z_of_byte (b : byte) : Z := Z.of_N (Byte.to_N b).

Fixpoint little_endian (n : nat) (z : Z) : bytes :=
  match n with
  | O => []
  | S n' => byte_of_Z z :: little_endian n' (z / 256)
  end.

Definition int_to_bytes (z : Z) (n : nat) : result bytes :=
  if (0 <=? z) && (z <? 256 ^ Z.of_nat n)
  then Ok (little_endian n z)
  else Raise OverflowError.

Fixpoint int_from_bytes (b : bytes) : Z :=
  match b with
  | [] => 0
  | x :: b' => Z_of_byte x + 256 * int_from_bytes b'
  end.

(** ** Methods: state and exceptions

    A method body is a function from the object before the call to the
    object after it and either a returned value or a raised exception.
    The object is kept on the exceptional path too, since assignments
    made before a [raise] stay. *)
Definition method (S A : Type) : Type := S -> S * result A.

#[global] Instance method_ret {S} : MRet (method S) := fun _ a s => (s, Ok a).
#[global] Instance method_bind {S} : MBind (method S) := fun _ _ f m s =>
  match m s with
  | (s', Ok a) => f a s'
  | (s', Raise e) => (s', Raise e)
  end.

Definition get {S} : method S S := fun s => (s, Ok s).
Definition modify {S} (f : S -> S) : method S unit := fun s => (f s, Ok tt).
Definition raise {S A} (e : exn) : method S A := fun s => (s, Raise e).
Definition lift {S A} (r : result A) : method S A := fun s => (s, r).

(** Reading an attribute of an object that may be [None]. *)
Definition attr {S A} (o : option A) : method S A :=
  match o with
  | Some a => mret a
  | None => raise AttributeError
  end.

(** [for x in xs: body(x)] *)
Fixpoint for_each {S X} (xs : list X) (body : X -> method S unit)
  : method S unit :=
  match xs with
  | [] => mret tt
  | x :: xs' => body x;; for_each xs' body
  end.

(** A method of the object stored at position [i] of a list, run from
    the owner of the list. *)
Definition at_index {S A} (i : nat) (m : method S A) : method (list S) A :=
  fun l =>
    match l !! i with
    | Some s => let '(s', r) := m s in (<[i:=s']> l, r)
    | None => (l, Raise IndexError)
    end.

(** ** External capabilities

    The commitment engine ([secp256k1]): every function works on byte
    buffers and either returns one or raises. Arguments that callers
    fill from attributes are dynamically typed. Functions that update a
    buffer in place return the updated buffer. *)
Class secp256k1 : Type := {
  generator_generate_blinded : pyval -> pyval -> result bytes;
  generator_generate : pyval -> result bytes;
  generator_parse : pyval -> result bytes;
  generator_serialize : bytes -> result bytes;
  pedersen_commit : pyval -> pyval -> bytes -> result bytes;
  pedersen_commitment_parse : pyval -> result bytes;
  pedersen_commitment_serialize : bytes -> result bytes;
  pedersen_blind_generator_blind_sum :
    list pyval -> list bytes -> list bytes -> nat -> result bytes;
  surjectionproof_initialize :
    list bytes -> pyval -> bytes -> result (bytes * nat);
  surjectionproof_generate :
    bytes -> nat -> list bytes -> bytes -> bytes -> pyval -> result bytes;
  surjectionproof_serialize : bytes -> result bytes;
  rangeproof_sign :
    bytes -> pyval -> bytes -> pyval -> bytes -> bytes -> bytes ->
    result bytes;
  ec_pubkey_parse : bytes -> result bytes;
  ec_pubkey_tweak_mul : bytes -> bytes -> result bytes;
  ec_pubkey_serialize : bytes -> result bytes;
}.

(** ** Scripts and transactions ([script.py], [transaction.py]) *)

Record Script : Type := { data : bytes }.

Record TxOutWitness : Type := {
  surjection_proof_of : option bytes;
  range_proof_of : option bytes;
}.

Module LTransactionOutput.

Record t : Type := mk {
  asset : option bytes;
  value : pyval;
  script_pubkey : option Script;
  ecdh_pubkey : option bytes;
  witness : option TxOutWitness;
}.

End LTransactionOutput.

Module LTransactionInput.

Record t : Type := mk {
  txid : option bytes;
  vout : option Z;
  sequence : Z;
}.

End LTransactionInput.

Module LTransaction.

Record t : Type := mk {
  version : Z;
  locktime : Z;
  vin : list LTransactionInput.t;
  vout : list LTransactionOutput.t;
}.

End LTransaction.

(** The rest of the package: hashes, the blinding key derivation
    ([slip77]), the range proof rewind ([transaction.unblind]), private
    keys ([ec]), script serialization, and the constructor of
    [LTransactionOutput] ([transaction.py]), which is free to adjust the
    asset, value, script, ECDH key and witness it is handed. *)
Class bitcoin : Type := {
  sha256 : bytes -> bytes;
  tagged_hash : string -> bytes -> bytes;
  slip77_blinding_key : bytes -> option Script -> result bytes;
  rewind :
    pyval -> bytes -> bytes -> pyval -> pyval -> option Script ->
    result (Z * bytes * bytes * bytes * bytes * Z * Z);
  private_key_sec : bytes -> result bytes;
  script_serialize : Script -> bytes;
  new_output :
    option bytes -> pyval -> option Script -> option bytes ->
    option TxOutWitness -> LTransactionOutput.t;
}.

(** The string codec of [psbt.py]: [ser_string] appends a
    length-prefixed byte string to the stream, [read_string] takes one
    off the front of it, [skip_string] steps over one. *)
Class codec : Type := {
  ser_string_bytes : bytes -> bytes;
  read_string_bytes : bytes -> result (bytes * bytes);
  skip_string_bytes : bytes -> result bytes;
}.

Section streams.
Context {io : codec}.

(** Writing: the state is what has been written so far, the returned
    value the number of bytes added. *)
Definition stream_write (b : bytes) : method bytes Z :=
  fun stream => (stream ++ b, Ok (Z.of_nat (length b))).

Definition ser_string (b : bytes) : method bytes Z :=
  stream_write (ser_string_bytes b).

(** Reading: the state is the object being filled in and the unread
    rest of the stream. *)
Definition read_string {S} : method (S * bytes) bytes :=
  fun '(self, stream) =>
    match read_string_bytes stream with
    | Ok (v, stream') => ((self, stream'), Ok v)
    | Raise e => ((self, stream), Raise e)
    end.

Definition skip_string {S} : method (S * bytes) unit :=
  fun '(self, stream) =>
    match skip_string_bytes stream with
    | Ok stream' => ((self, stream'), Ok tt)
    | Raise e => ((self, stream), Raise e)
    end.

Definition assign {S} (f : S -> S) : method (S * bytes) unit :=
  fun '(self, stream) => ((f self, stream), Ok tt).

Definition self_of {S} : method (S * bytes) S :=
  fun '(self, stream) => ((self, stream), Ok self).

End streams.

(** The proprietary key prefixes and the keys built on them. *)
Definition elements_prefix : bytes :=
  [xfc; x08; x65; x6c; x65; x6d; x65; x6e; x74; x73].

Definition pset_prefix : bytes := [xfc; x04; x70; x73; x65; x74].

Definition elements_key (subtype : byte) : bytes :=
  elements_prefix ++ [subtype].

Definition pset_key (subtype : byte) : bytes := pset_prefix ++ [subtype].

(** [self.unknown[k] = v] *)
Definition dict_set (k v : bytes) (d : gmap bytes bytes) : gmap bytes bytes :=
  <[k:=v]> d.

(** ** Confidential input record *)

Module LInputScope.

Record t : Type := mk {
  (* liquid-specific fields *)
  value : option Z;
  value_blinding_factor : option bytes;
  asset : option bytes;
  asset_blinding_factor : option bytes;
  range_proof : option bytes;
  (* attributes of the base input record *)
  utxo : option LTransactionOutput.t;
  txid : option bytes;
  vout : option Z;
  sequence : option Z;
  unknown : gmap bytes bytes;
  compress : bool;
}.

Definition set_value (v : option Z) (r : t) : t :=
  mk v (value_blinding_factor r) (asset r) (asset_blinding_factor r)
    (range_proof r) (utxo r) (txid r) (vout r) (sequence r) (unknown r)
    (compress r).
Definition set_value_blinding_factor (v : option bytes) (r : t) : t :=
  mk (value r) v (asset r) (asset_blinding_factor r) (range_proof r)
    (utxo r) (txid r) (vout r) (sequence r) (unknown r) (compress r).
Definition set_asset (v : option bytes) (r : t) : t :=
  mk (value r) (value_blinding_factor r) v (asset_blinding_factor r)
    (range_proof r) (utxo r) (txid r) (vout r) (sequence r) (unknown r)
    (compress r).
Definition set_asset_blinding_factor (v : option bytes) (r : t) : t :=
  mk (value r) (value_blinding_factor r) (asset r) v (range_proof r)
    (utxo r) (txid r) (vout r) (sequence r) (unknown r) (compress r).
Definition set_range_proof (v : option bytes) (r : t) : t :=
  mk (value r) (value_blinding_factor r) (asset r)
    (asset_blinding_factor r) v (utxo r) (txid r) (vout r) (sequence r)
    (unknown r) (compress r).
Definition set_unknown (v : gmap bytes bytes) (r : t) : t :=
  mk (value r) (value_blinding_factor r) (asset r)
    (asset_blinding_factor r) (range_proof r) (utxo r) (txid r) (vout r)
    (sequence r) v (compress r).

(** What the base input record ([InputScope] in [psbt.py]) contributes:
    its side of the methods extended here and its verified flag. *)
Class base : Type := {
  base_init : gmap bytes bytes -> t -> t;
  base_clear_metadata : t -> t;
  base_read_value : bytes -> method (t * bytes) unit;
  base_write_to : t -> bool -> option Z -> method bytes Z;
  is_verified : t -> bool;
}.

Section methods.
Context {engine : secp256k1} {lib : bitcoin} {io : codec} {super : base}.

(** [__init__]: the liquid-specific fields start as [None] and the base
    record fills in the rest. *)
Definition init (unknown : gmap bytes bytes) (compress : bool) : t :=
  base_init unknown
    (mk None None None None None None None None None unknown compress).

Definition clear_metadata (self : t) : t :=
  let self := base_clear_metadata self in
  let self := set_range_proof None self in
  let self := set_value_blinding_factor None self in
  let self := set_asset_blinding_factor None self in
  let self := set_value None self in
  set_asset None self.

Definition unblind (blinding_key : bytes) : method t unit :=
  self ← get;
  match range_proof self with
  | None => mret tt
  | Some proof =>
      utxo ← attr (utxo self);
      pk ← lift (slip77_blinding_key blinding_key
                   (LTransactionOutput.script_pubkey utxo));
      '(value, asset, vbf, in_abf, extra, min_value, max_value) ←
        lift (rewind (py_bytes (LTransactionOutput.ecdh_pubkey utxo)) pk
                proof (LTransactionOutput.value utxo)
                (py_bytes (LTransactionOutput.asset utxo))
                (LTransactionOutput.script_pubkey utxo));
      (* verify *)
      gen ← lift (generator_generate_blinded (PyBytes asset)
                    (PyBytes in_abf));
      utxo_gen ← lift (generator_parse
                         (py_bytes (LTransactionOutput.asset utxo)));
      (if bool_decide (gen = utxo_gen) then mret tt
       else raise AssertionError);;
      cmt ← lift (pedersen_commit (PyBytes vbf) (PyInt value) gen);
      utxo_cmt ← lift (pedersen_commitment_parse
                         (LTransactionOutput.value utxo));
      (if bool_decide (cmt = utxo_cmt) then mret tt
       else raise AssertionError);;
      modify (set_asset (Some asset));;
      modify (set_value (Some value));;
      modify (set_asset_blinding_factor (Some in_abf));;
      modify (set_value_blinding_factor (Some vbf))
  end.

Definition vin (self : t) : LTransactionInput.t :=
  LTransactionInput.mk (txid self) (vout self)
    (if truthy_int (sequence self) then default 0 (sequence self)
     else 0xFFFFFFFF).

Definition read_value (k : bytes) : method (t * bytes) unit :=
  (* standard bitcoin stuff *)
  if negb (bytes_in elements_prefix k) && negb (bytes_in pset_prefix k) then
    base_read_value k
  else if bool_decide (k = pset_key x0e) then
    (* range proof is very large,
       so we don't load it if compress flag is set. *)
    self ← self_of;
    if compress self then skip_string
    else v ← read_string; assign (set_range_proof (Some v))
  else
    v ← read_string;
    (* liquid-specific fields *)
    if bool_decide (k = elements_key x00) then
      assign (set_value (Some (int_from_bytes v)))
    else if bool_decide (k = elements_key x01) then
      assign (set_value_blinding_factor (Some v))
    else if bool_decide (k = elements_key x02) then
      assign (set_asset (Some v))
    else if bool_decide (k = elements_key x03) then
      assign (set_asset_blinding_factor (Some v))
    else
      assign (fun self => set_unknown (dict_set k v (unknown self)) self).

(** [if x is not None: r += ser_string(stream, key); r += ser_string(stream, x)] *)
Definition write_field (key : bytes) (x : option bytes) (r : Z)
  : method bytes Z :=
  match x with
  | Some v =>
      n ← ser_string key;
      m ← ser_string v;
      mret (r + n + m)
  | None => mret r
  end.

Definition write_to (self : t) (skip_separator : bool) (version : option Z)
  : method bytes Z :=
  r ← base_write_to self true version;
  (* liquid-specific keys *)
  r ← match value self with
      | Some value =>
          n ← ser_string (elements_key x00);
          v ← lift (int_to_bytes value 8);
          m ← ser_string v;
          mret (r + n + m)
      | None => mret r
      end;
  r ← write_field (elements_key x01) (value_blinding_factor self) r;
  r ← write_field (elements_key x02) (asset self) r;
  r ← write_field (elements_key x03) (asset_blinding_factor self) r;
  r ← write_field (pset_key x0e) (range_proof self) r;
  (* separator *)
  if negb skip_separator then
    n ← stream_write [x00];
    mret (r + n)
  else mret r.

End methods.

End LInputScope.

(** ** Confidential output record *)

Module LOutputScope.

Record t : Type := mk {
  (* liquid stuff *)
  value_commitment : option bytes;
  value_blinding_factor : option bytes;
  asset_commitment : option bytes;
  asset_blinding_factor : option bytes;
  range_proof : option bytes;
  surjection_proof : option bytes;
  ecdh_pubkey : option bytes;
  blinding_pubkey : option bytes;
  asset : option bytes;
  blinder_index : option Z;
  _verified : bool;
  (* attributes of the base output record *)
  value : option Z;
  script_pubkey : option Script;
  unknown : gmap bytes bytes;
  compress : bool;
}.

Definition set_value_commitment (v : option bytes) (r : t) : t :=
  mk v (value_blinding_factor r) (asset_commitment r)
    (asset_blinding_factor r) (range_proof r) (surjection_proof r)
    (ecdh_pubkey r) (blinding_pubkey r) (asset r) (blinder_index r)
    (_verified r) (value r) (script_pubkey r) (unknown r) (compress r).
Definition set_value_blinding_factor (v : option bytes) (r : t) : t :=
  mk (value_commitment r) v (asset_commitment r) (asset_blinding_factor r)
    (range_proof r) (surjection_proof r) (ecdh_pubkey r)
    (blinding_pubkey r) (asset r) (blinder_index r) (_verified r)
    (value r) (script_pubkey r) (unknown r) (compress r).
Definition set_asset_commitment (v : option bytes) (r : t) : t :=
  mk (value_commitment r) (value_blinding_factor r) v
    (asset_blinding_factor r) (range_proof r) (surjection_proof r)
    (ecdh_pubkey r) (blinding_pubkey r) (asset r) (blinder_index r)
    (_verified r) (value r) (script_pubkey r) (unknown r) (compress r).
Definition set_asset_blinding_factor (v : option bytes) (r : t) : t :=
  mk (value_commitment r) (value_blinding_factor r) (asset_commitment r) v
    (range_proof r) (surjection_proof r) (ecdh_pubkey r)
    (blinding_pubkey r) (asset r) (blinder_index r) (_verified r)
    (value r) (script_pubkey r) (unknown r) (compress r).
Definition set_range_proof (v : option bytes) (r : t) : t :=
  mk (value_commitment r) (value_blinding_factor r) (asset_commitment r)
    (asset_blinding_factor r) v (surjection_proof r) (ecdh_pubkey r)
    (blinding_pubkey r) (asset r) (blinder_index r) (_verified r)
    (value r) (script_pubkey r) (unknown r) (compress r).
Definition set_surjection_proof (v : option bytes) (r : t) : t :=
  mk (value_commitment r) (value_blinding_factor r) (asset_commitment r)
    (asset_blinding_factor r) (range_proof r) v (ecdh_pubkey r)
    (blinding_pubkey r) (asset r) (blinder_index r) (_verified r)
    (value r) (script_pubkey r) (unknown r) (compress r).
Definition set_ecdh_pubkey (v : option bytes) (r : t) : t :=
  mk (value_commitment r) (value_blinding_factor r) (asset_commitment r)
    (asset_blinding_factor r) (range_proof r) (surjection_proof r) v
    (blinding_pubkey r) (asset r) (blinder_index r) (_verified r)
    (value r) (script_pubkey r) (unknown r) (compress r).
Definition set_blinding_pubkey (v : option bytes) (r : t) : t :=
  mk (value_commitment r) (value_blinding_factor r) (asset_commitment r)
    (asset_blinding_factor r) (range_proof r) (surjection_proof r)
    (ecdh_pubkey r) v (asset r) (blinder_index r) (_verified r) (value r)
    (script_pubkey r) (unknown r) (compress r).
Definition set_asset (v : option bytes) (r : t) : t :=
  mk (value_commitment r) (value_blinding_factor r) (asset_commitment r)
    (asset_blinding_factor r) (range_proof r) (surjection_proof r)
    (ecdh_pubkey r) (blinding_pubkey r) v (blinder_index r) (_verified r)
    (value r) (script_pubkey r) (unknown r) (compress r).
Definition set_blinder_index (v : option Z) (r : t) : t :=
  mk (value_commitment r) (value_blinding_factor r) (asset_commitment r)
    (asset_blinding_factor r) (range_proof r) (surjection_proof r)
    (ecdh_pubkey r) (blinding_pubkey r) (asset r) v (_verified r)
    (value r) (script_pubkey r) (unknown r) (compress r).
Definition set__verified (v : bool) (r : t) : t :=
  mk (value_commitment r) (value_blinding_factor r) (asset_commitment r)
    (asset_blinding_factor r) (range_proof r) (surjection_proof r)
    (ecdh_pubkey r) (blinding_pubkey r) (asset r) (blinder_index r) v
    (value r) (script_pubkey r) (unknown r) (compress r).
Definition set_value (v : option Z) (r : t) : t :=
  mk (value_commitment r) (value_blinding_factor r) (asset_commitment r)
    (asset_blinding_factor r) (range_proof r) (surjection_proof r)
    (ecdh_pubkey r) (blinding_pubkey r) (asset r) (blinder_index r)
    (_verified r) v (script_pubkey r) (unknown r) (compress r).
Definition set_unknown (v : gmap bytes bytes) (r : t) : t :=
  mk (value_commitment r) (value_blinding_factor r) (asset_commitment r)
    (asset_blinding_factor r) (range_proof r) (surjection_proof r)
    (ecdh_pubkey r) (blinding_pubkey r) (asset r) (blinder_index r)
    (_verified r) (value r) (script_pubkey r) v (compress r).

(** What the base output record ([OutputScope] in [psbt.py])
    contributes: its side of the methods extended here. *)
Class base : Type := {
  base_init : gmap bytes bytes -> option LTransactionOutput.t -> t -> t;
  base_clear_metadata : t -> t;
  base_read_value : bytes -> method (t * bytes) unit;
  base_write_to : t -> bool -> option Z -> method bytes Z;
}.

Definition is_verified (self : t) : bool := _verified self.

Definition is_blinded (self : t) : bool :=
  truthy (value_commitment self) && truthy (asset_commitment self).

Definition is_v2 (version : option Z) : bool := bool_decide (version = Some 2).

Section methods.
Context {engine : secp256k1} {lib : bitcoin} {io : codec} {super : base}.

(** [__init__]: the liquid fields start as [None], the asset is taken
    from [vout] when one is given, and the base record fills in the
    rest. *)
Definition init (unknown : gmap bytes bytes)
    (vout : option LTransactionOutput.t) (compress : bool) : t :=
  let asset :=
    match vout with
    | Some vout => LTransactionOutput.asset vout
    | None => None
    end in
  base_init unknown vout
    (mk None None None None None None None None asset None false
        None None unknown compress).

(** [if x != y: raise e], for a stored byte string [x]. *)
Definition raise_if_differs (e : exn) (x : option bytes) (y : bytes)
  : method t unit :=
  if bool_decide (x = Some y) then mret tt else raise e.

Definition verify : method t bool :=
  modify (set__verified false);;
  let e := PSBTError "Invalid commitments"%string in
  self ← get;
  gen ← (if truthy (asset self) && truthy (asset_commitment self) then
           (* we can't verify asset *)
           (if negb (truthy (asset_blinding_factor self))
            then raise e else mret tt);;
           gen ← lift (generator_generate_blinded
                         (py_bytes (asset self))
                         (py_bytes (asset_blinding_factor self)));
           ser ← lift (generator_serialize gen);
           raise_if_differs e (asset_commitment self) ser;;
           mret (Some gen)
         else mret None);
  (if truthy_int (value self) && truthy (value_commitment self) then
     match gen with
     | None => raise e
     | Some gen =>
         commitment ← lift (pedersen_commit
                              (py_bytes (value_blinding_factor self))
                              (py_int (value self)) gen);
         ser ← lift (pedersen_commitment_serialize commitment);
         raise_if_differs e (value_commitment self) ser
     end
   else mret tt);;
  modify (set__verified true);;
  self ← get;
  mret (_verified self).

Definition clear_metadata (self : t) : t :=
  let self := base_clear_metadata self in
  let self := set_range_proof None self in
  let self := set_surjection_proof None self in
  let self := set_value_blinding_factor None self in
  let self := set_asset_blinding_factor None self in
  let self :=
    if truthy (value_commitment self) then set_value None self else self in
  let self :=
    if truthy (asset_commitment self) then set_asset None self else self in
  set_blinder_index None self.

Definition vout (self : t) : LTransactionOutput.t :=
  new_output
    (or_else (asset self) (asset_commitment self))
    (if truthy_int (value self) then py_int (value self)
     else py_bytes (value_commitment self))
    (script_pubkey self)
    (if truthy (asset self) then None else ecdh_pubkey self)
    None.

Definition blinded_vout (self : t) : LTransactionOutput.t :=
  new_output
    (or_else (asset_commitment self) (asset self))
    (if truthy (value_commitment self) then py_bytes (value_commitment self)
     else py_int (value self))
    (script_pubkey self)
    (ecdh_pubkey self)
    (if negb (truthy (surjection_proof self)) then None
     else Some (Build_TxOutWitness (surjection_proof self)
                  (range_proof self))).

(** [b[-32:]] *)
Definition last32 (b : bytes) : bytes := drop (length b - 32)%nat b.

(** Operands of [+] on byte strings must not be [None]. *)
Definition operand {S} (x : option bytes) : method S bytes :=
  match x with
  | Some b => mret b
  | None => raise TypeError
  end.

(** Re-generates range-proof with particular nonce and includes extra
    message in the range proof. *)
Definition reblind (nonce : bytes) (blinding_pubkey : option bytes)
    (extra_message : bytes) : method t unit :=
  self ← get;
  if negb (is_blinded self) then mret tt
  else
    (* check blinding pubkey is there *)
    let blinding_pubkey :=
      or_else blinding_pubkey (LOutputScope.blinding_pubkey self) in
    match blinding_pubkey with
    | Some ((_ :: _) as blinding_pubkey) =>
        pub ← lift (ec_pubkey_parse blinding_pubkey);
        ecdh ← lift (private_key_sec nonce);
        modify (set_ecdh_pubkey (Some ecdh));;
        pub ← lift (ec_pubkey_tweak_mul pub nonce);
        sec ← lift (ec_pubkey_serialize pub);
        let ecdh_nonce := sha256 (sha256 sec) in
        tag ← operand (asset self);
        abf ← operand (asset_blinding_factor self);
        let msg := last32 tag ++ abf ++ extra_message in
        commitment ← lift (pedersen_commitment_parse
                             (py_bytes (value_commitment self)));
        script ← attr (script_pubkey self);
        gen ← lift (generator_parse (py_bytes (asset_commitment self)));
        proof ← lift (rangeproof_sign ecdh_nonce (py_int (value self))
                        commitment (py_bytes (value_blinding_factor self))
                        msg (data script) gen);
        modify (set_range_proof (Some proof))
    | _ => raise (PSBTError "Blinding pubkey required"%string)
    end.

Definition read_value (k : bytes) : method (t * bytes) unit :=
  if negb (bytes_in elements_prefix k) && negb (bytes_in pset_prefix k) then
    base_read_value k
  (* range proof and surjection proof are very large,
     so we don't load them if compress flag is set. *)
  else if bool_decide (k ∈ [elements_key x04; pset_key x04]) then
    self ← self_of;
    if compress self then skip_string
    else v ← read_string; assign (set_range_proof (Some v))
  else if bool_decide (k ∈ [elements_key x05; pset_key x05]) then
    self ← self_of;
    if compress self then skip_string
    else v ← read_string; assign (set_surjection_proof (Some v))
  else
    v ← read_string;
    (* liquid-specific fields *)
    if bool_decide (k ∈ [elements_key x00; pset_key x01]) then
      assign (set_value_commitment (Some v))
    else if bool_decide (k = elements_key x01) then
      assign (set_value_blinding_factor (Some v))
    else if bool_decide (k = pset_key x02) then
      assign (set_asset (Some v))
    else if bool_decide (k ∈ [elements_key x02; pset_key x03]) then
      assign (set_asset_commitment (Some v))
    else if bool_decide (k = elements_key x03) then
      assign (set_asset_blinding_factor (Some v))
    else if bool_decide (k ∈ [elements_key x06; pset_key x06]) then
      assign (set_blinding_pubkey (Some v))
    else if bool_decide (k ∈ [elements_key x07; pset_key x07]) then
      assign (set_ecdh_pubkey (Some v))
    else if bool_decide (k = pset_key x08) then
      assign (set_blinder_index (Some (int_from_bytes v)))
    else
      assign (fun self => set_unknown (dict_set k v (unknown self)) self).

(** [if x is not None: r += ser_string(stream, key); r += ser_string(stream, x)] *)
Definition write_field (key : bytes) (x : option bytes) (r : Z)
  : method bytes Z :=
  match x with
  | Some v =>
      n ← ser_string key;
      m ← ser_string v;
      mret (r + n + m)
  | None => mret r
  end.

(** The key of a field that has one in each namespace. *)
Definition versioned_key (version : option Z) (subtype2 subtype : byte)
  : bytes :=
  if is_v2 version then pset_key subtype2 else elements_key subtype.

Definition write_to (self : t) (skip_separator : bool) (version : option Z)
  : method bytes Z :=
  r ← base_write_to self true version;
  (* liquid-specific keys *)
  r ← (if is_v2 version then write_field (pset_key x02) (asset self) r
       else mret r);
  r ← write_field (versioned_key version x01 x00) (value_commitment self) r;
  r ← write_field (elements_key x01) (value_blinding_factor self) r;
  r ← write_field (versioned_key version x03 x02) (asset_commitment self) r;
  r ← write_field (elements_key x03) (asset_blinding_factor self) r;
  r ← write_field (versioned_key version x06 x06) (blinding_pubkey self) r;
  r ← write_field (versioned_key version x07 x07) (ecdh_pubkey self) r;
  (* for some reason keys 04 and 05 are serialized after 07 *)
  r ← write_field (versioned_key version x04 x04) (range_proof self) r;
  r ← write_field (versioned_key version x05 x05) (surjection_proof self) r;
  r ← match blinder_index self with
      | Some index =>
          n ← ser_string (pset_key x08);
          v ← lift (int_to_bytes index 4);
          m ← ser_string v;
          mret (r + n + m)
      | None => mret r
      end;
  (* separator *)
  if negb skip_separator then
    n ← stream_write [x00];
    mret (r + n)
  else mret r.

End methods.

End LOutputScope.

(** ** Confidential transaction container *)

Module PSET.

Record t : Type := mk {
  inputs : list LInputScope.t;
  outputs : list LOutputScope.t;
  tx_version : option Z;
  locktime : option Z;
}.

Definition set_inputs (v : list LInputScope.t) (c : t) : t :=
  mk v (outputs c) (tx_version c) (locktime c).

Definition set_outputs (v : list LOutputScope.t) (c : t) : t :=
  mk (inputs c) v (tx_version c) (locktime c).

(** What the base container ([PSBT] in [psbt.py]) contributes: the
    transaction it exposes and its own verification. *)
Class base : Type := {
  tx : t -> LTransaction.t;
  base_verify : method t unit;
}.

Definition MAGIC : bytes := [x70; x73; x65; x74; xff].

(** A method of an input or output record, run from the container. *)
Definition on_inputs {A} (m : method (list LInputScope.t) A) : method t A :=
  fun c => let '(l, r) := m (inputs c) in (set_inputs l c, r).

Definition on_outputs {A} (m : method (list LOutputScope.t) A) : method t A :=
  fun c => let '(l, r) := m (outputs c) in (set_outputs l c, r).

Definition on_input {A} (i : nat) (m : method LInputScope.t A) : method t A :=
  on_inputs (at_index i m).

Definition on_output {A} (i : nat) (m : method LOutputScope.t A)
  : method t A :=
  on_outputs (at_index i m).

(** [for i, x in enumerate(xs)] *)
Definition indices {X} (xs : list X) : list nat := seq 0 (length xs).

(** [xs[i]] for an index known to the caller. *)
Definition item {S X} (xs : list X) (i : nat) : method S X :=
  match xs !! i with
  | Some x => mret x
  | None => raise IndexError
  end.

(** [[f(x) for x in xs]] where [f] may raise. *)
Fixpoint comprehension {S X Y} (f : X -> method S Y) (xs : list X)
  : method S (list Y) :=
  match xs with
  | [] => mret []
  | x :: xs' => y ← f x; ys ← comprehension f xs'; mret (y :: ys)
  end.

Definition zero32 : bytes := replicate 32 x00.

(** [x or b"\x00"*32] *)
Definition or_zero32 (x : option bytes) : bytes :=
  match or_else x (Some zero32) with
  | Some b => b
  | None => zero32
  end.

Section methods.
Context {engine : secp256k1} {lib : bitcoin} {io : codec}
  {in_super : LInputScope.base} {out_super : LOutputScope.base}
  {super : base}.

Definition unblind (blinding_key : bytes) : method t unit :=
  self ← get;
  for_each (indices (inputs self))
    (fun i => on_input i (LInputScope.unblind blinding_key)).

Definition txseed (seed : bytes) : method t bytes :=
  (if bool_decide (length seed = 32%nat) then mret tt
   else raise AssertionError);;
  (* get unique seed for this tx:
     we use seed + txid:vout + scriptpubkey as unique data for tagged hash *)
  self ← get;
  outpoints ← comprehension
    (fun inp =>
       match LInputScope.txid inp with
       | None => raise TypeError
       | Some txid =>
           vout ← attr (LInputScope.vout inp);
           n ← lift (int_to_bytes vout 4);
           mret (rev txid ++ n)
       end)
    (inputs self);
  scripts ← comprehension
    (fun out =>
       script ← attr (LOutputScope.script_pubkey out);
       mret (script_serialize script))
    (outputs self);
  let data := concat outpoints ++ concat scripts in
  mret (tagged_hash "liquid/txseed"%string (seed ++ data)).

(** The first loop of [blind]: assign blinding factors to all outputs
    that need blinding and remember which ones they are. The outputs are
    shared with the container, so [blinding_outs] holds their
    positions. *)
Definition assign_blinding_factors (txseed : bytes) : method t (list nat) :=
  self ← get;
  comprehension
    (fun i =>
       self ← get;
       out ← item (outputs self) i;
       (* skip ones where we don't need blinding *)
       match LOutputScope.blinding_pubkey out, LOutputScope.value out with
       | Some _, Some _ =>
           n ← lift (int_to_bytes (Z.of_nat i) 4);
           on_output i (modify (LOutputScope.set_asset_blinding_factor
             (Some (tagged_hash "liquid/abf"%string (txseed ++ n)))));;
           n ← lift (int_to_bytes (Z.of_nat i) 4);
           on_output i (modify (LOutputScope.set_value_blinding_factor
             (Some (tagged_hash "liquid/vbf"%string (txseed ++ n)))));;
           mret [i]
       | _, _ => mret []
       end)
    (indices (outputs self))
  ≫= fun chosen => mret (concat chosen).

(** [sc.value or sc.utxo.value] over the inputs. *)
Definition input_value (sc : LInputScope.t) : method t pyval :=
  if truthy_int (LInputScope.value sc) then mret (py_int (LInputScope.value sc))
  else utxo ← attr (LInputScope.utxo sc);
       mret (LTransactionOutput.value utxo).

(** The tags and generators of the inputs whose asset is known. *)
Definition input_tags : method t (list bytes * list bytes) :=
  self ← get;
  comprehension
    (fun inp =>
       if truthy (LInputScope.asset inp) then
         utxo ← attr (LInputScope.utxo inp);
         gen ← lift (generator_parse
                       (py_bytes (LTransactionOutput.asset utxo)));
         mret [(default [] (LInputScope.asset inp), gen)]
       else
         utxo ← attr (LInputScope.utxo inp);
         match LTransactionOutput.asset utxo with
         | None => raise TypeError
         | Some tag =>
             (* if we have unconfidential input *)
             if bool_decide (length tag = 32%nat) then
               gen ← lift (generator_generate (PyBytes tag));
               mret [(tag, gen)]
             else mret []
         end)
    (inputs self)
  ≫= fun found =>
       mret (map fst (concat found), map snd (concat found)).

(** The body of the last loop of [blind], for the output at position
    [i]. *)
Definition blind_output (txseed : bytes) (in_tags in_gens abfs : list bytes)
    (i : nat) : method t unit :=
  self ← get;
  out ← item (outputs self) i;
  match LOutputScope.blinding_pubkey out, LOutputScope.value out,
        LOutputScope.asset_blinding_factor out with
  | Some _, Some _, Some _ =>
      gen ← lift (generator_generate_blinded
                    (py_bytes (LOutputScope.asset out))
                    (py_bytes (LOutputScope.asset_blinding_factor out)));
      ser ← lift (generator_serialize gen);
      on_output i (modify (LOutputScope.set_asset_commitment (Some ser)));;
      commitment ← lift (pedersen_commit
                           (py_bytes (LOutputScope.value_blinding_factor out))
                           (py_int (LOutputScope.value out)) gen);
      ser ← lift (pedersen_commitment_serialize commitment);
      on_output i (modify (LOutputScope.set_value_commitment (Some ser)));;
      n ← lift (int_to_bytes (Z.of_nat i) 4);
      let proof_seed :=
        tagged_hash "liquid/surjection_proof"%string (txseed ++ n) in
      '(proof, in_idx) ← lift (surjectionproof_initialize in_tags
                                 (py_bytes (LOutputScope.asset out))
                                 proof_seed);
      abf ← item abfs in_idx;
      proof ← lift (surjectionproof_generate proof in_idx in_gens gen abf
                      (py_bytes (LOutputScope.asset_blinding_factor out)));
      ser ← lift (surjectionproof_serialize proof);
      on_output i (modify (LOutputScope.set_surjection_proof (Some ser)));;
      (* generate range proof *)
      n ← lift (int_to_bytes (Z.of_nat i) 4);
      let rangeproof_nonce :=
        tagged_hash "liquid/range_proof"%string (txseed ++ n) in
      on_output i (LOutputScope.reblind rangeproof_nonce None [])
  | _, _, _ => mret tt
  end.

Definition blind (seed : bytes) : method t unit :=
  txseed ← txseed seed;
  (* assign blinding factors to all outputs *)
  blinding_outs ← assign_blinding_factors txseed;
  (if bool_decide (length blinding_outs = 0%nat)
   then raise (PSBTError "Nothing to blind"%string) else mret tt);;
  (* calculate last vbf *)
  self ← get;
  outs ← comprehension (item (outputs self)) blinding_outs;
  in_vals ← comprehension input_value (inputs self);
  let vals := in_vals ++ map (fun sc => py_int (LOutputScope.value sc)) outs in
  let abfs :=
    map (fun sc => or_zero32 (LInputScope.asset_blinding_factor sc))
      (inputs self) ++
    map (fun sc => or_zero32 (LOutputScope.asset_blinding_factor sc)) outs in
  let vbfs :=
    map (fun sc => or_zero32 (LInputScope.value_blinding_factor sc))
      (inputs self) ++
    map (fun sc => or_zero32 (LOutputScope.value_blinding_factor sc)) outs in
  last_vbf ← lift (pedersen_blind_generator_blind_sum vals abfs vbfs
                     (length (inputs self)));
  last_out ← item blinding_outs (length blinding_outs - 1);
  on_output last_out
    (modify (LOutputScope.set_value_blinding_factor (Some last_vbf)));;
  (* calculate commitments (surj proof etc) *)
  '(in_tags, in_gens) ← input_tags;
  self ← get;
  for_each (indices (outputs self))
    (blind_output txseed in_tags in_gens abfs).

Definition fee : method t Z :=
  self ← get;
  let step (fee : Z) (out : LTransactionOutput.t) : result Z :=
    script ← match LTransactionOutput.script_pubkey out with
             | Some script => Ok script
             | None => Raise AttributeError
             end;
    if bool_decide (data script = []) then
      match LTransactionOutput.value out with
      | PyInt value => Ok (fee + value)
      | _ => Raise TypeError
      end
    else Ok fee in
  lift (foldl (fun acc out => fee ← acc; step fee out) (Ok 0)
          (LTransaction.vout (tx self))).

Definition blinded_tx (self : t) : LTransaction.t :=
  LTransaction.mk
    (if truthy_int (tx_version self) then default 0 (tx_version self) else 2)
    (if truthy_int (locktime self) then default 0 (locktime self) else 0)
    (map LInputScope.vin (inputs self))
    (map LOutputScope.blinded_vout (outputs self)).

Definition is_verified (self : t) : bool :=
  forallb id (map LInputScope.is_verified (inputs self) ++
              map LOutputScope.is_verified (outputs self)).

(** Checks that all commitments, values and assets are consistent *)
Definition verify : method t bool :=
  base_verify;;
  self ← get;
  for_each (indices (outputs self))
    (fun i => on_output i (LOutputScope.verify ≫= fun _ => mret tt));;
  self ← get;
  mret (is_verified self).

End methods.

End PSET.

(** * Vocabulary of the statements *)

(** The two errors the module raises by name. *)
Definition invalid_commitments : exn := PSBTError "Invalid commitments"%string.

Definition nothing_to_blind : exn := PSBTError "Nothing to blind"%string.

(** ** Commitment checks *)

Section commitments.
Context {engine : secp256k1}.

(** The checks [LOutputScope.verify] applies: a side is checked when
    both its plaintext and its commitment are truthy. *)
Definition asset_checked (r : LOutputScope.t) : bool :=
  truthy (LOutputScope.asset r) && truthy (LOutputScope.asset_commitment r).

Definition value_checked (r : LOutputScope.t) : bool :=
  truthy_int (LOutputScope.value r) &&
  truthy (LOutputScope.value_commitment r).

(** The stored asset commitment is the serialized generator recomputed
    from the asset and its blinding factor. *)
Definition asset_commitment_opens (r : LOutputScope.t) (gen : bytes) : Prop :=
  generator_generate_blinded (py_bytes (LOutputScope.asset r))
    (py_bytes (LOutputScope.asset_blinding_factor r)) = Ok gen ∧
  ∃ ser, generator_serialize gen = Ok ser ∧
         LOutputScope.asset_commitment r = Some ser.

(** The stored value commitment is the serialized Pedersen commitment
    recomputed from the value, its blinding factor and the generator. *)
Definition value_commitment_opens (r : LOutputScope.t) (gen : bytes) : Prop :=
  ∃ commitment ser,
    pedersen_commit (py_bytes (LOutputScope.value_blinding_factor r))
      (py_int (LOutputScope.value r)) gen = Ok commitment ∧
    pedersen_commitment_serialize commitment = Ok ser ∧
    LOutputScope.value_commitment r = Some ser.

End commitments.

(** The four fields [LInputScope.unblind] stores. *)
Definition store_unblinded (value : Z) (asset vbf abf : bytes)
    (r : LInputScope.t) : LInputScope.t :=
  LInputScope.set_value_blinding_factor (Some vbf)
    (LInputScope.set_asset_blinding_factor (Some abf)
       (LInputScope.set_value (Some value)
          (LInputScope.set_asset (Some asset) r))).

(** The record [r'] holds the four recovered fields, read field by
    field, and everything else of [r]. *)
Definition unblinded_as (value : Z) (asset vbf abf : bytes)
    (r r' : LInputScope.t) : Prop :=
  LInputScope.value r' = Some value ∧
  LInputScope.asset r' = Some asset ∧
  LInputScope.value_blinding_factor r' = Some vbf ∧
  LInputScope.asset_blinding_factor r' = Some abf ∧
  LInputScope.range_proof r' = LInputScope.range_proof r ∧
  LInputScope.utxo r' = LInputScope.utxo r ∧
  LInputScope.txid r' = LInputScope.txid r ∧
  LInputScope.vout r' = LInputScope.vout r ∧
  LInputScope.sequence r' = LInputScope.sequence r ∧
  LInputScope.unknown r' = LInputScope.unknown r ∧
  LInputScope.compress r' = LInputScope.compress r.

(** What the loop of [PSET.verify] does to the outputs, written as a
    recursion on the list: it stops at the first output that raises. *)
Fixpoint verify_each {engine : secp256k1} (outs : list LOutputScope.t)
  : list LOutputScope.t * result unit :=
  match outs with
  | [] => ([], Ok tt)
  | out :: outs' =>
      match LOutputScope.verify out with
      | (out', Ok _) =>
          let '(rest, r) := verify_each outs' in (out' :: rest, r)
      | (out', Raise e) => (out' :: outs', Raise e)
      end
  end.

(** ** Fees and blinding *)

(** The fee of a list of transaction outputs, in the words of the
    specification: the sum of the plaintext values of the outputs whose
    script is empty. *)
Definition has_empty_script (out : LTransactionOutput.t) : bool :=
  match LTransactionOutput.script_pubkey out with
  | Some script => bool_decide (data script = [])
  | None => false
  end.

Definition plaintext_value (out : LTransactionOutput.t) : Z :=
  match LTransactionOutput.value out with
  | PyInt v => v
  | _ => 0
  end.

Definition sum_of_fee_outputs (outs : list LTransactionOutput.t) : Z :=
  foldr Z.add 0 (map plaintext_value (List.filter has_empty_script outs)).

(** An output carries a script, and a plaintext value when the script
    is empty. *)
Definition fee_convention (out : LTransactionOutput.t) : Prop :=
  ∃ script, LTransactionOutput.script_pubkey out = Some script ∧
            (data script = [] → ∃ v, LTransactionOutput.value out = PyInt v).

(** An output qualifies for blinding when it has both a blinding public
    key and a known value. *)
Definition needs_blinding (out : LOutputScope.t) : Prop :=
  is_Some (LOutputScope.blinding_pubkey out) ∧
  is_Some (LOutputScope.value out).

(** What the transaction seed reads: a previous output on every input
    and a script on every output. *)
Definition has_outpoint (inp : LInputScope.t) : Prop :=
  is_Some (LInputScope.txid inp) ∧
  ∃ vout, LInputScope.vout inp = Some vout ∧ 0 ≤ vout < 2 ^ 32.

Definition has_script (out : LOutputScope.t) : Prop :=
  is_Some (LOutputScope.script_pubkey out).

(** ** Record keys *)

(** The keys each record recognizes exactly. *)
Definition input_keys : list bytes :=
  [pset_key x0e; elements_key x00; elements_key x01; elements_key x02;
   elements_key x03].

Definition output_keys : list bytes :=
  [elements_key x04; pset_key x04; elements_key x05; pset_key x05;
   elements_key x00; pset_key x01; elements_key x01; pset_key x02;
   elements_key x02; pset_key x03; elements_key x03; elements_key x06;
   pset_key x06; elements_key x07; pset_key x07; pset_key x08].

(** A key is confidential when one of the two prefixes occurs in it at
    some offset. *)
Definition confidential_key (k : bytes) : Prop :=
  ∃ pre post, k = pre ++ elements_prefix ++ post ∨
              k = pre ++ pset_prefix ++ post.

(** The record [r'] holds [v] under the key [k] among its unknown
    fields, read by lookup, and is [r] in everything else. *)
Definition input_kept_unknown (k v : bytes) (r r' : LInputScope.t) : Prop :=
  LInputScope.unknown r' !! k = Some v ∧
  (∀ k', k' ≠ k →
     LInputScope.unknown r' !! k' = LInputScope.unknown r !! k') ∧
  LInputScope.value r' = LInputScope.value r ∧
  LInputScope.value_blinding_factor r' = LInputScope.value_blinding_factor r ∧
  LInputScope.asset r' = LInputScope.asset r ∧
  LInputScope.asset_blinding_factor r' = LInputScope.asset_blinding_factor r ∧
  LInputScope.range_proof r' = LInputScope.range_proof r ∧
  LInputScope.utxo r' = LInputScope.utxo r ∧
  LInputScope.txid r' = LInputScope.txid r ∧
  LInputScope.vout r' = LInputScope.vout r ∧
  LInputScope.sequence r' = LInputScope.sequence r ∧
  LInputScope.compress r' = LInputScope.compress r.

Definition output_kept_unknown (k v : bytes) (r r' : LOutputScope.t)
  : Prop :=
  LOutputScope.unknown r' !! k = Some v ∧
  (∀ k', k' ≠ k →
     LOutputScope.unknown r' !! k' = LOutputScope.unknown r !! k') ∧
  LOutputScope.value_commitment r' = LOutputScope.value_commitment r ∧
  LOutputScope.value_blinding_factor r' =
    LOutputScope.value_blinding_factor r ∧
  LOutputScope.asset_commitment r' = LOutputScope.asset_commitment r ∧
  LOutputScope.asset_blinding_factor r' =
    LOutputScope.asset_blinding_factor r ∧
  LOutputScope.range_proof r' = LOutputScope.range_proof r ∧
  LOutputScope.surjection_proof r' = LOutputScope.surjection_proof r ∧
  LOutputScope.ecdh_pubkey r' = LOutputScope.ecdh_pubkey r ∧
  LOutputScope.blinding_pubkey r' = LOutputScope.blinding_pubkey r ∧
  LOutputScope.asset r' = LOutputScope.asset r ∧
  LOutputScope.blinder_index r' = LOutputScope.blinder_index r ∧
  LOutputScope._verified r' = LOutputScope._verified r ∧
  LOutputScope.value r' = LOutputScope.value r ∧
  LOutputScope.script_pubkey r' = LOutputScope.script_pubkey r ∧
  LOutputScope.compress r' = LOutputScope.compress r.

(** ** The wire format *)

(** What the properties below ask of the string codec: a string that
    was written is read back, or skipped, and the separator byte reads
    as the empty key. Lengths are bounded by what a length prefix can
    hold. *)
Record codec_laws {io : codec} : Prop := {
  read_ser : ∀ b rest,
    Z.of_nat (length b) < 2 ^ 64 →
    read_string_bytes (ser_string_bytes b ++ rest) = Ok (b, rest);
  skip_ser : ∀ b rest,
    Z.of_nat (length b) < 2 ^ 64 →
    skip_string_bytes (ser_string_bytes b ++ rest) = Ok rest;
  read_separator : ∀ rest, read_string_bytes (x00 :: rest) = Ok ([], rest);
}.
Arguments codec_laws io : clear implicits.

(** Modelled from the spec: the loop of the base records that reads one
    input's or output's block of key-value records ([psbt.py] is not
    under src/). "Each record is a length-prefixed key followed by a
    length-prefixed value"; "a per-record terminator byte (0x00) ends
    each input/output's key-value block", which reads as an empty key.
    The value of each record is consumed by [read_value]. The loop is
    bounded by [fuel]; [None] means the bound was reached. *)
Fixpoint read_scope {io : codec} {S}
    (read_value : bytes → method (S * bytes) unit) (fuel : nat)
    (st : S * bytes) : option ((S * bytes) * result unit) :=
  match fuel with
  | O => None
  | Datatypes.S fuel =>
      match read_string st with
      | (st, Raise e) => Some (st, Raise e)
      | (st, Ok key) =>
          if bool_decide (key = []) then Some (st, Ok tt)
          else
            match read_value key st with
            | (st, Raise e) => Some (st, Raise e)
            | (st, Ok _) => read_scope read_value fuel st
            end
      end
  end.

(** A byte string short enough for a length prefix. *)
Definition fits (b : bytes) : Prop := Z.of_nat (length b) < 2 ^ 64.

(** One key-value record on the wire. *)
Definition wire_record {io : codec} (k v : bytes) : bytes :=
  ser_string_bytes k ++ ser_string_bytes v.

(** The record of a field that may not be set. *)
Definition optional_record {io : codec} (key : bytes) (x : option bytes)
  : bytes :=
  match x with
  | Some v => wire_record key v
  | None => []
  end.

(** Appending to the stream and adding to the running count. *)
Definition emit (b : bytes) (r : Z) : method bytes Z :=
  fun stream => (stream ++ b, Ok (r + Z.of_nat (length b))).

(** A stored value takes precedence over the one it is read onto. *)
Definition overlay {A} (written old : option A) : option A :=
  match written with
  | Some _ => written
  | None => old
  end.

(** Records with no field set, as a parse starts from. *)
Definition blank_input (compress : bool) : LInputScope.t :=
  LInputScope.mk None None None None None None None None None ∅ compress.

Definition blank_output (compress : bool) : LOutputScope.t :=
  LOutputScope.mk None None None None None None None None None None false
    None None ∅ compress.

(** ** The liquid fields of an output record on the wire *)
Inductive output_field : Type :=
  | Asset
  | ValueCommitment
  | ValueBlindingFactor
  | AssetCommitment
  | AssetBlindingFactor
  | BlindingPubkey
  | EcdhPubkey
  | RangeProof
  | SurjectionProof
  | BlinderIndex.

(** The order of the specification: "asset, value commitment, value
    blinding factor, asset commitment, asset blinding factor, blinding
    pubkey, ECDH pubkey, range proof, surjection proof, blinder index". *)
Definition write_order : list output_field :=
  [Asset; ValueCommitment; ValueBlindingFactor; AssetCommitment;
   AssetBlindingFactor; BlindingPubkey; EcdhPubkey; RangeProof;
   SurjectionProof; BlinderIndex].

(** The fields written before the two proofs, and from them on. *)
Definition fields_before_proofs : list output_field :=
  [Asset; ValueCommitment; ValueBlindingFactor; AssetCommitment;
   AssetBlindingFactor; BlindingPubkey; EcdhPubkey].

Definition fields_from_proofs : list output_field :=
  [RangeProof; SurjectionProof; BlinderIndex].

(** The key of a field under a version. *)
Definition output_field_key (version : option Z) (f : output_field) : bytes :=
  let v2 := LOutputScope.is_v2 version in
  match f with
  | Asset => pset_key x02
  | ValueCommitment => if v2 then pset_key x01 else elements_key x00
  | ValueBlindingFactor => elements_key x01
  | AssetCommitment => if v2 then pset_key x03 else elements_key x02
  | AssetBlindingFactor => elements_key x03
  | BlindingPubkey => if v2 then pset_key x06 else elements_key x06
  | EcdhPubkey => if v2 then pset_key x07 else elements_key x07
  | RangeProof => if v2 then pset_key x04 else elements_key x04
  | SurjectionProof => if v2 then pset_key x05 else elements_key x05
  | BlinderIndex => pset_key x08
  end.

(** The value of a field as it goes on the wire, when the field is
    set. *)
Definition output_field_value (r : LOutputScope.t) (f : output_field)
  : option bytes :=
  match f with
  | Asset => LOutputScope.asset r
  | ValueCommitment => LOutputScope.value_commitment r
  | ValueBlindingFactor => LOutputScope.value_blinding_factor r
  | AssetCommitment => LOutputScope.asset_commitment r
  | AssetBlindingFactor => LOutputScope.asset_blinding_factor r
  | BlindingPubkey => LOutputScope.blinding_pubkey r
  | EcdhPubkey => LOutputScope.ecdh_pubkey r
  | RangeProof => LOutputScope.range_proof r
  | SurjectionProof => LOutputScope.surjection_proof r
  | BlinderIndex => little_endian 4 <$> LOutputScope.blinder_index r
  end.

(** The fields that are set, in the order of the specification. *)
Definition present_fields (r : LOutputScope.t) : list (output_field * bytes) :=
  omap (fun f => (fun v => (f, v)) <$> output_field_value r f) write_order.

(** The plaintext asset has a key under version 2 only. *)
Definition output_field_serialized (version : option Z) (f : output_field)
  : bool :=
  match f with
  | Asset => LOutputScope.is_v2 version
  | _ => true
  end.

Definition serialized_fields (version : option Z) (r : LOutputScope.t)
  : list (output_field * bytes) :=
  List.filter (fun '(f, _) => output_field_serialized version f)
    (present_fields r).

Definition output_wire {io : codec} (version : option Z)
    (fields : list (output_field * bytes)) : bytes :=
  flat_map (fun '(f, v) => wire_record (output_field_key version f) v) fields.

(** What reading one field does to the record being filled in. *)
Definition output_field_read (f : output_field) (v : bytes)
    (r : LOutputScope.t) : LOutputScope.t :=
  match f with
  | Asset => LOutputScope.set_asset (Some v) r
  | ValueCommitment => LOutputScope.set_value_commitment (Some v) r
  | ValueBlindingFactor => LOutputScope.set_value_blinding_factor (Some v) r
  | AssetCommitment => LOutputScope.set_asset_commitment (Some v) r
  | AssetBlindingFactor => LOutputScope.set_asset_blinding_factor (Some v) r
  | BlindingPubkey => LOutputScope.set_blinding_pubkey (Some v) r
  | EcdhPubkey => LOutputScope.set_ecdh_pubkey (Some v) r
  | RangeProof =>
      if LOutputScope.compress r then r
      else LOutputScope.set_range_proof (Some v) r
  | SurjectionProof =>
      if LOutputScope.compress r then r
      else LOutputScope.set_surjection_proof (Some v) r
  | BlinderIndex =>
      LOutputScope.set_blinder_index (Some (int_from_bytes v)) r
  end.

(** The record obtained by reading the fields written from [r] onto the
    record [r0]: every field that was serialized replaces the one of
    [r0], except that the two proofs are left alone under the compress
    flag of [r0]. *)
Definition reread_output (version : option Z) (r r0 : LOutputScope.t)
  : LOutputScope.t :=
  let proofs {A} (written old : option A) :=
    if LOutputScope.compress r0 then old else overlay written old in
  LOutputScope.mk
    (overlay (LOutputScope.value_commitment r)
       (LOutputScope.value_commitment r0))
    (overlay (LOutputScope.value_blinding_factor r)
       (LOutputScope.value_blinding_factor r0))
    (overlay (LOutputScope.asset_commitment r)
       (LOutputScope.asset_commitment r0))
    (overlay (LOutputScope.asset_blinding_factor r)
       (LOutputScope.asset_blinding_factor r0))
    (proofs (LOutputScope.range_proof r) (LOutputScope.range_proof r0))
    (proofs (LOutputScope.surjection_proof r)
       (LOutputScope.surjection_proof r0))
    (overlay (LOutputScope.ecdh_pubkey r) (LOutputScope.ecdh_pubkey r0))
    (overlay (LOutputScope.blinding_pubkey r)
       (LOutputScope.blinding_pubkey r0))
    (if LOutputScope.is_v2 version
     then overlay (LOutputScope.asset r) (LOutputScope.asset r0)
     else LOutputScope.asset r0)
    (overlay (LOutputScope.blinder_index r) (LOutputScope.blinder_index r0))
    (LOutputScope._verified r0) (LOutputScope.value r0)
    (LOutputScope.script_pubkey r0) (LOutputScope.unknown r0)
    (LOutputScope.compress r0).

(** One step of that reading: the field [f] of [r], if it was
    serialized, replaces the one of the record being filled in. *)
Definition output_field_merge (version : option Z) (r : LOutputScope.t)
    (f : output_field) (acc : LOutputScope.t) : LOutputScope.t :=
  let proofs (merged : LOutputScope.t) :=
    if LOutputScope.compress acc then acc else merged in
  match f with
  | Asset =>
      if LOutputScope.is_v2 version
      then LOutputScope.set_asset
             (overlay (LOutputScope.asset r) (LOutputScope.asset acc)) acc
      else acc
  | ValueCommitment =>
      LOutputScope.set_value_commitment
        (overlay (LOutputScope.value_commitment r)
           (LOutputScope.value_commitment acc)) acc
  | ValueBlindingFactor =>
      LOutputScope.set_value_blinding_factor
        (overlay (LOutputScope.value_blinding_factor r)
           (LOutputScope.value_blinding_factor acc)) acc
  | AssetCommitment =>
      LOutputScope.set_asset_commitment
        (overlay (LOutputScope.asset_commitment r)
           (LOutputScope.asset_commitment acc)) acc
  | AssetBlindingFactor =>
      LOutputScope.set_asset_blinding_factor
        (overlay (LOutputScope.asset_blinding_factor r)
           (LOutputScope.asset_blinding_factor acc)) acc
  | BlindingPubkey =>
      LOutputScope.set_blinding_pubkey
        (overlay (LOutputScope.blinding_pubkey r)
           (LOutputScope.blinding_pubkey acc)) acc
  | EcdhPubkey =>
      LOutputScope.set_ecdh_pubkey
        (overlay (LOutputScope.ecdh_pubkey r)
           (LOutputScope.ecdh_pubkey acc)) acc
  | RangeProof =>
      proofs (LOutputScope.set_range_proof
                (overlay (LOutputScope.range_proof r)
                   (LOutputScope.range_proof acc)) acc)
  | SurjectionProof =>
      proofs (LOutputScope.set_surjection_proof
                (overlay (LOutputScope.surjection_proof r)
                   (LOutputScope.surjection_proof acc)) acc)
  | BlinderIndex =>
      LOutputScope.set_blinder_index
        (overlay (LOutputScope.blinder_index r)
           (LOutputScope.blinder_index acc)) acc
  end.

(** The byte strings of an output record fit a length prefix and its
    blinder index fits four bytes. *)
Definition output_serializable (r : LOutputScope.t) : Prop :=
  (∀ f v, output_field_value r f = Some v → fits v) ∧
  (∀ i, LOutputScope.blinder_index r = Some i → 0 ≤ i < 2 ^ 32).

(** ** The liquid fields of an input record on the wire *)
Inductive input_field : Type :=
  | InValue
  | InValueBlindingFactor
  | InAsset
  | InAssetBlindingFactor
  | InRangeProof.

Definition input_order : list input_field :=
  [InValue; InValueBlindingFactor; InAsset; InAssetBlindingFactor;
   InRangeProof].

Definition input_field_key (f : input_field) : bytes :=
  match f with
  | InValue => elements_key x00
  | InValueBlindingFactor => elements_key x01
  | InAsset => elements_key x02
  | InAssetBlindingFactor => elements_key x03
  | InRangeProof => pset_key x0e
  end.

Definition input_field_value (r : LInputScope.t) (f : input_field)
  : option bytes :=
  match f with
  | InValue => little_endian 8 <$> LInputScope.value r
  | InValueBlindingFactor => LInputScope.value_blinding_factor r
  | InAsset => LInputScope.asset r
  | InAssetBlindingFactor => LInputScope.asset_blinding_factor r
  | InRangeProof => LInputScope.range_proof r
  end.

Definition input_fields (r : LInputScope.t) : list (input_field * bytes) :=
  omap (fun f => (fun v => (f, v)) <$> input_field_value r f) input_order.

Definition input_wire {io : codec} (fields : list (input_field * bytes))
  : bytes :=
  flat_map (fun '(f, v) => wire_record (input_field_key f) v) fields.

Definition input_field_read (f : input_field) (v : bytes) (r : LInputScope.t)
  : LInputScope.t :=
  match f with
  | InValue => LInputScope.set_value (Some (int_from_bytes v)) r
  | InValueBlindingFactor => LInputScope.set_value_blinding_factor (Some v) r
  | InAsset => LInputScope.set_asset (Some v) r
  | InAssetBlindingFactor => LInputScope.set_asset_blinding_factor (Some v) r
  | InRangeProof =>
      if LInputScope.compress r then r
      else LInputScope.set_range_proof (Some v) r
  end.

(** The input record obtained by reading the fields written from [r]
    onto the record [r0]. *)
Definition reread_input (r r0 : LInputScope.t) : LInputScope.t :=
  LInputScope.mk
    (overlay (LInputScope.value r) (LInputScope.value r0))
    (overlay (LInputScope.value_blinding_factor r)
       (LInputScope.value_blinding_factor r0))
    (overlay (LInputScope.asset r) (LInputScope.asset r0))
    (overlay (LInputScope.asset_blinding_factor r)
       (LInputScope.asset_blinding_factor r0))
    (if LInputScope.compress r0 then LInputScope.range_proof r0
     else overlay (LInputScope.range_proof r) (LInputScope.range_proof r0))
    (LInputScope.utxo r0) (LInputScope.txid r0) (LInputScope.vout r0)
    (LInputScope.sequence r0) (LInputScope.unknown r0)
    (LInputScope.compress r0).

Definition input_field_merge (r : LInputScope.t) (f : input_field)
    (acc : LInputScope.t) : LInputScope.t :=
  match f with
  | InValue =>
      LInputScope.set_value
        (overlay (LInputScope.value r) (LInputScope.value acc)) acc
  | InValueBlindingFactor =>
      LInputScope.set_value_blinding_factor
        (overlay (LInputScope.value_blinding_factor r)
           (LInputScope.value_blinding_factor acc)) acc
  | InAsset =>
      LInputScope.set_asset
        (overlay (LInputScope.asset r) (LInputScope.asset acc)) acc
  | InAssetBlindingFactor =>
      LInputScope.set_asset_blinding_factor
        (overlay (LInputScope.asset_blinding_factor r)
           (LInputScope.asset_blinding_factor acc)) acc
  | InRangeProof =>
      if LInputScope.compress acc then acc
      else LInputScope.set_range_proof
             (overlay (LInputScope.range_proof r)
                (LInputScope.range_proof acc)) acc
  end.

(** The byte strings of an input record fit a length prefix and its
    value fits eight bytes. *)
Definition input_serializable (r : LInputScope.t) : Prop :=
  (∀ f v, input_field_value r f = Some v → fits v) ∧
  (∀ v, LInputScope.value r = Some v → 0 ≤ v < 2 ^ 64).

(** * Instances for the examples
    A transparent stand-in for the commitment engine: a generator is
    the asset tag followed by its blinding factor, a commitment the
    blinding factor followed by the eight bytes of the value and the
    generator, and serialized forms are the buffers themselves. *)
Definition plain_bytes (v : pyval) : result bytes :=
  match v with
  | PyBytes b => Ok b
  | _ => Raise TypeError
  end.

Definition plain_int (v : pyval) : result Z :=
  match v with
  | PyInt z => Ok z
  | _ => Raise TypeError
  end.

Definition plain_secp256k1 : secp256k1 := {|
  generator_generate_blinded asset abf :=
    asset ← plain_bytes asset; abf ← plain_bytes abf; Ok (asset ++ abf);
  generator_generate asset := plain_bytes asset;
  generator_parse := plain_bytes;
  generator_serialize := Ok;
  pedersen_commit vbf value gen :=
    vbf ← plain_bytes vbf; value ← plain_int value;
    n ← int_to_bytes value 8; Ok (vbf ++ n ++ gen);
  pedersen_commitment_parse := plain_bytes;
  pedersen_commitment_serialize := Ok;
  pedersen_blind_generator_blind_sum vals abfs vbfs n := Ok (concat vbfs);
  surjectionproof_initialize tags asset seed := Ok (seed, 0%nat);
  surjectionproof_generate proof idx gens gen abf out_abf := Ok proof;
  surjectionproof_serialize := Ok;
  rangeproof_sign nonce value commitment vbf msg script gen := Ok msg;
  ec_pubkey_parse := Ok;
  ec_pubkey_tweak_mul pub nonce := Ok (pub ++ nonce);
  ec_pubkey_serialize := Ok;
|}.

(** The rest of the package, as plainly: the rewind reads the value,
    the asset and the two blinding factors off a four-byte proof, and
    the constructor of a transaction output keeps what it is handed. *)
Definition plain_bitcoin : bitcoin := {|
  sha256 b := b;
  tagged_hash tag b := b;
  slip77_blinding_key key script := Ok key;
  rewind ecdh secret proof value asset script :=
    match proof with
    | [v; a; vbf; abf] => Ok (Z_of_byte v, [a], [vbf], [abf], [], 0, 0)
    | _ => Raise (ValueError "rewind"%string)
    end;
  private_key_sec := Ok;
  script_serialize script := data script;
  new_output := LTransactionOutput.mk;
|}.

(** Bitcoin's compact-size strings, the instance used in the examples:
    the length as one byte below [0xfd], otherwise a marker byte
    followed by the length on 2, 4 or 8 little-endian bytes. *)
Definition compact_to_bytes (n : Z) : bytes :=
  if n <? 0xfd then [byte_of_Z n]
  else if n <=? 0xffff then xfd :: little_endian 2 n
  else if n <=? 0xffffffff then xfe :: little_endian 4 n
  else xff :: little_endian 8 n.

Definition stream_read (n : nat) (stream : bytes) : result (bytes * bytes) :=
  if (n <=? length stream)%nat then Ok (take n stream, drop n stream)
  else Raise (PSBTError "unexpected end of stream"%string).

Definition compact_read_from (stream : bytes) : result (Z * bytes) :=
  match stream with
  | [] => Raise (PSBTError "unexpected end of stream"%string)
  | c :: stream =>
      let size := Z_of_byte c in
      if size <? 0xfd then Ok (size, stream)
      else
        '(b, stream) ← stream_read (Z.to_nat (2 ^ (size - 0xfc))) stream;
        Ok (int_from_bytes b, stream)
  end.

Definition compact_codec : codec := {|
  ser_string_bytes b := compact_to_bytes (Z.of_nat (length b)) ++ b;
  read_string_bytes stream :=
    '(n, stream) ← compact_read_from stream;
    stream_read (Z.to_nat n) stream;
  skip_string_bytes stream :=
    '(n, stream) ← compact_read_from stream;
    '(_, stream) ← stream_read (Z.to_nat n) stream;
    Ok stream;
|}.

(** Base records for the examples: they keep every key they are handed
    among the unknown fields and write nothing of their own. *)
Definition plain_input_base {io : codec} : LInputScope.base := {|
  LInputScope.base_init unknown self := self;
  LInputScope.base_clear_metadata self := self;
  LInputScope.base_read_value k :=
    v ← read_string;
    assign (fun self =>
      LInputScope.set_unknown (dict_set k v (LInputScope.unknown self)) self);
  LInputScope.base_write_to self skip_separator version := mret 0;
  LInputScope.is_verified self :=
    bool_decide (is_Some (LInputScope.utxo self));
|}.

Definition plain_output_base {io : codec} : LOutputScope.base := {|
  LOutputScope.base_init unknown vout self := self;
  LOutputScope.base_clear_metadata self := self;
  LOutputScope.base_read_value k :=
    v ← read_string;
    assign (fun self =>
      LOutputScope.set_unknown (dict_set k v (LOutputScope.unknown self))
        self);
  LOutputScope.base_write_to self skip_separator version := mret 0;
|}.

Definition plain_container_base : PSET.base := {|
  PSET.tx self :=
    LTransaction.mk 2 0 (map LInputScope.vin (PSET.inputs self))
      (map (LOutputScope.vout (lib := plain_bitcoin)) (PSET.outputs self));
  PSET.base_verify := mret tt;
|}.

(** * Records for the examples *)

(** An output whose value is the integer zero next to a stored value
    commitment, and nothing else. *)
Definition zero_value_output : LOutputScope.t :=
  LOutputScope.mk (Some [x09]) None None None None None None None None None
    false (Some 0) None ∅ false.

Definition empty_asset_output : LOutputScope.t :=
  LOutputScope.mk (Some [x0b]) None (Some [x0a]) None None None None None
    (Some []) None false (Some 5) None ∅ false.

Definition zero_value_bad_asset_output : LOutputScope.t :=
  LOutputScope.mk (Some [x0b]) None (Some [x0a]) None None None None None
    (Some [x01]) None false (Some 0) None ∅ false.

(** An output whose commitments open under the transparent engine: the
    value 5 of the asset [01] under the blinding factors [02] and
    [03]. *)
Definition committed_output : LOutputScope.t :=
  LOutputScope.mk
    (Some [x02; x05; x00; x00; x00; x00; x00; x00; x00; x01; x03])
    (Some [x02]) (Some [x01; x03]) (Some [x03]) None None None None
    (Some [x01]) None false (Some 5) (Some {| data := [x51] |}) ∅ false.

(** An output that only has a plaintext asset. *)
Definition asset_only_output : LOutputScope.t :=
  LOutputScope.set_asset (Some [x01]) (blank_output false).

(** An output with every liquid field set. *)
Definition full_output : LOutputScope.t :=
  LOutputScope.mk (Some [x11]) (Some [x12]) (Some [x13]) (Some [x14])
    (Some [x15; x16]) (Some [x17]) (Some [x18]) (Some [x19]) (Some [x1a])
    (Some 3) false (Some 7) (Some {| data := [x51] |}) ∅ false.

(** A fee output and an ordinary unblinded output. *)
Definition fee_output : LOutputScope.t :=
  LOutputScope.mk None None None None None None None None (Some [x01]) None
    false (Some 5) (Some {| data := [] |}) ∅ false.

Definition plain_output : LOutputScope.t :=
  LOutputScope.mk None None None None None None None None (Some [x01]) None
    false (Some 7) (Some {| data := [x51] |}) ∅ false.

(** A spent output committing to the value 5 of the asset [01] under the
    blinding factors [02] and [03], and an input carrying the matching
    range proof. *)
Definition committed_utxo : LTransactionOutput.t :=
  LTransactionOutput.mk (Some [x01; x03])
    (PyBytes [x02; x05; x00; x00; x00; x00; x00; x00; x00; x01; x03])
    (Some {| data := [x51] |}) (Some [x07]) None.

Definition blinded_input : LInputScope.t :=
  LInputScope.mk None None None None (Some [x05; x01; x02; x03])
    (Some committed_utxo) (Some [xaa]) (Some 0) None ∅ false.

(** The same input with a proof that rewinds to the value 6. *)
Definition mismatched_input : LInputScope.t :=
  LInputScope.set_range_proof (Some [x06; x01; x02; x03]) blinded_input.

(** An input with every liquid field set. *)
Definition full_input : LInputScope.t :=
  LInputScope.mk (Some 1000) (Some [x21]) (Some [x22]) (Some [x23])
    (Some [x24; x25]) None (Some [xaa]) (Some 0) None ∅ false.

(** A container that spends one blinded output into an ordinary output
    and a fee. *)
Definition unblinded_container : PSET.t :=
  PSET.mk [blinded_input] [plain_output; fee_output] None None.

(** The same with an input that the base record does not count as
    verified. *)
Definition unverified_container : PSET.t :=
  PSET.mk [full_input] [plain_output; fee_output] None None.

(** The committed output with the plaintext value 6 next to a
    commitment to 5, and a container in which it comes before an output
    whose commitments open. *)
Definition miscommitted_output : LOutputScope.t :=
  LOutputScope.mk
    (Some [x02; x05; x00; x00; x00; x00; x00; x00; x00; x01; x03])
    (Some [x02]) (Some [x01; x03]) (Some [x03]) None None None None
    (Some [x01]) None false (Some 6) (Some {| data := [x51] |}) ∅ false.

Definition miscommitted_container : PSET.t :=
  PSET.mk [blinded_input] [miscommitted_output; committed_output] None None.

(** A fee output that carries a value commitment in place of its value,
    a fee output of value zero, and an output without a script, each in
    a container of its own. *)
Definition blinded_fee_output : LOutputScope.t :=
  LOutputScope.mk (Some [x09]) None None None None None None None
    (Some [x01]) None false None (Some {| data := [] |}) ∅ false.

Definition zero_fee_output : LOutputScope.t :=
  LOutputScope.mk None None None None None None None None (Some [x01]) None
    false (Some 0) (Some {| data := [] |}) ∅ false.

Definition scriptless_output : LOutputScope.t :=
  LOutputScope.mk None None None None None None None None (Some [x01]) None
    false (Some 7) None ∅ false.

Definition blinded_fee_container : PSET.t :=
  PSET.mk [blinded_input] [plain_output; blinded_fee_output] None None.

Definition zero_fee_container : PSET.t :=
  PSET.mk [blinded_input] [plain_output; zero_fee_output] None None.

Definition no_script_container : PSET.t :=
  PSET.mk [blinded_input] [scriptless_output] None None.

(** A key with the v2 prefix at offset one. *)
Definition nested_key : bytes := [x0a] ++ pset_prefix ++ [x01].

(** * Vocabulary of the further properties *)

(** The other error the module raises by name. *)
Definition blinding_pubkey_required : exn :=
  PSBTError "Blinding pubkey required"%string.

(** The fields of an output record that [clear_metadata] leaves in
    place. *)
Definition public_fields : list output_field :=
  [Asset; ValueCommitment; AssetCommitment; BlindingPubkey; EcdhPubkey].

(** One turn of the loop of [PSET.fee]. *)
Definition fee_step (acc : result Z) (out : LTransactionOutput.t) : result Z :=
  fee ← acc;
  script ← match LTransactionOutput.script_pubkey out with
           | Some script => Ok script
           | None => Raise AttributeError
           end;
  if bool_decide (data script = []) then
    match LTransactionOutput.value out with
    | PyInt value => Ok (fee + value)
    | _ => Raise TypeError
    end
  else Ok fee.

(** What the loop of [PSET.unblind] does to the inputs, written as a
    recursion on the list: it stops at the first input that raises. *)
Fixpoint unblind_each {engine : secp256k1} {lib : bitcoin} (key : bytes)
    (inps : list LInputScope.t) : list LInputScope.t * result unit :=
  match inps with
  | [] => ([], Ok tt)
  | inp :: inps' =>
      match LInputScope.unblind key inp with
      | (inp', Ok _) =>
          let '(rest, r) := unblind_each key inps' in (inp' :: rest, r)
      | (inp', Raise e) => (inp' :: inps', Raise e)
      end
  end.

(** [[g(x) for x in xs]] for a [g] that reads no state. *)
Fixpoint collect {X Y} (g : X → result Y) (xs : list X) : result (list Y) :=
  match xs with
  | [] => Ok []
  | x :: xs' => y ← g x; ys ← collect g xs'; Ok (y :: ys)
  end.

(** What [txseed] takes from an input and from an output. *)
Definition outpoint_bytes (inp : LInputScope.t) : result bytes :=
  match LInputScope.txid inp with
  | None => Raise TypeError
  | Some txid =>
      match LInputScope.vout inp with
      | None => Raise AttributeError
      | Some vout => n ← int_to_bytes vout 4; Ok (rev txid ++ n)
      end
  end.

Definition script_bytes {lib : bitcoin} (out : LOutputScope.t)
  : result bytes :=
  match LOutputScope.script_pubkey out with
  | None => Raise AttributeError
  | Some script => Ok (script_serialize script)
  end.

(** [sc.value or sc.utxo.value], read off an input. *)
Definition input_value_of (sc : LInputScope.t) : result pyval :=
  if truthy_int (LInputScope.value sc) then Ok (py_int (LInputScope.value sc))
  else match LInputScope.utxo sc with
       | Some utxo => Ok (LTransactionOutput.value utxo)
       | None => Raise AttributeError
       end.

(** ** Outcomes of a method

    [wp m s Q E]: started in the state [s], the method [m] ends in a
    state that satisfies [Q a] when it returns [a], and [E] when it
    raises. *)
Definition wp {S A} (m : method S A) (s : S) (Q : A → S → Prop)
    (E : S → Prop) : Prop :=
  match m s with
  | (s', Ok a) => Q a s'
  | (s', Raise _) => E s'
  end.

(** The container with the output at position [i] replaced. *)
Definition with_output (i : nat) (out : LOutputScope.t) (c : PSET.t) : PSET.t :=
  PSET.set_outputs (<[i:=out]> (PSET.outputs c)) c.

(** ** Blinding *)

#[global] Instance needs_blinding_dec (out : LOutputScope.t) :
  Decision (needs_blinding out).
Proof. unfold needs_blinding. apply _. Defined.

(** The positions of the outputs that [blind] blinds, in order. *)
Definition blinding_positions (outs : list LOutputScope.t) : list nat :=
  List.filter
    (fun i => match outs !! i with
              | Some out => bool_decide (needs_blinding out)
              | None => false
              end)
    (seq 0 (length outs)).

(** The blinding factors [blind] derives for the output at position
    [i]. *)
Definition abf_of {lib : bitcoin} (txseed : bytes) (i : nat) : bytes :=
  tagged_hash "liquid/abf"%string (txseed ++ little_endian 4 (Z.of_nat i)).

Definition vbf_of {lib : bitcoin} (txseed : bytes) (i : nat) : bytes :=
  tagged_hash "liquid/vbf"%string (txseed ++ little_endian 4 (Z.of_nat i)).

(** What [blind] keeps of an output: everything but the commitments,
    the blinding factors, the proofs and the ECDH key, and the whole
    output when it does not qualify for blinding. *)
Definition blind_keeps (out out' : LOutputScope.t) : Prop :=
  LOutputScope.blinding_pubkey out' = LOutputScope.blinding_pubkey out ∧
  LOutputScope.value out' = LOutputScope.value out ∧
  LOutputScope.asset out' = LOutputScope.asset out ∧
  LOutputScope.script_pubkey out' = LOutputScope.script_pubkey out ∧
  LOutputScope.blinder_index out' = LOutputScope.blinder_index out ∧
  LOutputScope._verified out' = LOutputScope._verified out ∧
  LOutputScope.unknown out' = LOutputScope.unknown out ∧
  LOutputScope.compress out' = LOutputScope.compress out ∧
  (¬ needs_blinding out → out' = out).

(** What [blind] keeps of a container: its inputs, its version and
    locktime, and of each output what [blind_keeps] says. *)
Definition blind_frame (c c' : PSET.t) : Prop :=
  PSET.inputs c' = PSET.inputs c ∧
  PSET.tx_version c' = PSET.tx_version c ∧
  PSET.locktime c' = PSET.locktime c ∧
  Forall2 blind_keeps (PSET.outputs c) (PSET.outputs c').

(** Every output qualifying for blinding at a position below [k] holds
    the blinding factors derived for its position. *)
Definition factors_assigned {lib : bitcoin} (txseed : bytes) (k : nat)
    (outs : list LOutputScope.t) : Prop :=
  ∀ j out, (j < k)%nat → outs !! j = Some out → needs_blinding out →
    LOutputScope.asset_blinding_factor out = Some (abf_of txseed j) ∧
    LOutputScope.value_blinding_factor out = Some (vbf_of txseed j).

(** The blinding factors of the outputs once [blind] has balanced them:
    the value blinding factor of the last blinded output is replaced. *)
Definition blinding_factors {lib : bitcoin} (txseed : bytes) (final : nat)
    (last_vbf : bytes) (outs : list LOutputScope.t) : Prop :=
  ∀ j out, outs !! j = Some out → needs_blinding out →
    LOutputScope.asset_blinding_factor out = Some (abf_of txseed j) ∧
    LOutputScope.value_blinding_factor out =
      Some (if bool_decide (j = final) then last_vbf else vbf_of txseed j).

(** The commitments of every output qualifying for blinding at a
    position below [k] open under the blinding factors it stores. *)
Definition commitments_open {engine : secp256k1} (k : nat)
    (outs : list LOutputScope.t) : Prop :=
  ∀ j out, (j < k)%nat → outs !! j = Some out → needs_blinding out →
    ∃ gen, asset_commitment_opens out gen ∧ value_commitment_opens out gen.

(** ** Records for the further examples *)

(** An output to blind, and a container that spends one blinded output
    into it and a fee. *)
Definition blinding_output : LOutputScope.t :=
  LOutputScope.mk None None None None None None None (Some [x02]) (Some [x01])
    None false (Some 7) (Some {| data := [x51] |}) ∅ false.

Definition blinding_container : PSET.t :=
  PSET.mk [blinded_input] [blinding_output; fee_output] None None.

(** A container whose only output has no script. *)
Definition scriptless_container : PSET.t :=
  PSET.mk [] [zero_value_output] None None.

(** Nine bytes that read as 2^64. *)
Definition nine_bytes : bytes :=
  [x00; x00; x00; x00; x00; x00; x00; x00; x01].
(** * Proof tools *)

Ltac run :=
  cbv [mbind mret method_bind method_ret result_bind result_ret modify get
       raise lift attr LOutputScope.raise_if_differs] in *;
  simpl in *.

Ltac cases := repeat (case_match; run; simplify_eq; try done).

(** One step of a serialization: a bind whose first action appends to
    the stream. *)
Ltac emit_with lem :=
  unfold mbind at 1, method_bind at 1; rewrite lem; unfold emit at 1.

(** Decides the comparisons of a concrete key. *)
Ltac decide_keys :=
  repeat match goal with
         | |- context [bytes_in ?p ?k] =>
             let b := eval vm_compute in (bytes_in p k) in
             change (bytes_in p k) with b
         | |- context [bool_decide ?P] =>
             let b := eval vm_compute in (bool_decide P) in
             change (bool_decide P) with b
         end;
  cbn [negb andb].

(** * Lists and folds *)

Lemma forallb_id_map {X} (f : X → bool) (l : list X) :
  forallb id (map f l) = true ↔ Forall (fun x => f x = true) l.
Proof.
  induction l as [|x l IH]; simpl.
  - split; [by constructor|done].
  - rewrite andb_true_iff, Forall_cons, IH. done.
Qed.

Lemma foldl_pointwise {A B} (f g : A → B → A) (l : list B) (a : A) :
  (∀ a b, f a b = g a b) → foldl f a l = foldl g a l.
Proof.
  intros Hfg. revert a. induction l as [|b l IH]; intros a; simpl; [done|].
  by rewrite Hfg, IH.
Qed.

Lemma flat_map_omap {X Y Z} (g : Y → list Z) (h : X → option Y) (l : list X) :
  flat_map g (omap h l) =
  flat_map (fun x => match h x with Some y => g y | None => [] end) l.
Proof.
  induction l as [|x l IH]; simpl in *; [done|].
  destruct (h x) as [y|]; simpl; by rewrite <- IH.
Qed.

Lemma foldl_omap {X Y A} (step : A → Y → A) (h : X → option Y) (l : list X)
    (acc : A) :
  foldl step acc (omap h l) =
  foldl (fun acc x => match h x with Some y => step acc y | None => acc end)
    acc l.
Proof.
  revert acc. induction l as [|x l IH]; intros acc; simpl in *; [done|].
  destruct (h x) as [y|]; simpl; by rewrite <- IH.
Qed.

Lemma flat_map_filter_omap {X Y Z} (g : Y → list Z) (p : Y → bool)
    (h : X → option Y) (l : list X) :
  flat_map g (List.filter p (omap h l)) =
  flat_map (fun x => match h x with
                     | Some y => if p y then g y else []
                     | None => []
                     end) l.
Proof.
  induction l as [|x l IH]; simpl in *; [done|].
  destruct (h x) as [y|]; simpl; [|done].
  destruct (p y); simpl; by rewrite <- IH.
Qed.

Lemma foldl_filter_omap {X Y A} (step : A → Y → A) (p : Y → bool)
    (h : X → option Y) (l : list X) (acc : A) :
  foldl step acc (List.filter p (omap h l)) =
  foldl (fun acc x => match h x with
                      | Some y => if p y then step acc y else acc
                      | None => acc
                      end) acc l.
Proof.
  revert acc. induction l as [|x l IH]; intros acc; simpl in *; [done|].
  destruct (h x) as [y|]; simpl; [|done].
  destruct (p y); simpl; by rewrite <- IH.
Qed.

Lemma filter_all {X} (p : X → bool) (l : list X) :
  Forall (fun x => p x = true) l → List.filter p l = l.
Proof.
  induction 1 as [|x l Hx _ IH]; simpl; [done|]. by rewrite Hx, IH.
Qed.

Lemma filter_omap_app {X Y} (p : Y → bool) (h : X → option Y) (l l' : list X) :
  List.filter p (omap h (l ++ l')) =
  List.filter p (omap h l) ++ List.filter p (omap h l').
Proof.
  induction l as [|x l IH]; simpl in *; [done|].
  destruct (h x) as [y|]; simpl; [|done].
  destruct (p y); simpl; [f_equal|]; exact IH.
Qed.

Lemma filter_omap_spec {X Y} (p : Y → bool) (h : X → option Y) (l : list X) :
  Forall (fun y => ∃ x, x ∈ l ∧ h x = Some y ∧ p y = true)
    (List.filter p (omap h l)) ∧
  (length (List.filter p (omap h l)) ≤ length l)%nat.
Proof.
  induction l as [|x l [IH1 IH2]]; simpl in *; [by split|].
  assert (Forall (fun y => ∃ x', x' ∈ x :: l ∧ h x' = Some y ∧ p y = true)
            (List.filter p (omap h l))) as IH1'.
  { eapply Forall_impl; [exact IH1|]. intros y (x' & ? & ? & ?).
    exists x'. split; [by right|done]. }
  assert (∀ k, (k ≤ length l → k ≤ S (length l))%nat) as Hle by (intros; lia).
  destruct (h x) as [y|] eqn:Hx; simpl; [|split; [done|by apply Hle]].
  destruct (p y) eqn:Hp; simpl; [|split; [done|by apply Hle]].
  split; [|by apply le_n_S]. constructor; [|done].
  exists x. split; [by left|done].
Qed.

Lemma overlay_blank {A} (x : option A) : overlay x None = x.
Proof. by destruct x. Qed.

Lemma emitted_eq (s s' : bytes) (z z' : Z) :
  s = s' → z = z' → (s, Ok z) = (s', Ok z').
Proof. by intros -> ->. Qed.

(** * Integers on the wire *)

Lemma Z_of_byte_of_Z (z : Z) : Z_of_byte (byte_of_Z z) = z mod 256.
Proof.
  unfold Z_of_byte, byte_of_Z.
  pose proof (Z.mod_pos_bound z 256 eq_refl) as Hb.
  destruct (Byte.of_N (Z.to_N (z mod 256))) as [b|] eqn:Hof; simpl.
  - apply Byte.to_of_N in Hof. rewrite Hof. lia.
  - apply Byte.of_N_None_iff in Hof. lia.
Qed.

Lemma length_little_endian (n : nat) (z : Z) : length (little_endian n z) = n.
Proof. revert z. induction n as [|n IH]; intros z; simpl; [done|by rewrite IH]. Qed.

Lemma int_from_little_endian (n : nat) (z : Z) :
  0 ≤ z < 256 ^ Z.of_nat n → int_from_bytes (little_endian n z) = z.
Proof.
  revert z. induction n as [|n IH]; intros z Hz; simpl.
  - simpl in Hz. lia.
  - rewrite Z_of_byte_of_Z, IH.
    + pose proof (Z.div_mod z 256). lia.
    + rewrite Nat2Z.inj_succ, Z.pow_succ_r in Hz by lia.
      split; [apply Z.div_pos; lia|apply Z.div_lt_upper_bound; lia].
Qed.

Lemma int_to_bytes_ok (z : Z) (n : nat) :
  0 ≤ z < 256 ^ Z.of_nat n → int_to_bytes z n = Ok (little_endian n z).
Proof.
  intros [Hlo Hhi]. unfold int_to_bytes.
  apply Z.leb_le in Hlo. apply Z.ltb_lt in Hhi. by rewrite Hlo, Hhi.
Qed.

(** * The compact-size codec satisfies the laws *)

Lemma stream_read_app (b rest : bytes) :
  stream_read (length b) (b ++ rest) = Ok (b, rest).
Proof.
  unfold stream_read. rewrite length_app.
  rewrite (proj2 (Nat.leb_le _ _)) by lia.
  by rewrite take_app_length, drop_app_length.
Qed.

Lemma stream_read_little_endian (n : nat) (z : Z) (rest : bytes) :
  stream_read n (little_endian n z ++ rest) = Ok (little_endian n z, rest).
Proof.
  pose proof (stream_read_app (little_endian n z) rest) as H.
  by rewrite length_little_endian in H.
Qed.

Lemma compact_read_from_to_bytes (n : Z) (rest : bytes) :
  0 ≤ n < 2 ^ 64 →
  compact_read_from (compact_to_bytes n ++ rest) = Ok (n, rest).
Proof.
  intros Hn. unfold compact_to_bytes, compact_read_from.
  destruct (n <? 253) eqn:H1; [|destruct (n <=? 65535) eqn:H2;
    [|destruct (n <=? 4294967295) eqn:H3]].
  - apply Z.ltb_lt in H1. simpl. rewrite Z_of_byte_of_Z, Z.mod_small by lia.
    by rewrite (proj2 (Z.ltb_lt _ _)) by lia.
  - apply Z.ltb_ge in H1. apply Z.leb_le in H2.
    change (stream_read 2 (little_endian 2 n ++ rest) ≫=
            (λ '(b, stream), Ok (int_from_bytes b, stream)) = Ok (n, rest)).
    rewrite stream_read_little_endian. cbv [mbind result_bind].
    by rewrite int_from_little_endian by (simpl; lia).
  - apply Z.leb_gt in H2. apply Z.leb_le in H3.
    change (stream_read 4 (little_endian 4 n ++ rest) ≫=
            (λ '(b, stream), Ok (int_from_bytes b, stream)) = Ok (n, rest)).
    rewrite stream_read_little_endian. cbv [mbind result_bind].
    by rewrite int_from_little_endian by (simpl; lia).
  - apply Z.leb_gt in H3.
    change (stream_read 8 (little_endian 8 n ++ rest) ≫=
            (λ '(b, stream), Ok (int_from_bytes b, stream)) = Ok (n, rest)).
    rewrite stream_read_little_endian. cbv [mbind result_bind].
    by rewrite int_from_little_endian by (simpl; lia).
Qed.

Lemma compact_codec_laws : codec_laws compact_codec.
Proof.
  split; simpl.
  - intros b rest Hb. rewrite <- app_assoc.
    rewrite compact_read_from_to_bytes by lia. simpl.
    rewrite Nat2Z.id. apply stream_read_app.
  - intros b rest Hb. rewrite <- app_assoc.
    rewrite compact_read_from_to_bytes by lia. simpl.
    by rewrite Nat2Z.id, stream_read_app.
  - done.
Qed.

(** * Verification of an output record *)

Section output_verify.
Context {engine : secp256k1}.
Import LOutputScope.

(** [verify], case by case. *)
Lemma verify_cases (r : t) :
  verify r =
  let failed e := (set__verified false r, Raise e) in
  let passed := (set__verified true r, Ok true) in
  let value_side gen :=
    if value_checked r then
      match pedersen_commit (py_bytes (value_blinding_factor r))
              (py_int (value r)) gen with
      | Raise e => failed e
      | Ok commitment =>
          match pedersen_commitment_serialize commitment with
          | Raise e => failed e
          | Ok ser =>
              if bool_decide (value_commitment r = Some ser) then passed
              else failed invalid_commitments
          end
      end
    else passed in
  if asset_checked r then
    if truthy (asset_blinding_factor r) then
      match generator_generate_blinded (py_bytes (asset r))
              (py_bytes (asset_blinding_factor r)) with
      | Raise e => failed e
      | Ok gen =>
          match generator_serialize gen with
          | Raise e => failed e
          | Ok ser =>
              if bool_decide (asset_commitment r = Some ser)
              then value_side gen else failed invalid_commitments
          end
      end
    else failed invalid_commitments
  else if value_checked r then failed invalid_commitments else passed.
Proof.
  unfold verify, asset_checked, value_checked, invalid_commitments. run.
  destruct r; simpl. cases; congruence.
Qed.

Lemma verify_outcome (r : t) :
  verify r = (set__verified true r, Ok true) ∨
  ∃ e, verify r = (set__verified false r, Raise e).
Proof. rewrite verify_cases. simpl. cases; eauto. Qed.

Lemma verify_passes_iff (r : t) :
  verify r = (set__verified true r, Ok true) ↔
  (asset_checked r = true →
     truthy (asset_blinding_factor r) = true ∧
     ∃ gen, asset_commitment_opens r gen) ∧
  (value_checked r = true →
     asset_checked r = true ∧
     ∃ gen, asset_commitment_opens r gen ∧ value_commitment_opens r gen).
Proof.
  rewrite verify_cases. unfold asset_commitment_opens, value_commitment_opens.
  simpl. split.
  - intros Hv. cases; split; intros; simplify_eq; try done;
      repeat match goal with
             | H : bool_decide _ = true |- _ => apply bool_decide_eq_true in H
             end;
      naive_solver.
  - intros [Ha Hv].
    destruct (asset_checked r) eqn:Ea.
    + destruct Ha as (-> & gen & Hg & ser & Hs & Hc); [done|].
      rewrite Hg, Hs, bool_decide_eq_true_2 by done.
      destruct (value_checked r) eqn:Ev; [|done].
      destruct Hv as (_ & gen' & (Hg' & _) & c & s & Hp & Hps & Hvc); [done|].
      rewrite Hg in Hg'. simplify_eq.
      by rewrite Hp, Hps, bool_decide_eq_true_2.
    + destruct (value_checked r) eqn:Ev; [|done].
      by destruct Hv as [? _].
Qed.

(** What [verify] checks. It resets the verified flag, and ends either
    with the flag set and [True] or with the flag clear and an exception.
    When the asset and the asset commitment are both truthy it raises
    "Invalid commitments" if the asset blinding factor is not truthy or
    if the serialized generator recomputed from the asset and its
    blinding factor differs from the stored asset commitment. When the
    value is not zero and the value commitment is truthy it raises the
    same error if the asset check established no generator or if the
    serialized commitment recomputed from the blinding factor, the value
    and the generator differs from the stored one. It passes exactly
    when every check that applies passes; with nothing to check it
    passes. *)
Lemma verify_checks (r : t) :
  let failed e := (set__verified false r, Raise e) in
  let passed := (set__verified true r, Ok true) in
  (verify r = passed ∨ ∃ e, verify r = failed e) ∧
  (asset_checked r = true → truthy (asset_blinding_factor r) = false →
   verify r = failed invalid_commitments) ∧
  (asset_checked r = true → truthy (asset_blinding_factor r) = true →
   ∀ gen ser,
     generator_generate_blinded (py_bytes (asset r))
       (py_bytes (asset_blinding_factor r)) = Ok gen →
     generator_serialize gen = Ok ser →
     asset_commitment r ≠ Some ser →
     verify r = failed invalid_commitments) ∧
  (value_checked r = true → asset_checked r = false →
   verify r = failed invalid_commitments) ∧
  (value_checked r = true → asset_checked r = true →
   truthy (asset_blinding_factor r) = true →
   ∀ gen commitment ser,
     asset_commitment_opens r gen →
     pedersen_commit (py_bytes (value_blinding_factor r))
       (py_int (value r)) gen = Ok commitment →
     pedersen_commitment_serialize commitment = Ok ser →
     value_commitment r ≠ Some ser →
     verify r = failed invalid_commitments) ∧
  (verify r = passed ↔
   (asset_checked r = true →
      truthy (asset_blinding_factor r) = true ∧
      ∃ gen, asset_commitment_opens r gen) ∧
   (value_checked r = true →
      asset_checked r = true ∧
      ∃ gen, asset_commitment_opens r gen ∧ value_commitment_opens r gen)) ∧
  (asset_checked r = false → value_checked r = false → verify r = passed).
Proof.
  intros failed passed. subst failed passed.
  split; [apply verify_outcome|].
  split; [intros Ha Hb; rewrite verify_cases; simpl; by rewrite Ha, Hb|].
  split.
  { intros Ha Hb gen ser Hg Hs Hne. rewrite verify_cases. simpl.
    by rewrite Ha, Hb, Hg, Hs, bool_decide_eq_false_2. }
  split; [intros Hv Ha; rewrite verify_cases; simpl; by rewrite Ha, Hv|].
  split.
  { intros Hv Ha Hb gen c ser (Hg & s & Hs & Hc) Hp Hps Hne.
    rewrite verify_cases. simpl.
    rewrite Ha, Hb, Hg, Hs, bool_decide_eq_true_2, Hv, Hp, Hps by done.
    by rewrite bool_decide_eq_false_2. }
  split; [apply verify_passes_iff|].
  intros Ha Hv. rewrite verify_cases. simpl. by rewrite Ha, Hv.
Qed.

(** C9, as amended. With a value of zero, [verify] never looks at the
    value commitment or its blinding factor: replacing them changes
    nothing of the outcome, and [verify] passes exactly when the asset
    check passes or does not apply. With an empty asset it never looks
    at the asset commitment or its blinding factor either, but no
    generator is established: [verify] passes when the value check does
    not apply and raises "Invalid commitments" when it does. *)
Theorem LOutputScope_verify_skips_falsy (r : t) :
  let failed e := (set__verified false r, Raise e) in
  let passed := (set__verified true r, Ok true) in
  (value r = Some 0 →
   (∀ vc vbf,
      verify (set_value_commitment vc (set_value_blinding_factor vbf r)) =
      let '(r', res) := verify r in
      (set_value_commitment vc (set_value_blinding_factor vbf r'), res)) ∧
   (verify r = passed ↔
    (asset_checked r = true →
       truthy (asset_blinding_factor r) = true ∧
       ∃ gen, asset_commitment_opens r gen))) ∧
  (asset r = Some [] →
   (∀ ac abf,
      verify (set_asset_commitment ac (set_asset_blinding_factor abf r)) =
      let '(r', res) := verify r in
      (set_asset_commitment ac (set_asset_blinding_factor abf r'), res)) ∧
   verify r = if value_checked r then failed invalid_commitments else passed).
Proof.
  intros failed passed. subst failed passed. split.
  - intros Hz. split.
    + intros vc vbf. rewrite !verify_cases. simpl.
      unfold value_checked, asset_checked. destruct r; simpl in *.
      subst. simpl. cases.
    + rewrite verify_passes_iff. unfold value_checked. rewrite Hz. simpl.
      split; [by intros [? _]|]. intros Ha. split; [done|]. intros [=].
  - intros Hz. split.
    + intros ac abf. rewrite !verify_cases. simpl.
      unfold value_checked, asset_checked. destruct r; simpl in *.
      subst. simpl. cases.
    + rewrite verify_cases. simpl. unfold asset_checked. by rewrite Hz.
Qed.

End output_verify.

(** C2. An output record whose value is present but zero, with a value
    commitment and no asset: both the value and its commitment are
    present and no generator is established, yet [verify], under any
    engine and for any bytes in the place of the commitment, compares
    nothing: it sets the verified flag and returns [True], where a
    record with any other value and the same fields, the commitment not
    empty, raises "Invalid commitments". *)
Theorem LOutputScope_verify_present_zero_value :
  ∀ (engine : secp256k1) (commitment : bytes),
    let r := LOutputScope.set_value_commitment (Some commitment)
               zero_value_output in
    LOutputScope.value r = Some 0 ∧
    LOutputScope.value_commitment r = Some commitment ∧
    LOutputScope.asset r = None ∧
    LOutputScope.verify r = (LOutputScope.set__verified true r, Ok true) ∧
    LOutputScope._verified (fst (LOutputScope.verify r)) = true ∧
    LOutputScope.verify r ≠
      (LOutputScope.set__verified false r, Raise invalid_commitments) ∧
    (∀ v, v ≠ 0 → commitment ≠ [] →
       LOutputScope.verify (LOutputScope.set_value (Some v) r) =
       (LOutputScope.set__verified false (LOutputScope.set_value (Some v) r),
        Raise invalid_commitments)).
Proof.
  intros engine commitment r. subst r.
  split; [done|]. split; [done|]. split; [done|].
  split; [done|]. split; [done|]. split; [done|].
  intros v Hv Hc. rewrite verify_cases. unfold value_checked, asset_checked.
  simpl. destruct (Z.eqb_spec v 0); [done|]. by destruct commitment.
Qed.

(** C9, counterexample. An empty asset next to an asset commitment, or
    a zero value next to a value commitment, does not make [verify]
    return [True]: the first output has a value to check and no
    generator, the second an asset that cannot be checked for want of a
    blinding factor; both raise. *)
Lemma LOutputScope_verify_falsy_side_may_fail :
  (LOutputScope.asset empty_asset_output = Some [] ∧
   is_Some (LOutputScope.asset_commitment empty_asset_output) ∧
   LOutputScope.verify (engine := plain_secp256k1) empty_asset_output =
     (LOutputScope.set__verified false empty_asset_output,
      Raise invalid_commitments)) ∧
  (LOutputScope.value zero_value_bad_asset_output = Some 0 ∧
   is_Some (LOutputScope.value_commitment zero_value_bad_asset_output) ∧
   LOutputScope.verify (engine := plain_secp256k1) zero_value_bad_asset_output =
     (LOutputScope.set__verified false zero_value_bad_asset_output,
      Raise invalid_commitments)).
Proof. repeat split; try done; by eexists. Qed.

(** C9, witness: a zero value with a value commitment and nothing
    else. *)
Lemma LOutputScope_verify_skips_falsy_witness :
  LOutputScope.verify (engine := plain_secp256k1) zero_value_output =
    (LOutputScope.set__verified true zero_value_output, Ok true).
Proof.
  apply (proj2 (proj1 (LOutputScope_verify_skips_falsy (engine := plain_secp256k1)
                         zero_value_output) eq_refl)).
  intros H. discriminate H.
Defined.

(** * Unblinding an input record *)

Section input_unblind.
Context {engine : secp256k1} {lib : bitcoin}.
Import LInputScope.

(** [unblind], case by case. *)
Lemma unblind_cases (key : bytes) (r : t) :
  unblind key r =
  match range_proof r with
  | None => (r, Ok tt)
  | Some proof =>
    match utxo r with
    | None => (r, Raise AttributeError)
    | Some u =>
      match slip77_blinding_key key (LTransactionOutput.script_pubkey u) with
      | Raise e => (r, Raise e)
      | Ok pk =>
        match rewind (py_bytes (LTransactionOutput.ecdh_pubkey u)) pk proof
                (LTransactionOutput.value u)
                (py_bytes (LTransactionOutput.asset u))
                (LTransactionOutput.script_pubkey u) with
        | Raise e => (r, Raise e)
        | Ok (value, asset, vbf, abf, _, _, _) =>
          match generator_generate_blinded (PyBytes asset) (PyBytes abf) with
          | Raise e => (r, Raise e)
          | Ok gen =>
            match generator_parse (py_bytes (LTransactionOutput.asset u)) with
            | Raise e => (r, Raise e)
            | Ok utxo_gen =>
              if bool_decide (gen = utxo_gen) then
                match pedersen_commit (PyBytes vbf) (PyInt value) gen with
                | Raise e => (r, Raise e)
                | Ok cmt =>
                  match pedersen_commitment_parse
                          (LTransactionOutput.value u) with
                  | Raise e => (r, Raise e)
                  | Ok utxo_cmt =>
                    if bool_decide (cmt = utxo_cmt)
                    then (store_unblinded value asset vbf abf r, Ok tt)
                    else (r, Raise AssertionError)
                  end
                end
              else (r, Raise AssertionError)
            end
          end
        end
      end
    end
  end.
Proof.
  unfold unblind, store_unblinded. run. cases.
Qed.

(** The fields of [store_unblinded], read back one by one. *)
Lemma store_unblinded_as (value : Z) (asset vbf abf : bytes) (r : t) :
  unblinded_as value asset vbf abf r (store_unblinded value asset vbf abf r).
Proof. by repeat split. Qed.

(** C1. Without a range proof [unblind] returns at once and leaves the
    record as it is. With one, once the blinding key is derived and the
    proof rewound to a value, an asset and their blinding factors, the
    generator recomputed from the asset and its blinding factor is
    compared with the parsed asset of the spent output, and the
    commitment recomputed from the value, its blinding factor and that
    generator with the parsed value of the spent output: a mismatch of
    either fails the assertion and leaves the record unchanged, and
    only when both agree are the four recovered fields stored: the
    value, the asset and the two blinding factors of the resulting
    record then read as the recovered ones, and its other fields as
    before. Whatever is raised, the record is unchanged; whenever
    [unblind] returns, it either had no range proof or stored fields
    that passed both comparisons. *)
Theorem LInputScope_unblind_verified (key : bytes) (r : t) :
  (range_proof r = None → unblind key r = (r, Ok tt)) ∧
  (∀ proof u pk value asset vbf abf extra lo hi gen utxo_gen,
     range_proof r = Some proof →
     utxo r = Some u →
     slip77_blinding_key key (LTransactionOutput.script_pubkey u) = Ok pk →
     rewind (py_bytes (LTransactionOutput.ecdh_pubkey u)) pk proof
       (LTransactionOutput.value u) (py_bytes (LTransactionOutput.asset u))
       (LTransactionOutput.script_pubkey u) =
       Ok (value, asset, vbf, abf, extra, lo, hi) →
     generator_generate_blinded (PyBytes asset) (PyBytes abf) = Ok gen →
     generator_parse (py_bytes (LTransactionOutput.asset u)) = Ok utxo_gen →
     (gen ≠ utxo_gen → unblind key r = (r, Raise AssertionError)) ∧
     (gen = utxo_gen →
      ∀ cmt utxo_cmt,
        pedersen_commit (PyBytes vbf) (PyInt value) gen = Ok cmt →
        pedersen_commitment_parse (LTransactionOutput.value u) = Ok utxo_cmt →
        (cmt ≠ utxo_cmt → unblind key r = (r, Raise AssertionError)) ∧
        (cmt = utxo_cmt →
         unblind key r = (store_unblinded value asset vbf abf r, Ok tt) ∧
         unblinded_as value asset vbf abf r (fst (unblind key r))))) ∧
  (∀ r' e, unblind key r = (r', Raise e) → r' = r) ∧
  (∀ r' x, unblind key r = (r', Ok x) →
     (range_proof r = None ∧ r' = r) ∨
     ∃ u value asset vbf abf gen cmt,
       utxo r = Some u ∧
       r' = store_unblinded value asset vbf abf r ∧
       unblinded_as value asset vbf abf r r' ∧
       generator_generate_blinded (PyBytes asset) (PyBytes abf) = Ok gen ∧
       generator_parse (py_bytes (LTransactionOutput.asset u)) = Ok gen ∧
       pedersen_commit (PyBytes vbf) (PyInt value) gen = Ok cmt ∧
       pedersen_commitment_parse (LTransactionOutput.value u) = Ok cmt).
Proof.
  split; [intros Hp; rewrite unblind_cases; by rewrite Hp|].
  split.
  { intros proof u pk value asset vbf abf extra lo hi gen utxo_gen
      Hp Hu Hk Hr Hg Hug.
    rewrite unblind_cases, Hp, Hu, Hk, Hr, Hg, Hug. split.
    - intros Hne. by rewrite bool_decide_eq_false_2.
    - intros <- cmt utxo_cmt Hc Huc.
      rewrite bool_decide_eq_true_2, Hc, Huc by done. split.
      + intros Hne. by rewrite bool_decide_eq_false_2.
      + intros <-. rewrite bool_decide_eq_true_2 by done.
        split; [done|]. apply store_unblinded_as. }
  split.
  - intros r' e. rewrite unblind_cases. intros Hr. cases.
  - intros r' x. rewrite unblind_cases. intros Hr.
    destruct (range_proof r) eqn:Hp; [right|left; by simplify_eq].
    cases.
    repeat match goal with
           | H : bool_decide _ = true |- _ => apply bool_decide_eq_true in H
           end.
    subst. do 7 eexists. split; [done|]. split; [done|].
    split; [apply store_unblinded_as|]. eauto.
Qed.

End input_unblind.

(** C1, witness: an input whose proof rewinds to the committed value,
    which then holds the value 5, the asset [01] and the blinding
    factors [02] and [03], and one whose proof rewinds to another
    value. *)
Lemma LInputScope_unblind_verified_witness :
  (let r' :=
     fst (LInputScope.unblind (engine := plain_secp256k1)
            (lib := plain_bitcoin) [x2a] blinded_input) in
   LInputScope.unblind (engine := plain_secp256k1) (lib := plain_bitcoin)
     [x2a] blinded_input =
     (store_unblinded 5 [x01] [x02] [x03] blinded_input, Ok tt) ∧
   LInputScope.value r' = Some 5 ∧
   LInputScope.asset r' = Some [x01] ∧
   LInputScope.value_blinding_factor r' = Some [x02] ∧
   LInputScope.asset_blinding_factor r' = Some [x03] ∧
   LInputScope.range_proof r' = Some [x05; x01; x02; x03] ∧
   LInputScope.utxo r' = Some committed_utxo ∧
   LInputScope.txid r' = Some [xaa] ∧
   LInputScope.vout r' = Some 0 ∧
   LInputScope.sequence r' = None ∧
   LInputScope.unknown r' = ∅ ∧
   LInputScope.compress r' = false) ∧
  LInputScope.unblind (engine := plain_secp256k1) (lib := plain_bitcoin) [x2a]
    mismatched_input = (mismatched_input, Raise AssertionError).
Proof.
  split.
  - refine (proj2 (proj2 (proj1 (proj2 (LInputScope_unblind_verified
      (engine := plain_secp256k1) (lib := plain_bitcoin) [x2a] blinded_input))
      [x05; x01; x02; x03] committed_utxo [x2a] 5 [x01] [x02] [x03] [] 0 0
      [x01; x03] [x01; x03] eq_refl eq_refl eq_refl eq_refl eq_refl eq_refl)
      eq_refl _ _ eq_refl eq_refl) eq_refl).
  - refine (proj1 (proj2 (proj1 (proj2 (LInputScope_unblind_verified
      (engine := plain_secp256k1) (lib := plain_bitcoin) [x2a] mismatched_input))
      [x06; x01; x02; x03] committed_utxo [x2a] 6 [x01] [x02] [x03] [] 0 0
      [x01; x03] [x01; x03] eq_refl eq_refl eq_refl eq_refl eq_refl eq_refl)
      eq_refl _ _ eq_refl eq_refl) _).
    discriminate.
Defined.

(** * Verification of a container *)

Section container_verify.
Context {engine : secp256k1} {in_super : LInputScope.base}
  {super : PSET.base}.
Import PSET.

Lemma set_outputs_id (c : t) : set_outputs (outputs c) c = c.
Proof. by destruct c. Qed.

Lemma set_outputs_twice (l l' : list LOutputScope.t) (c : t) :
  set_outputs l (set_outputs l' c) = set_outputs l c.
Proof. done. Qed.

Lemma on_output_at (c : t) (done todo : list LOutputScope.t)
    (out : LOutputScope.t) {A} (m : method LOutputScope.t A) :
  outputs c = done ++ out :: todo →
  on_output (length done) m c =
  let '(out', r) := m out in (set_outputs (done ++ out' :: todo) c, r).
Proof.
  intros Hc. unfold on_output, on_outputs, at_index. rewrite Hc.
  rewrite lookup_app_r, Nat.sub_diag by lia. simpl.
  destruct (m out) as [out' r].
  by rewrite insert_app_r_alt, Nat.sub_diag by lia.
Qed.

Lemma verify_loop (todo done : list LOutputScope.t) (c : t) :
  outputs c = done ++ todo →
  for_each (seq (length done) (length todo))
    (fun i => on_output i (LOutputScope.verify ≫= fun _ => mret tt)) c =
  let '(rest, r) := verify_each todo in (set_outputs (done ++ rest) c, r).
Proof.
  revert done c. induction todo as [|out todo IH]; intros done c Hc; simpl.
  - rewrite app_nil_r in *. by rewrite <- Hc, set_outputs_id.
  - unfold mbind at 1, method_bind at 1.
    rewrite (on_output_at c done todo out) by done.
    unfold mbind at 1, method_bind at 1.
    destruct (LOutputScope.verify out) as [out' [x|e]]; simpl; [|done].
    specialize (IH (done ++ [out']) (set_outputs (done ++ out' :: todo) c)).
    rewrite length_app, Nat.add_1_r in IH. rewrite IH.
    + destruct (verify_each todo) as [rest r].
      by rewrite set_outputs_twice, <- app_assoc.
    + simpl. by rewrite <- app_assoc.
Qed.

Lemma verify_each_outcome (outs : list LOutputScope.t) :
  (verify_each outs = (map (LOutputScope.set__verified true) outs, Ok tt) ∧
   Forall (fun o => LOutputScope.verify o =
                    (LOutputScope.set__verified true o, Ok true)) outs) ∨
  (∃ outs' e, verify_each outs = (outs', Raise e) ∧
              Exists (fun o => LOutputScope.verify o =
                               (LOutputScope.set__verified false o, Raise e))
                outs).
Proof.
  induction outs as [|o outs IH]; simpl; [by left|].
  destruct (verify_outcome o) as [Ho|[e Ho]]; rewrite Ho.
  - destruct IH as [[-> Hall]|(outs' & e & -> & Hex)]; [left|right]; eauto.
  - right. eauto.
Qed.

Lemma is_verified_iff (c : t) :
  is_verified c = true ↔
  Forall (fun inp => LInputScope.is_verified inp = true) (inputs c) ∧
  Forall (fun out => LOutputScope.is_verified out = true) (outputs c).
Proof.
  unfold is_verified.
  by rewrite forallb_app, andb_true_iff, !forallb_id_map.
Qed.

Lemma verify_cases_container (c : t) :
  verify c =
  match base_verify c with
  | (c1, Raise e) => (c1, Raise e)
  | (c1, Ok _) =>
      match verify_each (outputs c1) with
      | (outs, Raise e) => (set_outputs outs c1, Raise e)
      | (outs, Ok _) =>
          (set_outputs outs c1, Ok (is_verified (set_outputs outs c1)))
      end
  end.
Proof.
  unfold verify. unfold mbind at 1, method_bind at 1.
  destruct (base_verify c) as [c1 [[]|e]]; [|done].
  unfold mbind at 1, method_bind at 1, get at 1.
  unfold mbind at 1, method_bind at 1.
  pose proof (verify_loop (outputs c1) [] c1 eq_refl) as Hl.
  simpl in Hl. unfold indices. rewrite Hl.
  by destruct (verify_each (outputs c1)) as [outs [[]|e]].
Qed.

(** The loop over the outputs when every output passes, and when one
    raises after outputs that pass. *)
Lemma verify_each_passes (outs : list LOutputScope.t) :
  Forall (fun o => LOutputScope.verify o =
                   (LOutputScope.set__verified true o, Ok true)) outs →
  verify_each outs = (map (LOutputScope.set__verified true) outs, Ok tt).
Proof.
  induction 1 as [|o outs Ho _ IH]; simpl; [done|]. by rewrite Ho, IH.
Qed.

Lemma verify_each_raises (done todo : list LOutputScope.t)
    (out : LOutputScope.t) (e : exn) :
  Forall (fun o => LOutputScope.verify o =
                   (LOutputScope.set__verified true o, Ok true)) done →
  LOutputScope.verify out = (LOutputScope.set__verified false out, Raise e) →
  verify_each (done ++ out :: todo) =
  (map (LOutputScope.set__verified true) done ++
   LOutputScope.set__verified false out :: todo, Raise e).
Proof.
  intros Hd Ho. induction Hd as [|o done Hv _ IH]; simpl.
  - by rewrite Ho.
  - by rewrite Hv, IH.
Qed.

(** C4, as amended. [is_verified] holds exactly when the flag of every
    input and of every output holds. [verify] runs the base
    verification and then verifies the outputs in order. When it
    returns, every output has passed its own verification and is
    flagged, and the value returned is [is_verified] of the resulting
    container: it is [True] exactly when every input is verified, and
    [False] as soon as one input is not. It does return when the base
    verification succeeds and every output passes. An output that fails
    its own verification makes [verify] raise the error of that output:
    the outputs before it are flagged, the failing output is not, and
    the outputs after it are left as they were, unvisited. An error of
    the base verification is raised before any output is visited. *)
Theorem PSET_verify_conjunction (c : t) :
  (is_verified c = true ↔
   Forall (fun inp => LInputScope.is_verified inp = true) (inputs c) ∧
   Forall (fun out => LOutputScope.is_verified out = true) (outputs c)) ∧
  (∀ c' b, verify c = (c', Ok b) →
     b = is_verified c' ∧
     (∃ c1, base_verify c = (c1, Ok tt) ∧
            inputs c' = inputs c1 ∧
            Forall2 (fun out out' => LOutputScope.verify out = (out', Ok true))
              (outputs c1) (outputs c')) ∧
     Forall (fun out => LOutputScope.is_verified out = true) (outputs c') ∧
     (b = true ↔
      Forall (fun inp => LInputScope.is_verified inp = true) (inputs c')) ∧
     (Exists (fun inp => LInputScope.is_verified inp = false) (inputs c') →
      b = false)) ∧
  (∀ c1, base_verify c = (c1, Ok tt) →
     Forall (fun out => LOutputScope.verify out =
                        (LOutputScope.set__verified true out, Ok true))
       (outputs c1) →
     let c' := set_outputs
                 (map (LOutputScope.set__verified true) (outputs c1)) c1 in
     verify c = (c', Ok (is_verified c')) ∧
     Forall (fun out => LOutputScope.is_verified out = true) (outputs c')) ∧
  (∀ c1 done out todo e, base_verify c = (c1, Ok tt) →
     outputs c1 = done ++ out :: todo →
     Forall (fun o => LOutputScope.verify o =
                      (LOutputScope.set__verified true o, Ok true)) done →
     LOutputScope.verify out =
       (LOutputScope.set__verified false out, Raise e) →
     let c' := set_outputs
                 (map (LOutputScope.set__verified true) done ++
                  LOutputScope.set__verified false out :: todo) c1 in
     verify c = (c', Raise e) ∧
     inputs c' = inputs c1 ∧
     (∀ i o, (i < length done)%nat → outputs c' !! i = Some o →
        LOutputScope.is_verified o = true) ∧
     (∀ o, outputs c' !! length done = Some o →
        LOutputScope.is_verified o = false) ∧
     (∀ i, (length done < i)%nat → outputs c' !! i = outputs c1 !! i)) ∧
  (∀ c1 e, base_verify c = (c1, Raise e) → verify c = (c1, Raise e)).
Proof.
  split; [apply is_verified_iff|]. split; [|split; [|split]].
  - intros c' b. rewrite verify_cases_container.
    destruct (base_verify c) as [c1 [[]|e]] eqn:Hb; [|done].
    destruct (verify_each_outcome (outputs c1))
      as [[Hv Hall]|(outs' & e & Hv & _)]; rewrite Hv; [|done].
    intros [= <- <-].
    assert (Forall (fun out => LOutputScope.is_verified out = true)
              (map (LOutputScope.set__verified true) (outputs c1))) as Hout.
    { rewrite Forall_fmap. by apply Forall_true. }
    split; [done|]. split; [|split; [|split]].
    + exists c1. split; [done|]. split; [done|]. simpl.
      apply Forall2_fmap_r, Forall_Forall2_diag.
      eapply Forall_impl; [exact Hall|]. done.
    + exact Hout.
    + rewrite is_verified_iff. split; [by intros [? _]|by intros ?].
    + intros Hex. apply not_true_is_false. rewrite is_verified_iff.
      intros [Hin _]. apply Exists_exists in Hex as (x & Hx & Hf).
      rewrite Forall_forall in Hin. specialize (Hin x Hx). congruence.
  - intros c1 Hb Hall c'. subst c'.
    rewrite verify_cases_container, Hb, verify_each_passes by done.
    split; [done|]. simpl. rewrite Forall_fmap. by apply Forall_true.
  - intros c1 done out todo e Hb Hc Hd Ho c'. subst c'.
    rewrite verify_cases_container, Hb, Hc.
    rewrite (verify_each_raises done todo out e Hd Ho).
    split; [done|]. split; [done|]. simpl. split; [|split].
    + intros i o Hi. rewrite lookup_app_l by (by rewrite length_map).
      rewrite list_lookup_fmap. intros Hl.
      apply fmap_Some in Hl as (o0 & _ & ->). done.
    + intros o.
      rewrite lookup_app_r by (by rewrite length_map).
      rewrite length_map, Nat.sub_diag. simpl. by intros [= <-].
    + intros i Hi.
      rewrite !lookup_app_r by (rewrite ?length_map; lia).
      rewrite length_map.
      destruct (i - length done)%nat as [|n] eqn:Hn; [lia|done].
  - intros c1 e Hb. by rewrite verify_cases_container, Hb.
Qed.

End container_verify.

(** C4, counterexample. A container whose first output states the value
    6 next to a commitment to 5, before an output whose commitments
    open: [verify] does not return [False], it raises
    "Invalid commitments", and the second output, which passes its own
    verification, has not been visited: its flag is still clear. *)
Lemma PSET_verify_failing_output :
  let run :=
    PSET.verify (engine := plain_secp256k1)
      (in_super := plain_input_base (io := compact_codec))
      (super := plain_container_base) miscommitted_container in
  snd run = Raise invalid_commitments ∧
  snd run ≠ Ok false ∧
  LOutputScope.verify (engine := plain_secp256k1) miscommitted_output =
    (miscommitted_output, Raise invalid_commitments) ∧
  PSET.outputs miscommitted_container !! 1%nat = Some committed_output ∧
  LOutputScope.verify (engine := plain_secp256k1) committed_output =
    (LOutputScope.set__verified true committed_output, Ok true) ∧
  LOutputScope.is_verified <$> PSET.outputs (fst run) !! 1%nat = Some false.
Proof. by repeat split. Qed.

(** C4, witness: a container whose input is not verified, for which
    [verify] returns [False] with every output flagged, and the
    container whose first output fails. *)
Lemma PSET_verify_conjunction_witness :
  (let c' :=
     PSET.set_outputs
       (map (LOutputScope.set__verified true)
          (PSET.outputs unverified_container)) unverified_container in
   PSET.verify (engine := plain_secp256k1)
     (in_super := plain_input_base (io := compact_codec))
     (super := plain_container_base) unverified_container = (c', Ok false) ∧
   Forall (fun out => LOutputScope.is_verified out = true)
     (PSET.outputs c')) ∧
  PSET.verify (engine := plain_secp256k1)
    (in_super := plain_input_base (io := compact_codec))
    (super := plain_container_base) miscommitted_container =
    (miscommitted_container, Raise invalid_commitments).
Proof.
  split.
  - refine (proj1 (proj2 (proj2 (PSET_verify_conjunction
      (engine := plain_secp256k1)
      (in_super := plain_input_base (io := compact_codec))
      (super := plain_container_base) unverified_container)))
      unverified_container eq_refl _).
    by repeat constructor.
  - refine (proj1 (proj1 (proj2 (proj2 (proj2 (PSET_verify_conjunction
      (engine := plain_secp256k1)
      (in_super := plain_input_base (io := compact_codec))
      (super := plain_container_base) miscommitted_container))))
      miscommitted_container [] miscommitted_output [committed_output]
      invalid_commitments eq_refl eq_refl _ eq_refl)).
    constructor.
Defined.

(** * The fee of a container *)

Section container_fee.
Context {super : PSET.base}.
Import PSET.

Lemma fee_fold (outs : list LTransactionOutput.t) (acc : Z) :
  Forall fee_convention outs →
  foldl (fun (acc : result Z) out =>
           fee ← acc;
           script ← match LTransactionOutput.script_pubkey out with
                    | Some script => Ok script
                    | None => Raise AttributeError
                    end;
           if bool_decide (data script = []) then
             match LTransactionOutput.value out with
             | PyInt value => Ok (fee + value)
             | _ => Raise TypeError
             end
           else Ok fee) (Ok acc) outs =
  Ok (acc + sum_of_fee_outputs outs).
Proof.
  intros Hall. revert acc.
  induction Hall as [|out outs (script & Hs & Hv) _ IH]; intros acc; simpl.
  - unfold sum_of_fee_outputs. simpl. f_equal. lia.
  - unfold sum_of_fee_outputs in *. simpl. unfold has_empty_script at 1.
    rewrite Hs. run. case_bool_decide as He; simpl.
    + destruct (Hv He) as [v Hval]. unfold plaintext_value at 1.
      rewrite Hval, IH. apply f_equal. lia.
    + by rewrite IH.
Qed.

(** C7, as amended. When every output of the transaction carries a
    script, and a plaintext value if that script is empty, [fee] returns
    the sum of
    the values of the outputs whose script is empty, and 0 when no
    output has an empty script. The container is left as it is. *)
Theorem PSET_fee_sum (c : t) :
  Forall fee_convention (LTransaction.vout (tx c)) →
  fee c = (c, Ok (sum_of_fee_outputs (LTransaction.vout (tx c)))) ∧
  (Forall (fun out => has_empty_script out = false)
     (LTransaction.vout (tx c)) →
   fee c = (c, Ok 0)).
Proof.
  intros Hall.
  assert (fee c = (c, Ok (sum_of_fee_outputs (LTransaction.vout (tx c)))))
    as Hfee.
  { unfold fee. run. by rewrite fee_fold. }
  split; [done|]. intros Hnone. rewrite Hfee. do 2 f_equal.
  unfold sum_of_fee_outputs. clear Hall Hfee.
  induction Hnone as [|out outs Ho _ IH]; simpl; [done|].
  by rewrite Ho.
Qed.

End container_fee.

(** C7, counterexample. [fee] does not return the sum for every
    container. With a fee output that carries a value commitment in
    place of its value, the addition of the commitment to the integer
    raises a type error. With an output that has no script, reading the
    data of the script raises an attribute error, where no output has
    an empty script and 0 was to be returned. A fee output of value
    zero is handed on by [vout] without its value, and the addition
    raises a type error where the sum is 0. *)
Lemma PSET_fee_not_a_sum :
  let tx_of c := LTransaction.vout (PSET.tx (base := plain_container_base) c) in
  (map has_empty_script (tx_of blinded_fee_container) = [false; true] ∧
   map LTransactionOutput.value (tx_of blinded_fee_container) =
     [PyInt 7; PyBytes [x09]] ∧
   PSET.fee (super := plain_container_base) blinded_fee_container =
     (blinded_fee_container, Raise TypeError)) ∧
  (map LTransactionOutput.script_pubkey (tx_of no_script_container) =
     [None] ∧
   map has_empty_script (tx_of no_script_container) = [false] ∧
   PSET.fee (super := plain_container_base) no_script_container =
     (no_script_container, Raise AttributeError)) ∧
  (map has_empty_script (tx_of zero_fee_container) = [false; true] ∧
   map LOutputScope.value (PSET.outputs zero_fee_container) =
     [Some 7; Some 0] ∧
   map LTransactionOutput.value (tx_of zero_fee_container) =
     [PyInt 7; PyNone] ∧
   sum_of_fee_outputs (tx_of zero_fee_container) = 0 ∧
   PSET.fee (super := plain_container_base) zero_fee_container =
     (zero_fee_container, Raise TypeError)).
Proof. by repeat split. Qed.

(** C7, witness: a container with an ordinary output and a fee of 5. *)
Lemma PSET_fee_sum_witness :
  PSET.fee (super := plain_container_base) unblinded_container =
  (unblinded_container, Ok 5).
Proof.
  refine (proj1 (PSET_fee_sum (super := plain_container_base)
    unblinded_container _)).
  repeat constructor; eexists; (split; [reflexivity|]); simpl;
    intros; try done; by eexists.
Defined.

(** * Blinding a container with nothing to blind *)

Section container_blind.
Context {engine : secp256k1} {lib : bitcoin}.
Import PSET.

Lemma comprehension_state {S X Y} (f : X → method S Y) (xs : list X) (s : S) :
  (∀ x s', fst (f x s') = s') → fst (comprehension f xs s) = s.
Proof.
  intros Hf. induction xs as [|x xs IH]; simpl; [done|].
  run. specialize (Hf x s). destruct (f x s) as [s' [y|e]]; simpl in *; subst;
    [|done].
  destruct (comprehension f xs s) as [s'' [ys|e]]; simpl in *; by subst.
Qed.

Lemma comprehension_ok {S X Y} (f : X → method S Y) (xs : list X) :
  Forall (fun x => ∃ y, ∀ s, f x s = (s, Ok y)) xs →
  ∃ ys, ∀ s, comprehension f xs s = (s, Ok ys).
Proof.
  induction 1 as [|x xs [y Hy] _ [ys IH]]; simpl; [by exists []|].
  exists (y :: ys). intros s. run. by rewrite Hy, IH.
Qed.

Lemma comprehension_skip {S X Y} (f : X → method S (list Y)) (xs : list X)
    (s : S) :
  Forall (fun x => f x s = (s, Ok [])) xs →
  ∃ chosen, concat chosen = [] ∧ comprehension f xs s = (s, Ok chosen).
Proof.
  induction 1 as [|x xs Hx _ (chosen & Hc & IH)]; simpl; [by exists []|].
  exists ([] :: chosen). split; [done|].
  cbv [mbind method_bind mret method_ret]. by rewrite Hx, IH.
Qed.

Lemma txseed_state (seed : bytes) (c : t) : fst (txseed seed c) = c.
Proof.
  unfold txseed. run. case_bool_decide; [|done].
  match goal with
  | |- context [comprehension ?f (inputs c) c] =>
      pose proof (comprehension_state f (inputs c) c) as H1
  end.
  match type of H1 with
  | _ → fst ?x = _ => destruct x as [c1 [l1|e1]]
  end; simpl in *.
  all: rewrite H1 by (intros x s'; cases).
  2: done.
  match goal with
  | |- context [comprehension ?f (outputs c) c] =>
      pose proof (comprehension_state f (outputs c) c) as H2
  end.
  match type of H2 with
  | _ → fst ?x = _ => destruct x as [c2 [l2|e2]]
  end; simpl in *.
  all: rewrite H2 by (intros x s'; cases).
  all: done.
Qed.

Lemma txseed_ok (seed : bytes) (c : t) :
  length seed = 32%nat →
  Forall has_outpoint (inputs c) →
  Forall has_script (outputs c) →
  ∃ s, txseed seed c = (c, Ok s).
Proof.
  intros Hlen Hin Hout. unfold txseed. run.
  rewrite bool_decide_eq_true_2 by done.
  match goal with
  | |- context [comprehension ?f (inputs c) c] =>
      destruct (comprehension_ok f (inputs c)) as [ps Hps]
  end.
  { eapply Forall_impl; [exact Hin|].
    intros inp ([txid Ht] & vout & Hv & Hrange). simpl. rewrite Ht, Hv.
    eexists. intros s.
    by rewrite int_to_bytes_ok by (simpl; lia). }
  rewrite Hps.
  match goal with
  | |- context [comprehension ?f (outputs c) c] =>
      destruct (comprehension_ok f (outputs c)) as [ss Hss]
  end.
  { eapply Forall_impl; [exact Hout|]. intros out [script Hs]. simpl.
    rewrite Hs. by eexists. }
  rewrite Hss. eauto.
Qed.

Lemma assign_nothing (txs : bytes) (c : t) :
  Forall (fun out => ¬ needs_blinding out) (outputs c) →
  assign_blinding_factors txs c = (c, Ok []).
Proof.
  intros Hnone. unfold assign_blinding_factors, indices.
  unfold mbind at 1, method_bind at 1.
  unfold mbind at 1, method_bind at 1, get at 1.
  match goal with
  | |- context [comprehension ?f ?l c] =>
      destruct (comprehension_skip f l c) as (chosen & Hc & ->)
  end; [|by rewrite Hc].
  apply Forall_forall. intros i Hi. apply elem_of_seq in Hi.
  destruct (lookup_lt_is_Some_2 (outputs c) i) as [out Hout]; [lia|].
  assert (¬ needs_blinding out) as Hno.
  { rewrite Forall_forall in Hnone. apply Hnone.
    by eapply list_elem_of_lookup_2. }
  unfold needs_blinding in Hno.
  unfold mbind at 1, method_bind at 1, get at 1.
  unfold mbind at 1, method_bind at 1, item at 1. rewrite Hout.
  unfold mret at 1, method_ret at 1.
  destruct (LOutputScope.blinding_pubkey out) eqn:Hb,
           (LOutputScope.value out) eqn:Hv; try done.
  destruct Hno. split; by eexists.
Qed.

Lemma blind_nothing (seed : bytes) (c : t) :
  Forall (fun out => ¬ needs_blinding out) (outputs c) →
  blind seed c =
  match txseed seed c with
  | (_, Ok _) => (c, Raise nothing_to_blind)
  | (_, Raise e) => (c, Raise e)
  end.
Proof.
  intros Hnone. unfold blind. unfold mbind at 1, method_bind at 1.
  pose proof (txseed_state seed c) as Hs.
  destruct (txseed seed c) as [c' [s|e]]; simpl in Hs; subst c'; [|done].
  unfold mbind at 1, method_bind at 1.
  by rewrite assign_nothing.
Qed.

(** C5, as amended. In a container where no output has both a blinding
    public key and a known value, [blind] raises and leaves every input
    and output as it is. The error is the failed assertion of [txseed]
    for a seed that is not 32 bytes long, and "Nothing to blind" for a
    seed of 32 bytes when every input has a txid and a vout that fits
    four bytes and every output has a script. *)
Theorem PSET_blind_nothing_to_blind (seed : bytes) (c : t) :
  Forall (fun out => ¬ needs_blinding out) (outputs c) →
  (∃ e, blind seed c = (c, Raise e)) ∧
  (length seed ≠ 32%nat → blind seed c = (c, Raise AssertionError)) ∧
  (length seed = 32%nat →
   Forall has_outpoint (inputs c) →
   Forall has_script (outputs c) →
   blind seed c = (c, Raise nothing_to_blind)).
Proof.
  intros Hnone. rewrite blind_nothing by done. split; [|split].
  - destruct (txseed seed c) as [c' [s|e]]; eauto.
  - intros Hlen. unfold txseed. run. by rewrite bool_decide_eq_false_2.
  - intros Hlen Hin Hout.
    destruct (txseed_ok seed c Hlen Hin Hout) as [s ->]. done.
Qed.

End container_blind.

(** C5, counterexample. With an empty seed, [blind] on a container with
    nothing to blind fails the assertion of [txseed] instead of raising
    "Nothing to blind". *)
Lemma PSET_blind_short_seed :
  Forall (fun out => ¬ needs_blinding out) (PSET.outputs unblinded_container) ∧
  PSET.blind (engine := plain_secp256k1) (lib := plain_bitcoin) []
    unblinded_container = (unblinded_container, Raise AssertionError) ∧
  PSET.blind (engine := plain_secp256k1) (lib := plain_bitcoin) []
    unblinded_container ≠ (unblinded_container, Raise nothing_to_blind).
Proof.
  split; [|by split].
  repeat constructor; by intros [[? [=]] _].
Qed.

(** C5, witness: a seed of 32 bytes and a container without blinding
    public keys. *)
Lemma PSET_blind_nothing_to_blind_witness :
  PSET.blind (engine := plain_secp256k1) (lib := plain_bitcoin)
    (replicate 32 x00) unblinded_container =
  (unblinded_container, Raise nothing_to_blind).
Proof.
  refine (proj2 (proj2 (PSET_blind_nothing_to_blind
    (engine := plain_secp256k1) (lib := plain_bitcoin) (replicate 32 x00)
    unblinded_container _)) eq_refl _ _).
  - repeat constructor; by intros [[? [=]] _].
  - repeat constructor; [by eexists|]. exists 0. split; [done|]. lia.
  - repeat constructor; by eexists.
Defined.

(** * Record keys *)

Section record_keys.
Context {io : codec}.

Lemma startswith_app (p s : bytes) : startswith p (p ++ s) = true.
Proof.
  induction p as [|x p IH]; simpl; [done|].
  by rewrite bool_decide_eq_true_2, IH.
Qed.

Lemma bytes_in_app (p pre post : bytes) : bytes_in p (pre ++ p ++ post) = true.
Proof.
  induction pre as [|x pre IH]; simpl.
  - destruct (p ++ post) eqn:E; simpl; rewrite <- E, startswith_app; done.
  - rewrite IH. apply orb_true_r.
Qed.

Lemma confidential_key_routed (k : bytes) :
  confidential_key k →
  negb (bytes_in elements_prefix k) && negb (bytes_in pset_prefix k) = false.
Proof.
  intros (pre & post & [-> | ->]); rewrite bytes_in_app; simpl; [done|].
  apply andb_false_r.
Qed.

Lemma read_string_ok {S} (self : S) (stream v rest : bytes) :
  read_string_bytes stream = Ok (v, rest) →
  read_string (self, stream) = ((self, rest), Ok v).
Proof. intros H. unfold read_string. by rewrite H. Qed.

(** A value stored among the unknown fields is found there, and
    nothing else of the record has changed. *)
Lemma input_set_unknown_kept (k v : bytes) (r : LInputScope.t) :
  input_kept_unknown k v r
    (LInputScope.set_unknown (<[k:=v]> (LInputScope.unknown r)) r).
Proof.
  split; [apply lookup_insert_eq|].
  split; [intros k' Hk; by apply lookup_insert_ne|]. by repeat split.
Qed.

Lemma output_set_unknown_kept (k v : bytes) (r : LOutputScope.t) :
  output_kept_unknown k v r
    (LOutputScope.set_unknown (<[k:=v]> (LOutputScope.unknown r)) r).
Proof.
  split; [apply lookup_insert_eq|].
  split; [intros k' Hk; by apply lookup_insert_ne|]. by repeat split.
Qed.

(** C10. A key in which one of the two prefixes occurs at any offset is
    never handed to the base record: [read_value] does the same
    whatever the base record would do with it. When such a key is none
    of the keys the record compares with, its value is read and stored
    under the whole key among the unknown fields: looking the key up
    in the unknown fields of the resulting record gives the value read,
    every other key is found as before, and no other field of the
    record has changed. This holds for input and output records
    alike. *)
Theorem read_value_confidential_key (k : bytes) :
  confidential_key k →
  (∀ (super super' : LInputScope.base) st,
     LInputScope.read_value (super := super) k st =
     LInputScope.read_value (super := super') k st) ∧
  (∀ (super super' : LOutputScope.base) st,
     LOutputScope.read_value (super := super) k st =
     LOutputScope.read_value (super := super') k st) ∧
  (∀ (super : LInputScope.base) self stream v rest,
     k ∉ input_keys →
     read_string_bytes stream = Ok (v, rest) →
     LInputScope.read_value k (self, stream) =
     ((LInputScope.set_unknown (<[k:=v]> (LInputScope.unknown self)) self,
       rest), Ok tt) ∧
     input_kept_unknown k v self
       (fst (fst (LInputScope.read_value k (self, stream))))) ∧
  (∀ (super : LOutputScope.base) self stream v rest,
     k ∉ output_keys →
     read_string_bytes stream = Ok (v, rest) →
     LOutputScope.read_value k (self, stream) =
     ((LOutputScope.set_unknown (<[k:=v]> (LOutputScope.unknown self)) self,
       rest), Ok tt) ∧
     output_kept_unknown k v self
       (fst (fst (LOutputScope.read_value k (self, stream))))).
Proof.
  intros Hk. apply confidential_key_routed in Hk.
  split; [|split; [|split]].
  - intros super super' st. unfold LInputScope.read_value. by rewrite Hk.
  - intros super super' st. unfold LOutputScope.read_value. by rewrite Hk.
  - intros super self stream v rest Hnot Hread.
    unfold LInputScope.read_value. rewrite Hk.
    unfold input_keys in Hnot. rewrite !not_elem_of_cons in Hnot.
    destruct Hnot as (? & ? & ? & ? & ? & _).
    rewrite !bool_decide_eq_false_2 by done.
    unfold mbind, method_bind. rewrite (read_string_ok _ _ _ _ Hread).
    split; [done|]. apply input_set_unknown_kept.
  - intros super self stream v rest Hnot Hread.
    unfold LOutputScope.read_value. rewrite Hk.
    unfold output_keys in Hnot. rewrite !not_elem_of_cons in Hnot.
    destruct_and!.
    rewrite !bool_decide_eq_false_2
      by (rewrite ?not_elem_of_cons, ?not_elem_of_nil; done).
    unfold mbind, method_bind. rewrite (read_string_ok _ _ _ _ Hread).
    split; [done|]. apply output_set_unknown_kept.
Qed.

(** C6, as amended. On an output record the legacy key of subtype 00
    stores the value that follows as the value commitment, and the one
    of subtype 02 as the asset commitment. On an input record the same
    keys carry the plaintext: subtype 00 is decoded as a little-endian
    integer into the value, and subtype 02 is stored as the asset. *)
Theorem read_value_legacy_subtypes (stream v rest : bytes) :
  read_string_bytes stream = Ok (v, rest) →
  (∀ (super : LOutputScope.base) (self : LOutputScope.t),
     LOutputScope.read_value (elements_key x00) (self, stream) =
       ((LOutputScope.set_value_commitment (Some v) self, rest), Ok tt) ∧
     LOutputScope.read_value (elements_key x02) (self, stream) =
       ((LOutputScope.set_asset_commitment (Some v) self, rest), Ok tt)) ∧
  (∀ (super : LInputScope.base) (self : LInputScope.t),
     LInputScope.read_value (elements_key x00) (self, stream) =
       ((LInputScope.set_value (Some (int_from_bytes v)) self, rest), Ok tt) ∧
     LInputScope.read_value (elements_key x02) (self, stream) =
       ((LInputScope.set_asset (Some v) self, rest), Ok tt)).
Proof.
  intros Hread. split; intros super self; split;
    unfold LOutputScope.read_value, LInputScope.read_value;
    decide_keys; cbv [mbind method_bind];
    by rewrite (read_string_ok _ _ _ _ Hread).
Qed.

End record_keys.

(** C10, witness: a key with the prefix at offset one, found among the
    unknown fields after the read. *)
Lemma read_value_confidential_key_witness :
  let parsed :=
    LOutputScope.read_value (io := compact_codec)
      (super := plain_output_base (io := compact_codec))
      nested_key (blank_output false, [x01; x2a]) in
  parsed =
    ((LOutputScope.set_unknown (<[nested_key := [x2a]]> ∅)
        (blank_output false), []), Ok tt) ∧
  output_kept_unknown nested_key [x2a] (blank_output false)
    (fst (fst parsed)).
Proof.
  refine (proj2 (proj2 (proj2 (read_value_confidential_key
    (io := compact_codec) nested_key _)))
    (plain_output_base (io := compact_codec)) (blank_output false)
    [x01; x2a] [x2a] [] _ eq_refl).
  - exists [x0a], [x01]. by right.
  - apply (bool_decide_unpack _). by vm_compute.
Defined.

(** C6, counterexample. Reading the legacy key of subtype 00 with the
    one-byte value [2a] into an input record stores the integer 42 as
    its value: the bytes are kept in no field of the record, as a
    commitment or otherwise. *)
Lemma LInputScope_read_value_legacy_value :
  let parsed :=
    LInputScope.read_value (io := compact_codec)
      (super := plain_input_base (io := compact_codec))
      (elements_key x00) (blank_input false, [x01; x2a]) in
  parsed = ((LInputScope.set_value (Some 42) (blank_input false), []), Ok tt) ∧
  LInputScope.value (fst (fst parsed)) = Some 42 ∧
  LInputScope.value_blinding_factor (fst (fst parsed)) = None ∧
  LInputScope.asset (fst (fst parsed)) = None ∧
  LInputScope.asset_blinding_factor (fst (fst parsed)) = None ∧
  LInputScope.range_proof (fst (fst parsed)) = None ∧
  LInputScope.utxo (fst (fst parsed)) = None ∧
  LInputScope.unknown (fst (fst parsed)) = ∅.
Proof. by repeat split. Qed.

(** C6, witness: the same record read into an output. *)
Lemma read_value_legacy_subtypes_witness :
  LOutputScope.read_value (io := compact_codec)
    (super := plain_output_base (io := compact_codec))
    (elements_key x00) (blank_output false, [x01; x2a]) =
  ((LOutputScope.set_value_commitment (Some [x2a]) (blank_output false), []),
   Ok tt).
Proof.
  exact (proj1 (proj1 (read_value_legacy_subtypes (io := compact_codec)
    [x01; x2a] [x2a] [] eq_refl) (plain_output_base (io := compact_codec))
    (blank_output false))).
Defined.

(** * The wire format *)

Section record_loop.
Context {io : codec}.

Lemma read_string_ser {S} (laws : codec_laws io) (self : S) (v rest : bytes) :
  fits v →
  read_string (self, ser_string_bytes v ++ rest) = ((self, rest), Ok v).
Proof. intros Hv. unfold read_string. by rewrite (read_ser laws). Qed.

Lemma skip_string_ser {S} (laws : codec_laws io) (self : S) (v rest : bytes) :
  fits v →
  skip_string (self, ser_string_bytes v ++ rest) = ((self, rest), Ok tt).
Proof. intros Hv. unfold skip_string. by rewrite (skip_ser laws). Qed.

Lemma read_scope_records {S F} (laws : codec_laws io)
    (read : bytes → method (S * bytes) unit) (key : F → bytes)
    (store : F → bytes → S → S) (fields : list (F * bytes)) :
  (∀ f, key f ≠ [] ∧ fits (key f)) →
  (∀ f v r rest,
     fits v →
     read (key f) (r, ser_string_bytes v ++ rest) =
     ((store f v r, rest), Ok tt)) →
  Forall (fun '(f, v) => fits v) fields →
  ∀ fuel r rest,
    (length fields < fuel)%nat →
    read_scope read fuel
      (r, flat_map (fun '(f, v) => wire_record (key f) v) fields ++
          x00 :: rest) =
    Some ((foldl (fun acc '(f, v) => store f v acc) r fields, rest), Ok tt).
Proof.
  intros Hkey Hread Hfits.
  induction Hfits as [|[f v] fields Hv _ IH]; intros fuel r rest Hfuel;
    (destruct fuel as [|fuel]; [simpl in Hfuel; lia|]);
    cbn [read_scope flat_map].
  - unfold read_string. simpl. by rewrite (read_separator laws).
  - destruct (Hkey f) as [Hne Hk]. unfold wire_record.
    rewrite <- !app_assoc, read_string_ser by done.
    rewrite bool_decide_eq_false_2 by done.
    rewrite Hread by done. apply IH. simpl in Hfuel. lia.
Qed.

Lemma write_separator_emit (skip : bool) (r : Z) (stream : bytes) :
  (if negb skip then n ← stream_write [x00]; mret (r + n) else mret r) stream =
  emit (if skip then [] else [x00]) r stream.
Proof.
  unfold emit. destruct skip; run; [|done].
  apply emitted_eq; [by rewrite app_nil_r|lia].
Qed.

End record_loop.

(** ** Output records *)

Section output_wire.
Context {io : codec} {super : LOutputScope.base}.
Import LOutputScope.

Lemma write_field_emit (key : bytes) (x : option bytes) (r : Z)
    (stream : bytes) :
  write_field key x r stream = emit (optional_record key x) r stream.
Proof.
  unfold write_field, optional_record, wire_record, ser_string, emit.
  destruct x as [v|]; run.
  - apply emitted_eq; [by rewrite <- app_assoc|rewrite length_app; lia].
  - apply emitted_eq; [by rewrite app_nil_r|simpl; lia].
Qed.

Lemma write_asset_emit (version : option Z) (r : t) (n : Z)
    (stream : bytes) :
  (if is_v2 version then write_field (pset_key x02) (asset r) n else mret n)
    stream =
  emit (if is_v2 version then optional_record (pset_key x02) (asset r)
        else []) n stream.
Proof.
  destruct (is_v2 version); [apply write_field_emit|].
  unfold emit. run. apply emitted_eq; [by rewrite app_nil_r|lia].
Qed.

Lemma write_blinder_index_emit (r : t) (n : Z) (stream : bytes) :
  (∀ i, blinder_index r = Some i → 0 ≤ i < 2 ^ 32) →
  match blinder_index r with
  | Some index =>
      n' ← ser_string (pset_key x08);
      v ← lift (int_to_bytes index 4);
      m ← ser_string v;
      mret (n + n' + m)
  | None => mret n
  end stream =
  emit (optional_record (pset_key x08) (little_endian 4 <$> blinder_index r))
    n stream.
Proof.
  intros Hindex. unfold emit.
  destruct (blinder_index r) as [i|]; simpl.
  - unfold ser_string, wire_record. run.
    rewrite int_to_bytes_ok by (specialize (Hindex i eq_refl); simpl; lia).
    apply emitted_eq; [by rewrite <- app_assoc|rewrite length_app; simpl; lia].
  - run. apply emitted_eq; [by rewrite app_nil_r|lia].
Qed.

Lemma output_wire_fields (version : option Z) (r : t) :
  output_wire version (serialized_fields version r) =
  flat_map (fun f =>
              if output_field_serialized version f
              then optional_record (output_field_key version f)
                     (output_field_value r f)
              else []) write_order.
Proof.
  unfold output_wire, serialized_fields, present_fields.
  rewrite flat_map_filter_omap. apply flat_map_ext. intros f.
  destruct (output_field_value r f); simpl;
    by destruct (output_field_serialized version f).
Qed.

Lemma write_to_run (r : t) (skip : bool) (version : option Z)
    (stream stream' : bytes) (n : Z) :
  base_write_to r true version stream = (stream', Ok n) →
  (∀ i, blinder_index r = Some i → 0 ≤ i < 2 ^ 32) →
  let wire := output_wire version (serialized_fields version r) ++
              (if skip then [] else [x00]) in
  write_to r skip version stream =
  (stream' ++ wire, Ok (n + Z.of_nat (length wire))).
Proof.
  intros Hbase Hindex wire. subst wire. rewrite output_wire_fields.
  unfold write_to. unfold mbind at 1, method_bind at 1. rewrite Hbase.
  emit_with write_asset_emit.
  do 8 emit_with write_field_emit.
  unfold mbind at 1, method_bind at 1.
  rewrite write_blinder_index_emit by done. unfold emit at 1.
  rewrite write_separator_emit. unfold emit, versioned_key.
  cbn [flat_map write_order output_field_serialized output_field_value
       output_field_key].
  apply emitted_eq; [by rewrite app_nil_r, <- !app_assoc|].
  rewrite app_nil_r, !length_app. lia.
Qed.

Lemma output_field_key_ok (version : option Z) (f : output_field) :
  output_field_key version f ≠ [] ∧ fits (output_field_key version f).
Proof.
  unfold output_field_key, fits.
  destruct f, (is_v2 version); split; try done; simpl; lia.
Qed.

Lemma output_read_field (laws : codec_laws io) (version : option Z)
    (f : output_field) (v rest : bytes) (r : t) :
  fits v →
  read_value (output_field_key version f)
    (r, ser_string_bytes v ++ rest) =
  ((output_field_read f v r, rest), Ok tt).
Proof.
  intros Hv. unfold read_value, output_field_key, output_field_read.
  destruct f, (is_v2 version); decide_keys;
    cbv [mbind method_bind self_of];
    try (destruct (compress r); [by rewrite skip_string_ser|]);
    by rewrite read_string_ser.
Qed.

Lemma output_merge_step (version : option Z) (r : t) (f : output_field)
    (acc : t) :
  (∀ i, blinder_index r = Some i → 0 ≤ i < 2 ^ 32) →
  match (fun v => (f, v)) <$> output_field_value r f with
  | Some y =>
      if (fun '(f, _) => output_field_serialized version f) y
      then (fun acc '(f, v) => output_field_read f v acc) acc y
      else acc
  | None => acc
  end = output_field_merge version r f acc.
Proof.
  intros Hindex. destruct acc.
  destruct f; unfold output_field_merge, output_field_value,
    output_field_serialized, output_field_read.
  10: { destruct (blinder_index r) as [i|] eqn:Hi;
          cbn [fmap option_fmap option_map overlay]; [|done].
        by rewrite int_from_little_endian
          by (specialize (Hindex i eq_refl); simpl; lia). }
  all: simpl;
    match goal with |- context [_ <$> ?x] => destruct x end; simpl;
    repeat case_match; done.
Qed.

Lemma reread_output_fold (version : option Z) (r r0 : t) :
  (∀ i, blinder_index r = Some i → 0 ≤ i < 2 ^ 32) →
  foldl (fun acc '(f, v) => output_field_read f v acc) r0
    (serialized_fields version r) =
  reread_output version r r0.
Proof.
  intros Hindex. unfold serialized_fields, present_fields.
  rewrite foldl_filter_omap.
  rewrite (foldl_pointwise _
             (fun acc f => output_field_merge version r f acc))
    by (intros acc f; by apply output_merge_step).
  destruct r0 as [vc vbf ac abf rp sp ecdh bpk a bi ve va sc un co].
  unfold reread_output. cbn [foldl write_order]. unfold output_field_merge.
  destruct (is_v2 version), co; reflexivity.
Qed.

Lemma serialized_fields_spec (version : option Z) (r : t) :
  Forall (fun '(f, v) => output_field_value r f = Some v ∧
                         output_field_serialized version f = true)
    (serialized_fields version r) ∧
  (length (serialized_fields version r) ≤ length write_order)%nat.
Proof.
  unfold serialized_fields, present_fields.
  match goal with
  | |- context [List.filter ?p (omap ?h ?l)] =>
      destruct (filter_omap_spec p h l) as [H1 H2]
  end.
  split; [|done]. eapply Forall_impl; [exact H1|].
  intros [f v] (f' & _ & Hf & Hp).
  destruct (output_field_value r f') as [v'|] eqn:Hv; simpl in Hf; [|done].
  by simplify_eq.
Qed.

Lemma present_fields_spec (r : t) :
  Forall (fun '(f, v) => output_field_value r f = Some v) (present_fields r).
Proof.
  pose proof (serialized_fields_spec (Some 2) r) as [H _].
  unfold serialized_fields in H. rewrite filter_all in H.
  - eapply Forall_impl; [exact H|]. by intros [f v] [? _].
  - apply Forall_forall. by intros [[] v] _.
Qed.

Lemma serialized_fields_all (version : option Z) (r : t) :
  is_v2 version = true ∨ asset r = None →
  serialized_fields version r = present_fields r.
Proof.
  intros Hor. unfold serialized_fields. apply filter_all.
  eapply Forall_impl; [apply present_fields_spec|].
  intros [f v] Hv. destruct f; try done. simpl in *.
  destruct Hor as [->|Ha]; [done|]. congruence.
Qed.

Lemma serialized_fields_split (version : option Z) (r : t) :
  ∃ before after,
    serialized_fields version r = before ++ after ∧
    Forall (fun e => fst e ∈ fields_before_proofs) before ∧
    Forall (fun e => fst e ∈ fields_from_proofs) after.
Proof.
  unfold serialized_fields, present_fields.
  change write_order with (fields_before_proofs ++ fields_from_proofs).
  rewrite filter_omap_app. eexists _, _. split; [done|].
  split;
    match goal with
    | |- Forall _ (List.filter ?p (omap ?h ?l)) =>
        destruct (filter_omap_spec p h l) as [H _];
        eapply Forall_impl; [exact H|]
    end;
    intros [f v] (f' & Hin & Hf & _); simpl;
    destruct (output_field_value r f'); simpl in Hf; by simplify_eq.
Qed.

Lemma output_round_trip (laws : codec_laws io) (r : LOutputScope.t)
    (version : option Z) (base_bytes : bytes) (n : Z) :
  output_serializable r →
  LOutputScope.base_write_to r true version [] = (base_bytes, Ok n) →
  let wire := output_wire version (serialized_fields version r) in
  LOutputScope.write_to r false version [] =
    (base_bytes ++ wire ++ [x00], Ok (n + Z.of_nat (length wire) + 1)) ∧
  ∀ r0 rest fuel,
    (length write_order < fuel)%nat →
    read_scope LOutputScope.read_value fuel (r0, wire ++ x00 :: rest) =
    Some ((reread_output version r r0, rest), Ok tt).
Proof.
  intros [Hfits Hindex] Hbase wire. subst wire. split.
  - rewrite (write_to_run r false version [] base_bytes n) by done.
    apply emitted_eq; [done|]. rewrite length_app. simpl. lia.
  - intros r0 rest fuel Hfuel.
    destruct (serialized_fields_spec version r) as [Hspec Hlen].
    unfold output_wire.
    rewrite (read_scope_records laws LOutputScope.read_value
               (output_field_key version) output_field_read).
    + by rewrite reread_output_fold.
    + apply output_field_key_ok.
    + intros. by apply output_read_field.
    + eapply Forall_impl; [exact Hspec|]. intros [f v] [Hv _]. eauto.
    + lia.
Qed.

(** C8, as amended. After what the base record writes, [write_to]
    writes one key-value record for each liquid field that is set, in
    the order asset, value commitment, value blinding factor, asset
    commitment, asset blinding factor, blinding pubkey, ECDH pubkey,
    range proof, surjection proof, blinder index, then the separator
    unless it is skipped, and returns the number of bytes written. The
    plaintext asset is left out unless the version is 2; under version 2,
    or without an asset, every field that is set is written. The range
    proof and the surjection proof come after the blinding and ECDH
    pubkeys. *)
Theorem LOutputScope_write_to_order (r : t) (skip : bool)
    (version : option Z) (stream stream' : bytes) (n : Z) :
  base_write_to r true version stream = (stream', Ok n) →
  (∀ i, blinder_index r = Some i → 0 ≤ i < 2 ^ 32) →
  let fields := serialized_fields version r in
  let wire := output_wire version fields ++ (if skip then [] else [x00]) in
  write_to r skip version stream =
    (stream' ++ wire, Ok (n + Z.of_nat (length wire))) ∧
  fields = List.filter (fun '(f, _) => output_field_serialized version f)
             (present_fields r) ∧
  (is_v2 version = true ∨ asset r = None → fields = present_fields r) ∧
  ∃ before after,
    fields = before ++ after ∧
    Forall (fun e => fst e ∈ fields_before_proofs) before ∧
    Forall (fun e => fst e ∈ fields_from_proofs) after.
Proof.
  intros Hbase Hindex fields wire. subst fields wire.
  split; [by apply write_to_run|]. split; [done|].
  split; [apply serialized_fields_all|apply serialized_fields_split].
Qed.

End output_wire.

(** C8, counterexample. An output that only has an asset, written under
    the legacy version: the asset is present, and nothing but the
    separator is written. *)
Lemma LOutputScope_write_to_legacy_asset :
  present_fields asset_only_output = [(Asset, [x01])] ∧
  LOutputScope.write_to (io := compact_codec)
    (super := plain_output_base (io := compact_codec))
    asset_only_output false None [] = ([x00], Ok 1) ∧
  output_wire (io := compact_codec) None (present_fields asset_only_output)
    ++ [x00] =
    [x07; xfc; x04; x70; x73; x65; x74; x02; x01; x01; x00].
Proof. by repeat split. Qed.

(** C8, witness: an output with every field set, under version 2. *)
Lemma LOutputScope_write_to_order_witness :
  (let wire := output_wire (io := compact_codec) (Some 2)
                 (serialized_fields (Some 2) full_output) ++ [x00] in
   LOutputScope.write_to (io := compact_codec)
     (super := plain_output_base (io := compact_codec))
     full_output false (Some 2) [] =
   ([] ++ wire, Ok (0 + Z.of_nat (length wire)))) ∧
  map fst (serialized_fields (Some 2) full_output) = write_order.
Proof.
  split; [|reflexivity].
  refine (proj1 (LOutputScope_write_to_order (io := compact_codec)
    (super := plain_output_base (io := compact_codec))
    full_output false (Some 2) [] [] 0 eq_refl _)).
  intros i Hi. simpl in Hi. simplify_eq. lia.
Defined.

(** ** Input records *)

Section input_wire.
Context {io : codec} {super : LInputScope.base}.
Import LInputScope.

Lemma input_write_field_emit (key : bytes) (x : option bytes) (r : Z)
    (stream : bytes) :
  write_field key x r stream = emit (optional_record key x) r stream.
Proof.
  unfold write_field, optional_record, wire_record, ser_string, emit.
  destruct x as [v|]; run.
  - apply emitted_eq; [by rewrite <- app_assoc|rewrite length_app; lia].
  - apply emitted_eq; [by rewrite app_nil_r|simpl; lia].
Qed.

Lemma write_value_emit (r : t) (n : Z) (stream : bytes) :
  (∀ v, value r = Some v → 0 ≤ v < 2 ^ 64) →
  match value r with
  | Some value =>
      n' ← ser_string (elements_key x00);
      v ← lift (int_to_bytes value 8);
      m ← ser_string v;
      mret (n + n' + m)
  | None => mret n
  end stream =
  emit (optional_record (elements_key x00) (little_endian 8 <$> value r))
    n stream.
Proof.
  intros Hvalue. unfold emit.
  destruct (value r) as [v|]; simpl.
  - unfold ser_string, wire_record. run.
    rewrite int_to_bytes_ok by (specialize (Hvalue v eq_refl); simpl; lia).
    apply emitted_eq;
      [by rewrite <- app_assoc|rewrite length_app; simpl; lia].
  - run. apply emitted_eq; [by rewrite app_nil_r|lia].
Qed.

Lemma input_wire_fields (r : t) :
  input_wire (input_fields r) =
  flat_map (fun f => optional_record (input_field_key f)
                       (input_field_value r f)) input_order.
Proof.
  unfold input_wire, input_fields. rewrite flat_map_omap.
  apply flat_map_ext. intros f. by destruct (input_field_value r f).
Qed.

Lemma input_write_to_run (r : t) (skip : bool) (version : option Z)
    (stream stream' : bytes) (n : Z) :
  base_write_to r true version stream = (stream', Ok n) →
  (∀ v, value r = Some v → 0 ≤ v < 2 ^ 64) →
  let wire := input_wire (input_fields r) ++ (if skip then [] else [x00]) in
  write_to r skip version stream =
  (stream' ++ wire, Ok (n + Z.of_nat (length wire))).
Proof.
  intros Hbase Hvalue wire. subst wire. rewrite input_wire_fields.
  unfold write_to. unfold mbind at 1, method_bind at 1. rewrite Hbase.
  unfold mbind at 1, method_bind at 1.
  rewrite write_value_emit by done. unfold emit at 1.
  do 4 emit_with input_write_field_emit.
  rewrite write_separator_emit. unfold emit.
  cbn [flat_map input_order input_field_value input_field_key].
  apply emitted_eq; [by rewrite app_nil_r, <- !app_assoc|].
  rewrite app_nil_r, !length_app. lia.
Qed.

Lemma input_field_key_ok (f : input_field) :
  input_field_key f ≠ [] ∧ fits (input_field_key f).
Proof. unfold fits. destruct f; split; try done; simpl; lia. Qed.

Lemma input_read_field (laws : codec_laws io) (f : input_field)
    (v rest : bytes) (r : t) :
  fits v →
  read_value (input_field_key f) (r, ser_string_bytes v ++ rest) =
  ((input_field_read f v r, rest), Ok tt).
Proof.
  intros Hv. unfold read_value, input_field_key, input_field_read.
  destruct f; decide_keys; cbv [mbind method_bind self_of];
    try (destruct (compress r); [by rewrite skip_string_ser|]);
    by rewrite read_string_ser.
Qed.

Lemma input_merge_step (r : t) (f : input_field) (acc : t) :
  (∀ v, value r = Some v → 0 ≤ v < 2 ^ 64) →
  match (fun v => (f, v)) <$> input_field_value r f with
  | Some y => (fun acc '(f, v) => input_field_read f v acc) acc y
  | None => acc
  end = input_field_merge r f acc.
Proof.
  intros Hvalue. destruct acc.
  destruct f; unfold input_field_merge, input_field_value, input_field_read.
  1: { destruct (value r) as [v|] eqn:Hv;
         cbn [fmap option_fmap option_map overlay]; [|done].
       by rewrite int_from_little_endian
         by (specialize (Hvalue v eq_refl); simpl; lia). }
  all: simpl;
    match goal with |- context [_ <$> ?x] => destruct x end; simpl;
    repeat case_match; done.
Qed.

Lemma reread_input_fold (r r0 : t) :
  (∀ v, value r = Some v → 0 ≤ v < 2 ^ 64) →
  foldl (fun acc '(f, v) => input_field_read f v acc) r0 (input_fields r) =
  reread_input r r0.
Proof.
  intros Hvalue. unfold input_fields. rewrite foldl_omap.
  rewrite (foldl_pointwise _ (fun acc f => input_field_merge r f acc))
    by (intros acc f; by apply input_merge_step).
  destruct r0 as [va vbf a abf rp ut tx vo se un co].
  unfold reread_input. cbn [foldl input_order]. unfold input_field_merge.
  destruct co; reflexivity.
Qed.

Lemma input_fields_spec (r : LInputScope.t) :
  Forall (fun '(f, v) => input_field_value r f = Some v) (input_fields r) ∧
  (length (input_fields r) ≤ length input_order)%nat.
Proof.
  unfold input_fields.
  destruct (filter_omap_spec (fun _ => true)
              (fun f => (fun v => (f, v)) <$> input_field_value r f)
              input_order) as [H1 H2].
  rewrite filter_all in H1, H2 by (by apply Forall_forall).
  split; [|done]. eapply Forall_impl; [exact H1|].
  intros [f v] (f' & _ & Hf & _).
  destruct (input_field_value r f') as [v'|] eqn:Hv; simpl in Hf; [|done].
  by simplify_eq.
Qed.

Lemma input_round_trip (laws : codec_laws io) (r : LInputScope.t)
    (version : option Z) (base_bytes : bytes) (n : Z) :
  input_serializable r →
  LInputScope.base_write_to r true version [] = (base_bytes, Ok n) →
  let wire := input_wire (input_fields r) in
  LInputScope.write_to r false version [] =
    (base_bytes ++ wire ++ [x00], Ok (n + Z.of_nat (length wire) + 1)) ∧
  ∀ r0 rest fuel,
    (length input_order < fuel)%nat →
    read_scope LInputScope.read_value fuel (r0, wire ++ x00 :: rest) =
    Some ((reread_input r r0, rest), Ok tt).
Proof.
  intros [Hfits Hvalue] Hbase wire. subst wire. split.
  - rewrite (input_write_to_run r false version [] base_bytes n) by done.
    apply emitted_eq; [done|]. rewrite length_app. simpl. lia.
  - intros r0 rest fuel Hfuel.
    destruct (input_fields_spec r) as [Hspec Hlen].
    unfold input_wire.
    rewrite (read_scope_records laws LInputScope.read_value
               input_field_key input_field_read).
    + by rewrite reread_input_fold.
    + apply input_field_key_ok.
    + intros. by apply input_read_field.
    + eapply Forall_impl; [exact Hspec|]. intros [f v] Hv. eauto.
    + lia.
Qed.

End input_wire.

(** ** Writing and reading back *)

Section round_trip.
Context {io : codec} {in_super : LInputScope.base}
  {out_super : LOutputScope.base}.

(** C3, as amended. For a codec that reads back what it writes: the
    liquid records that [write_to] appends to the bytes of the base
    record, ended by the separator, are read back by the record loop,
    and every field that was written replaces the one of the record
    being filled in. Read into a blank record, this restores each
    liquid field of an output except the plaintext asset when the
    version is not 2, and each liquid field of an input; under the
    compress flag the range proof and the surjection proof stay absent,
    and without it they are restored. *)
Theorem scope_round_trip (laws : codec_laws io) :
  (∀ (r : LOutputScope.t) version base_bytes n,
     output_serializable r →
     LOutputScope.base_write_to r true version [] = (base_bytes, Ok n) →
     let wire := output_wire version (serialized_fields version r) in
     LOutputScope.write_to r false version [] =
       (base_bytes ++ wire ++ [x00], Ok (n + Z.of_nat (length wire) + 1)) ∧
     (∀ r0 rest fuel,
        (length write_order < fuel)%nat →
        read_scope LOutputScope.read_value fuel (r0, wire ++ x00 :: rest) =
        Some ((reread_output version r r0, rest), Ok tt)) ∧
     (base_bytes = [] →
      ∀ r0 fuel,
        (length write_order < fuel)%nat →
        read_scope LOutputScope.read_value fuel
          (r0, fst (LOutputScope.write_to r false version [])) =
        Some ((reread_output version r r0, []), Ok tt)) ∧
     ∀ compress,
       let parsed := reread_output version r (blank_output compress) in
       LOutputScope.value_commitment parsed = LOutputScope.value_commitment r ∧
       LOutputScope.value_blinding_factor parsed =
         LOutputScope.value_blinding_factor r ∧
       LOutputScope.asset_commitment parsed = LOutputScope.asset_commitment r ∧
       LOutputScope.asset_blinding_factor parsed =
         LOutputScope.asset_blinding_factor r ∧
       LOutputScope.blinding_pubkey parsed = LOutputScope.blinding_pubkey r ∧
       LOutputScope.ecdh_pubkey parsed = LOutputScope.ecdh_pubkey r ∧
       LOutputScope.blinder_index parsed = LOutputScope.blinder_index r ∧
       LOutputScope.asset parsed =
         (if LOutputScope.is_v2 version then LOutputScope.asset r else None) ∧
       LOutputScope.range_proof parsed =
         (if compress then None else LOutputScope.range_proof r) ∧
       LOutputScope.surjection_proof parsed =
         (if compress then None else LOutputScope.surjection_proof r)) ∧
  (∀ (r : LInputScope.t) version base_bytes n,
     input_serializable r →
     LInputScope.base_write_to r true version [] = (base_bytes, Ok n) →
     let wire := input_wire (input_fields r) in
     LInputScope.write_to r false version [] =
       (base_bytes ++ wire ++ [x00], Ok (n + Z.of_nat (length wire) + 1)) ∧
     (∀ r0 rest fuel,
        (length input_order < fuel)%nat →
        read_scope LInputScope.read_value fuel (r0, wire ++ x00 :: rest) =
        Some ((reread_input r r0, rest), Ok tt)) ∧
     (base_bytes = [] →
      ∀ r0 fuel,
        (length input_order < fuel)%nat →
        read_scope LInputScope.read_value fuel
          (r0, fst (LInputScope.write_to r false version [])) =
        Some ((reread_input r r0, []), Ok tt)) ∧
     ∀ compress,
       let parsed := reread_input r (blank_input compress) in
       LInputScope.value parsed = LInputScope.value r ∧
       LInputScope.value_blinding_factor parsed =
         LInputScope.value_blinding_factor r ∧
       LInputScope.asset parsed = LInputScope.asset r ∧
       LInputScope.asset_blinding_factor parsed =
         LInputScope.asset_blinding_factor r ∧
       LInputScope.range_proof parsed =
         (if compress then None else LInputScope.range_proof r)).
Proof.
  split.
  - intros r version base_bytes n Hr Hbase wire.
    destruct (output_round_trip laws r version base_bytes n Hr Hbase)
      as [Hw Hp].
    split; [done|]. split; [done|]. split.
    + intros -> r0 fuel Hfuel. rewrite Hw. by apply Hp.
    + intros compress parsed. subst parsed. unfold reread_output. simpl.
      rewrite !overlay_blank.
      by destruct compress, (LOutputScope.is_v2 version).
  - intros r version base_bytes n Hr Hbase wire.
    destruct (input_round_trip laws r version base_bytes n Hr Hbase)
      as [Hw Hp].
    split; [done|]. split; [done|]. split.
    + intros -> r0 fuel Hfuel. rewrite Hw. by apply Hp.
    + intros compress parsed. subst parsed. unfold reread_input. simpl.
      rewrite !overlay_blank. by destruct compress.
Qed.

End round_trip.

(** C3, counterexample. An output that only has an asset, written under
    the legacy version and read back: the bytes are the separator alone
    and the record read from them has no asset. *)
Lemma scope_round_trip_legacy_asset :
  LOutputScope.write_to (io := compact_codec)
    (super := plain_output_base (io := compact_codec))
    asset_only_output false None [] = ([x00], Ok 1) ∧
  read_scope (io := compact_codec)
    (LOutputScope.read_value (io := compact_codec)
       (super := plain_output_base (io := compact_codec)))
    2 (blank_output false, [x00]) =
    Some ((blank_output false, []), Ok tt) ∧
  LOutputScope.asset asset_only_output = Some [x01] ∧
  LOutputScope.asset (blank_output false) = None.
Proof. by repeat split. Qed.

Lemma full_output_serializable : output_serializable full_output.
Proof.
  split.
  - intros f v Hv. unfold fits.
    destruct f; simpl in Hv; simplify_eq; simpl; lia.
  - intros i Hi. simpl in Hi. simplify_eq. lia.
Defined.

Lemma full_input_serializable : input_serializable full_input.
Proof.
  split.
  - intros f v Hv. unfold fits.
    destruct f; simpl in Hv; simplify_eq; simpl; lia.
  - intros i Hi. simpl in Hi. simplify_eq. lia.
Defined.

(** C3, witness: an output with every field set, read back under the
    compress flag, and an input with every field set. *)
Lemma scope_round_trip_witness :
  read_scope (io := compact_codec)
    (LOutputScope.read_value (io := compact_codec)
       (super := plain_output_base (io := compact_codec)))
    11 (blank_output true,
        fst (LOutputScope.write_to (io := compact_codec)
               (super := plain_output_base (io := compact_codec))
               full_output false (Some 2) [])) =
  Some ((reread_output (Some 2) full_output (blank_output true), []),
        Ok tt) ∧
  read_scope (io := compact_codec)
    (LInputScope.read_value (io := compact_codec)
       (super := plain_input_base (io := compact_codec)))
    6 (blank_input false,
       fst (LInputScope.write_to (io := compact_codec)
              (super := plain_input_base (io := compact_codec))
              full_input false None [])) =
  Some ((reread_input full_input (blank_input false), []), Ok tt).
Proof.
  split.
  - refine (proj1 (proj2 (proj2 (proj1 (scope_round_trip (io := compact_codec)
      (in_super := plain_input_base (io := compact_codec))
      (out_super := plain_output_base (io := compact_codec))
      compact_codec_laws) full_output (Some 2) [] 0
      full_output_serializable eq_refl))) eq_refl (blank_output true)
      11%nat _).
    simpl. lia.
  - refine (proj1 (proj2 (proj2 (proj2 (scope_round_trip (io := compact_codec)
      (in_super := plain_input_base (io := compact_codec))
      (out_super := plain_output_base (io := compact_codec))
      compact_codec_laws) full_input None [] 0
      full_input_serializable eq_refl))) eq_refl (blank_input false)
      6%nat _).
    simpl. lia.
Defined.

(** * Further properties *)

(** ** More on integers and lists *)

Lemma int_to_bytes_overflow (z : Z) (n : nat) :
  ¬ (0 ≤ z < 256 ^ Z.of_nat n) → int_to_bytes z n = Raise OverflowError.
Proof.
  intros H. unfold int_to_bytes.
  destruct (Z.leb_spec 0 z), (Z.ltb_spec z (256 ^ Z.of_nat n)); simpl;
    try done.
  destruct H. lia.
Qed.

Lemma int_to_bytes_defined (z : Z) (n : nat) (b : bytes) :
  int_to_bytes z n = Ok b → 0 ≤ z < 256 ^ Z.of_nat n.
Proof.
  unfold int_to_bytes.
  destruct (Z.leb_spec 0 z), (Z.ltb_spec z (256 ^ Z.of_nat n)); simpl; done.
Qed.

Lemma int_to_bytes_value (z : Z) (n : nat) (b : bytes) :
  int_to_bytes z n = Ok b → b = little_endian n z.
Proof. unfold int_to_bytes. case_match; by intros [= <-]. Qed.

Lemma concat_filter {X} (p : X → bool) (xs : list X) (ys : list (list X)) :
  Forall2 (fun x y => y = if p x then [x] else []) xs ys →
  concat ys = List.filter p xs.
Proof.
  induction 1 as [|x y xs ys -> _ IH]; simpl; [done|].
  rewrite IH. by destruct (p x).
Qed.

Lemma map_pointwise {X Y Z} (g : Y → Z) (h : X → Z) (xs : list X)
    (ys : list Y) :
  Forall2 (fun x y => g y = h x) xs ys → map g ys = map h xs.
Proof.
  induction 1 as [|x y xs ys Hxy _ IH]; simpl; [done|]. by rewrite Hxy, IH.
Qed.

Lemma Forall2_In_l {X Y} (R R' : X → Y → Prop) (xs : list X) (ys : list Y) :
  Forall2 R xs ys → (∀ x y, In x xs → R x y → R' x y) → Forall2 R' xs ys.
Proof.
  induction 1 as [|x y xs ys Hxy _ IH]; intros Himp; constructor.
  - apply Himp; [by left|done].
  - apply IH. intros x' y' Hin. apply Himp. by right.
Qed.

Lemma collect_ext {X Y} (g : X → result Y) (xs xs' : list X) :
  Forall2 (fun x x' => g x = g x') xs xs' → collect g xs = collect g xs'.
Proof.
  induction 1 as [|x z xs zs Hx _ IH]; simpl; [done|]. by rewrite Hx, IH.
Qed.

Lemma collect_ok {X Y} (g : X → result Y) (xs : list X) (ys : list Y) :
  collect g xs = Ok ys ↔ Forall2 (fun x y => g x = Ok y) xs ys.
Proof.
  revert ys. induction xs as [|x xs IH]; intros ys; simpl.
  - split; [intros [= <-]; constructor|by inversion 1].
  - destruct (g x) as [y|e] eqn:Hx; simpl.
    + destruct (collect g xs) as [l|e] eqn:Hxs; simpl.
      * split.
        -- intros [= <-]. constructor; [done|]. by apply IH.
        -- inversion 1 as [|? y' ? l' Hy Hl]; subst.
           apply IH in Hl. congruence.
      * split; [done|]. inversion 1 as [|? y' ? l' Hy Hl]; subst.
        apply IH in Hl. congruence.
    + split; [done|]. inversion 1; congruence.
Qed.

(** ** Verifying an output again *)

Section output_verify_again.
Context {engine : secp256k1}.
Import LOutputScope.

Lemma verify_ignores_flag (b : bool) (r : t) :
  verify (set__verified b r) = verify r.
Proof. by destruct r. Qed.

(** X1. The outcome of [verify] depends on the asset, the value, their
    commitments and blinding factors only: running it again on the
    record it leaves gives the same record and the same result, the
    flag it finds makes no difference, and neither do the proofs, the
    two public keys and the blinder index, which it leaves as they
    are. *)
Theorem LOutputScope_verify_idempotent (r : t) :
  verify (fst (verify r)) = verify r ∧
  (∀ b, verify (set__verified b r) = verify r) ∧
  (∀ rp sp ecdh bp idx,
     verify (set_range_proof rp (set_surjection_proof sp
              (set_ecdh_pubkey ecdh (set_blinding_pubkey bp
                 (set_blinder_index idx r))))) =
     let '(r', res) := verify r in
     (set_range_proof rp (set_surjection_proof sp
        (set_ecdh_pubkey ecdh (set_blinding_pubkey bp
           (set_blinder_index idx r')))), res)).
Proof.
  split; [|split].
  - destruct (verify_outcome r) as [H|[e H]]; rewrite H; simpl;
      by rewrite verify_ignores_flag.
  - intros b. apply verify_ignores_flag.
  - intros rp sp ecdh bp idx. rewrite !verify_cases.
    destruct r; simpl. unfold asset_checked, value_checked. simpl.
    cases.
Qed.

End output_verify_again.

(** ** Unblinding an input again *)

Section input_unblind_again.
Context {engine : secp256k1} {lib : bitcoin}.
Import LInputScope.

(** X2. Running [unblind] again on the record it leaves changes
    nothing more and ends the same way. Its result does not depend on
    the value, the asset and the blinding factors the record held
    before, and with a range proof a successful call replaces all four
    by what the proof rewinds to. *)
Theorem LInputScope_unblind_idempotent (key : bytes) (r : t) :
  (let '(r', res) := unblind key r in unblind key r' = (r', res)) ∧
  (∀ v a vbf abf,
     let r0 := set_value v (set_asset a (set_value_blinding_factor vbf
                 (set_asset_blinding_factor abf r))) in
     snd (unblind key r0) = snd (unblind key r) ∧
     (range_proof r ≠ None →
      ∀ r', unblind key r = (r', Ok tt) → unblind key r0 = (r', Ok tt))).
Proof.
  split.
  - rewrite (unblind_cases key r).
    cases; rewrite unblind_cases; unfold store_unblinded; simpl;
      repeat match goal with H : _ = _ |- _ => rewrite H; clear H end; done.
  - intros v a vbf abf r0. subst r0. rewrite !unblind_cases. simpl.
    split.
    + cases.
    + intros Hrp r'. destruct (range_proof r); [|done]. cases.
Qed.

Lemma unblind_raises (key : bytes) (inp inp' : t) (e : exn) :
  unblind key inp = (inp', Raise e) → inp' = inp.
Proof. rewrite unblind_cases. intros H. cases. Qed.

End input_unblind_again.

(** ** Signing a range proof again *)

Section output_reblind.
Context {engine : secp256k1} {lib : bitcoin}.
Import LOutputScope.

(** [reblind] assigns the ECDH key and the range proof only, and the
    range proof only when it returns. *)
Lemma reblind_frame (nonce : bytes) (key : option bytes) (extra : bytes)
    (r : t) :
  let '(r', res) := reblind nonce key extra r in
  r' = set_range_proof (range_proof r') (set_ecdh_pubkey (ecdh_pubkey r') r) ∧
  match res with
  | Ok _ => True
  | Raise _ => range_proof r' = range_proof r
  end.
Proof.
  unfold reblind, or_else, operand. run. destruct r; simpl. cases.
Qed.

(** X3. [reblind] does nothing to an output whose two commitments are
    not both truthy. On a blinded output it raises "Blinding pubkey
    required", the record unchanged, when neither the key it is given
    nor the stored one is truthy; a key that is not truthy stands for
    the stored one. It assigns the ECDH key and the range proof only,
    and when it raises the range proof is the one it found, though the
    ECDH key may be new. When every step succeeds the ECDH key is the
    public key of the nonce and the proof is signed under the double
    SHA-256 of the tweaked blinding key, over the last 32 bytes of the
    asset, the asset blinding factor and the extra message. *)
Theorem LOutputScope_reblind_cases (nonce : bytes) (key : option bytes)
    (extra_message : bytes) (r : t) :
  (is_blinded r = false → reblind nonce key extra_message r = (r, Ok tt)) ∧
  (is_blinded r = true → truthy key = false →
   truthy (blinding_pubkey r) = false →
   reblind nonce key extra_message r = (r, Raise blinding_pubkey_required)) ∧
  (truthy key = false →
   reblind nonce key extra_message r =
   reblind nonce (blinding_pubkey r) extra_message r) ∧
  (let '(r', res) := reblind nonce key extra_message r in
   r' = set_range_proof (range_proof r') (set_ecdh_pubkey (ecdh_pubkey r') r) ∧
   match res with
   | Ok _ => True
   | Raise _ => range_proof r' = range_proof r
   end) ∧
  (∀ pubkey pub ecdh pub' sec tag abf commitment script gen proof,
     is_blinded r = true →
     or_else key (blinding_pubkey r) = Some pubkey → pubkey ≠ [] →
     ec_pubkey_parse pubkey = Ok pub →
     private_key_sec nonce = Ok ecdh →
     ec_pubkey_tweak_mul pub nonce = Ok pub' →
     ec_pubkey_serialize pub' = Ok sec →
     asset r = Some tag →
     asset_blinding_factor r = Some abf →
     pedersen_commitment_parse (py_bytes (value_commitment r)) =
       Ok commitment →
     script_pubkey r = Some script →
     generator_parse (py_bytes (asset_commitment r)) = Ok gen →
     rangeproof_sign (sha256 (sha256 sec)) (py_int (value r)) commitment
       (py_bytes (value_blinding_factor r))
       (last32 tag ++ abf ++ extra_message) (data script) gen = Ok proof →
     reblind nonce key extra_message r =
     (set_range_proof (Some proof) (set_ecdh_pubkey (Some ecdh) r), Ok tt)).
Proof.
  split; [|split; [|split; [|split]]].
  4: apply reblind_frame.
  all: unfold reblind, blinding_pubkey_required, or_else, operand; run.
  - by intros ->.
  - intros -> -> Hk. simpl.
    destruct (blinding_pubkey r) as [[|]|]; done.
  - intros ->. destruct (is_blinded r); simpl; [|done].
    by destruct (truthy (blinding_pubkey r)).
  - intros pubkey pub ecdh pub' sec tag abf commitment script gen proof
      -> Hk Hne Hp He Ht Hs Ha Hb Hc Hsc Hg Hr. simpl. rewrite Hk.
    destruct pubkey as [|x pubkey]; [done|].
    rewrite Hp, He. simpl. rewrite Ht, Hs, Ha. simpl. rewrite Hb. simpl.
    rewrite Hc, Hsc. simpl. rewrite Hg, Hr. done.
Qed.

End output_reblind.

(** X3, witness: a range proof signed for a committed output under a
    key given to the call. *)
Lemma LOutputScope_reblind_cases_witness :
  LOutputScope.reblind (engine := plain_secp256k1) (lib := plain_bitcoin)
    [x05] (Some [x02]) [] committed_output =
  (LOutputScope.set_range_proof (Some [x01; x03])
     (LOutputScope.set_ecdh_pubkey (Some [x05]) committed_output), Ok tt).
Proof.
  apply (proj2 (proj2 (proj2 (proj2
           (LOutputScope_reblind_cases (engine := plain_secp256k1)
              (lib := plain_bitcoin) [x05] (Some [x02]) [] committed_output))))
         [x02] [x02] [x05] [x02; x05] [x02; x05] [x01] [x03]
         [x02; x05; x00; x00; x00; x00; x00; x00; x00; x01; x03]
         {| data := [x51] |} [x01; x03] [x01; x03]);
    done.
Defined.

(** ** Clearing the metadata of a record *)

Section input_clear.
Context {io : codec} {super : LInputScope.base}.
Import LInputScope.

(** X4. After [clear_metadata] an input record holds none of its five
    liquid fields, so [write_to] adds to what the base record writes
    nothing but the separator, unless that is skipped. *)
Theorem LInputScope_clear_metadata_write_to (r : t) (skip : bool)
    (version : option Z) (stream stream' : bytes) (n : Z) :
  base_write_to (clear_metadata r) true version stream = (stream', Ok n) →
  let separator := if skip then [] else [x00] in
  input_fields (clear_metadata r) = [] ∧
  write_to (clear_metadata r) skip version stream =
    (stream' ++ separator, Ok (n + Z.of_nat (length separator))).
Proof.
  intros Hbase separator.
  assert (input_fields (clear_metadata r) = []) as Hnone by done.
  split; [done|].
  rewrite (input_write_to_run _ skip version stream stream' n Hbase).
  - by rewrite Hnone.
  - done.
Qed.

End input_clear.

(** X4, witness: an input with every liquid field set, cleared and
    written. *)
Lemma LInputScope_clear_metadata_write_to_witness :
  LInputScope.write_to (io := compact_codec)
    (super := plain_input_base (io := compact_codec))
    (LInputScope.clear_metadata
       (super := plain_input_base (io := compact_codec)) full_input)
    false None [] = ([x00], Ok 1).
Proof.
  apply (LInputScope_clear_metadata_write_to (io := compact_codec)
           (super := plain_input_base (io := compact_codec))
           full_input false None [] [] 0 eq_refl).
Defined.

Section output_clear.
Context {lib : bitcoin} {io : codec} {super : LOutputScope.base}.
Import LOutputScope.

(** [clear_metadata], field by field. *)
Lemma clear_metadata_fields (r : t) :
  let r1 := base_clear_metadata r in
  clear_metadata r =
  mk (value_commitment r1) None (asset_commitment r1) None None None
    (ecdh_pubkey r1) (blinding_pubkey r1)
    (if truthy (asset_commitment r1) then None else asset r1) None
    (_verified r1)
    (if truthy (value_commitment r1) then None else value r1)
    (script_pubkey r1) (unknown r1) (compress r1).
Proof.
  cbv zeta. unfold clear_metadata.
  destruct (base_clear_metadata r) as [vc ? ac ? ? ? ? ? a ? ? v ? ? ?].
  cbv zeta. simpl.
  destruct (truthy vc); simpl; destruct (truthy ac); reflexivity.
Qed.

(** X5. After [clear_metadata] an output record is serialized without
    blinding factors, proofs and blinder index: [write_to] adds to what
    the base record writes at most the asset, the two commitments and
    the two public keys, and no asset when the asset commitment is
    truthy. Of a blinded output neither the value nor the asset is
    left, and [vout] is then [blinded_vout]. A value or an asset whose
    commitment is not truthy stays. *)
Theorem LOutputScope_clear_metadata_public (r : t) (skip : bool)
    (version : option Z) (stream stream' : bytes) (n : Z) :
  base_write_to (clear_metadata r) true version stream = (stream', Ok n) →
  let r1 := base_clear_metadata r in
  let r' := clear_metadata r in
  let fields := serialized_fields version r' in
  let wire := output_wire version fields ++ (if skip then [] else [x00]) in
  write_to r' skip version stream =
    (stream' ++ wire, Ok (n + Z.of_nat (length wire))) ∧
  Forall (fun e => fst e ∈ public_fields) fields ∧
  (truthy (asset_commitment r1) = true →
   Forall (fun e => fst e ≠ Asset) fields) ∧
  (is_blinded r1 = true →
   value r' = None ∧ asset r' = None ∧ vout r' = blinded_vout r') ∧
  (truthy (value_commitment r1) = false → value r' = value r1) ∧
  (truthy (asset_commitment r1) = false → asset r' = asset r1).
Proof.
  intros Hbase r1 r' fields wire.
  assert (blinder_index r' = None) as Hindex
    by (subst r'; by rewrite clear_metadata_fields).
  split; [|split; [|split; [|split; [|split]]]].
  - apply write_to_run; [done|]. intros i Hi. by rewrite Hindex in Hi.
  - eapply Forall_impl; [apply serialized_fields_spec|].
    intros [f v] [Hv _]. subst r'. rewrite clear_metadata_fields in Hv.
    unfold public_fields.
    destruct f; simpl in *; try done;
      repeat first [apply list_elem_of_here | apply list_elem_of_further].
  - intros Hac. eapply Forall_impl; [apply serialized_fields_spec|].
    intros [f v] [Hv _]. subst r'. rewrite clear_metadata_fields in Hv.
    fold r1 in Hv. destruct f; simpl in *; try done. by rewrite Hac in Hv.
  - unfold is_blinded. intros [Hv Ha]%andb_true_iff.
    subst r'. rewrite clear_metadata_fields. fold r1.
    unfold vout, blinded_vout, or_else. simpl. by rewrite Hv, Ha.
  - intros Hv. subst r'. rewrite clear_metadata_fields. fold r1. simpl.
    by rewrite Hv.
  - intros Ha. subst r'. rewrite clear_metadata_fields. fold r1. simpl.
    by rewrite Ha.
Qed.

End output_clear.

(** X5, witness: an output with every liquid field set, cleared and
    written under version 2: the two commitments and the two public
    keys are left. *)
Lemma LOutputScope_clear_metadata_public_witness :
  LOutputScope.write_to (io := compact_codec)
    (super := plain_output_base (io := compact_codec))
    (LOutputScope.clear_metadata
       (super := plain_output_base (io := compact_codec)) full_output)
    false (Some 2) [] =
  ([x07; xfc; x04; x70; x73; x65; x74; x01; x01; x11;
    x07; xfc; x04; x70; x73; x65; x74; x03; x01; x13;
    x07; xfc; x04; x70; x73; x65; x74; x06; x01; x19;
    x07; xfc; x04; x70; x73; x65; x74; x07; x01; x18; x00], Ok 41).
Proof.
  exact (proj1 (LOutputScope_clear_metadata_public (lib := plain_bitcoin)
                  (io := compact_codec)
                  (super := plain_output_base (io := compact_codec))
                  full_output false (Some 2) [] [] 0 eq_refl)).
Defined.

(** ** The transaction outputs of an output record *)

Section output_vout.
Context {lib : bitcoin}.
Import LOutputScope.

(** X6. What [vout] and [blinded_vout] hand to the constructor of the
    transaction output, whatever that constructor does with it. [vout]
    hands it the asset when it is truthy, and then no ECDH key, and the
    asset commitment and the ECDH key otherwise; the value when it is
    not zero and the value commitment otherwise, so that a value of
    zero without a commitment is handed over as [None] where
    [blinded_vout] hands over the zero; and never a witness.
    [blinded_vout] hands it each commitment when it is truthy and the
    plaintext otherwise, always the ECDH key, and a witness exactly
    when the surjection proof is truthy: a range proof alone gives
    none. A record without truthy commitments, with a truthy asset, a
    value that is not zero, no ECDH key and no truthy surjection proof
    has the same [vout] and [blinded_vout]. *)
Theorem LOutputScope_vout_fallback (r : t) :
  (∃ handed,
     vout r =
       new_output (if truthy (asset r) then asset r else asset_commitment r)
         handed (script_pubkey r)
         (if truthy (asset r) then None else ecdh_pubkey r) None ∧
     (∀ v, value r = Some v → v ≠ 0 → handed = PyInt v) ∧
     (value r = Some 0 ∨ value r = None →
      handed = py_bytes (value_commitment r)) ∧
     (value r = Some 0 → value_commitment r = None → handed = PyNone)) ∧
  (∃ handed witness,
     blinded_vout r =
       new_output
         (if truthy (asset_commitment r) then asset_commitment r
          else asset r)
         handed (script_pubkey r) (ecdh_pubkey r) witness ∧
     (truthy (value_commitment r) = true →
      handed = py_bytes (value_commitment r)) ∧
     (truthy (value_commitment r) = false → handed = py_int (value r)) ∧
     (value r = Some 0 → value_commitment r = None → handed = PyInt 0) ∧
     (truthy (surjection_proof r) = false → witness = None) ∧
     (truthy (surjection_proof r) = true →
      witness =
        Some (Build_TxOutWitness (surjection_proof r) (range_proof r)))) ∧
  (truthy (asset_commitment r) = false →
   truthy (value_commitment r) = false →
   truthy (asset r) = true →
   (∃ v, value r = Some v ∧ v ≠ 0) →
   ecdh_pubkey r = None →
   truthy (surjection_proof r) = false →
   vout r = blinded_vout r).
Proof.
  unfold vout, blinded_vout, or_else. split; [|split].
  - eexists. split; [reflexivity|]. split; [|split].
    + intros v -> Hv. simpl. by destruct (Z.eqb_spec v 0).
    + by intros [-> | ->].
    + by intros -> ->.
  - eexists _, _. split; [reflexivity|].
    split; [by intros ->|]. split; [by intros ->|].
    split; [by intros -> ->|]. split; by intros ->.
  - intros Hac Hvc Ha (v & Hv & Hne) He Hsp.
    rewrite Hac, Hvc, Ha, Hv, He, Hsp. simpl.
    by destruct (Z.eqb_spec v 0).
Qed.

End output_vout.

(** ** More on record keys *)

Section more_record_keys.
Context {io : codec}.

(** X7. An output record reads a field under its legacy key and under
    its version 2 key alike: the value commitment (legacy 00, v2 01),
    the asset commitment (02, 03), the range proof (04), the surjection
    proof (05), the blinding public key (06) and the ECDH public key
    (07). *)
Theorem LOutputScope_read_value_aliases (super : LOutputScope.base)
    (st : LOutputScope.t * bytes) :
  let read := LOutputScope.read_value in
  read (elements_key x00) st = read (pset_key x01) st ∧
  read (elements_key x02) st = read (pset_key x03) st ∧
  read (elements_key x04) st = read (pset_key x04) st ∧
  read (elements_key x05) st = read (pset_key x05) st ∧
  read (elements_key x06) st = read (pset_key x06) st ∧
  read (elements_key x07) st = read (pset_key x07) st.
Proof.
  unfold LOutputScope.read_value. by decide_keys.
Qed.

(** X8. Reading a record under a confidential key touches the liquid
    fields and the unknown fields only: the verified flag, the compress
    flag and the attributes of the base record stay as they are. Under
    the compress flag no proof is ever stored. When the value cannot be
    read, the record is unchanged. *)
Theorem read_value_frame (k : bytes) :
  confidential_key k →
  (∀ (super : LOutputScope.base) self stream,
     let '((self', _), res) := LOutputScope.read_value k (self, stream) in
     LOutputScope._verified self' = LOutputScope._verified self ∧
     LOutputScope.value self' = LOutputScope.value self ∧
     LOutputScope.script_pubkey self' = LOutputScope.script_pubkey self ∧
     LOutputScope.compress self' = LOutputScope.compress self ∧
     (LOutputScope.compress self = true →
      LOutputScope.range_proof self' = LOutputScope.range_proof self ∧
      LOutputScope.surjection_proof self' =
        LOutputScope.surjection_proof self) ∧
     (∀ e, res = Raise e → self' = self)) ∧
  (∀ (super : LInputScope.base) self stream,
     let '((self', _), res) := LInputScope.read_value k (self, stream) in
     LInputScope.utxo self' = LInputScope.utxo self ∧
     LInputScope.txid self' = LInputScope.txid self ∧
     LInputScope.vout self' = LInputScope.vout self ∧
     LInputScope.sequence self' = LInputScope.sequence self ∧
     LInputScope.compress self' = LInputScope.compress self ∧
     (LInputScope.compress self = true →
      LInputScope.range_proof self' = LInputScope.range_proof self) ∧
     (∀ e, res = Raise e → self' = self)).
Proof.
  intros Hk. split; intros super self stream.
  - unfold LOutputScope.read_value. rewrite (confidential_key_routed k Hk).
    unfold self_of, skip_string, read_string, assign. run.
    destruct (LOutputScope.compress self) eqn:Hc;
      repeat case_bool_decide; simpl;
      repeat case_match; simplify_eq; simpl; rewrite ?Hc;
      repeat split; intros; simplify_eq; done.
  - unfold LInputScope.read_value. rewrite (confidential_key_routed k Hk).
    unfold self_of, skip_string, read_string, assign. run.
    destruct (LInputScope.compress self) eqn:Hc;
      repeat case_bool_decide; simpl;
      repeat case_match; simplify_eq; simpl; rewrite ?Hc;
      repeat split; intros; simplify_eq; done.
Qed.

(** X9. An integer that does not fit its width stops [write_to] with an
    overflow after the key has been written: the value of an input
    outside 8 bytes leaves a key without a value after what the base
    record wrote, and the blinder index of an output outside 4 bytes
    leaves one after the fields before it. Reading accepts integers of
    any length, so a record read from such a value cannot be written
    back. *)
Theorem write_to_integer_overflow (skip : bool) (version : option Z)
    (stream stream' : bytes) (n : Z) :
  (∀ (super : LInputScope.base) (r : LInputScope.t) v,
     LInputScope.value r = Some v →
     ¬ (0 ≤ v < 2 ^ 64) →
     LInputScope.base_write_to r true version stream = (stream', Ok n) →
     LInputScope.write_to r skip version stream =
       (stream' ++ ser_string_bytes (elements_key x00),
        Raise OverflowError)) ∧
  (∀ (super : LOutputScope.base) (r : LOutputScope.t) i,
     LOutputScope.blinder_index r = Some i →
     ¬ (0 ≤ i < 2 ^ 32) →
     LOutputScope.base_write_to r true version stream = (stream', Ok n) →
     LOutputScope.write_to r skip version stream =
       (stream' ++
        output_wire version
          (serialized_fields version
             (LOutputScope.set_blinder_index None r)) ++
        ser_string_bytes (pset_key x08),
        Raise OverflowError)) ∧
  (∀ (super : LInputScope.base) self data b rest,
     read_string_bytes data = Ok (b, rest) →
     2 ^ 64 ≤ int_from_bytes b →
     let parsed :=
       fst (fst (LInputScope.read_value (elements_key x00) (self, data))) in
     LInputScope.base_write_to parsed true version stream = (stream', Ok n) →
     LInputScope.write_to parsed skip version stream =
       (stream' ++ ser_string_bytes (elements_key x00),
        Raise OverflowError)) ∧
  (∀ (super : LOutputScope.base) self data b rest,
     read_string_bytes data = Ok (b, rest) →
     2 ^ 32 ≤ int_from_bytes b →
     let parsed :=
       fst (fst (LOutputScope.read_value (pset_key x08) (self, data))) in
     LOutputScope.base_write_to parsed true version stream = (stream', Ok n) →
     ∃ written,
       LOutputScope.write_to parsed skip version stream =
         (written, Raise OverflowError)).
Proof.
  assert (∀ (super : LInputScope.base) (r : LInputScope.t) v,
     LInputScope.value r = Some v →
     ¬ (0 ≤ v < 2 ^ 64) →
     LInputScope.base_write_to r true version stream = (stream', Ok n) →
     LInputScope.write_to r skip version stream =
       (stream' ++ ser_string_bytes (elements_key x00),
        Raise OverflowError)) as Hin.
  { intros super r v Hv Hrange Hbase. unfold LInputScope.write_to.
    unfold mbind at 1, method_bind at 1. rewrite Hbase, Hv.
    unfold mbind at 1, method_bind at 1.
    unfold mbind at 1, method_bind at 1, ser_string at 1, stream_write at 1.
    unfold mbind at 1, method_bind at 1, lift at 1.
    by rewrite int_to_bytes_overflow. }
  assert (∀ (super : LOutputScope.base) (r : LOutputScope.t) i,
     LOutputScope.blinder_index r = Some i →
     ¬ (0 ≤ i < 2 ^ 32) →
     LOutputScope.base_write_to r true version stream = (stream', Ok n) →
     LOutputScope.write_to r skip version stream =
       (stream' ++
        output_wire version
          (serialized_fields version
             (LOutputScope.set_blinder_index None r)) ++
        ser_string_bytes (pset_key x08),
        Raise OverflowError)) as Hout.
  { intros super r i Hi Hrange Hbase. rewrite output_wire_fields.
    unfold LOutputScope.write_to.
    unfold mbind at 1, method_bind at 1. rewrite Hbase, Hi.
    emit_with write_asset_emit.
    do 8 emit_with write_field_emit.
    unfold mbind at 1, method_bind at 1.
    unfold mbind at 1, method_bind at 1, ser_string at 1, stream_write at 1.
    unfold mbind at 1, method_bind at 1, lift at 1.
    rewrite int_to_bytes_overflow by done.
    unfold LOutputScope.versioned_key.
    cbn [flat_map write_order output_field_serialized output_field_value
         output_field_key LOutputScope.set_blinder_index
         LOutputScope.blinder_index LOutputScope.asset
         LOutputScope.value_commitment LOutputScope.value_blinding_factor
         LOutputScope.asset_commitment LOutputScope.asset_blinding_factor
         LOutputScope.blinding_pubkey LOutputScope.ecdh_pubkey
         LOutputScope.range_proof LOutputScope.surjection_proof
         fmap option_fmap option_map optional_record].
    f_equal. by rewrite !app_nil_r, <- !app_assoc. }
  split; [exact Hin|]. split; [exact Hout|]. split.
  - intros super self data b rest Hread Hbig parsed Hbase.
    eapply Hin; [|exact (λ H, Zlt_not_le _ _ (proj2 H) Hbig)|done].
    subst parsed. unfold LInputScope.read_value. decide_keys.
    unfold mbind at 1, method_bind at 1.
    by rewrite (read_string_ok _ _ _ _ Hread).
  - intros super self data b rest Hread Hbig parsed Hbase.
    eexists. eapply Hout; [|exact (λ H, Zlt_not_le _ _ (proj2 H) Hbig)|done].
    subst parsed. unfold LOutputScope.read_value. decide_keys.
    unfold mbind at 1, method_bind at 1.
    by rewrite (read_string_ok _ _ _ _ Hread).
Qed.

End more_record_keys.

(** X8, witness: a surjection proof met under the compress flag, behind
    a key with the prefix at offset one. *)
Lemma read_value_frame_witness :
  confidential_key nested_key ∧
  let '((self', _), _) :=
    LOutputScope.read_value (io := compact_codec)
      (super := plain_output_base (io := compact_codec))
      nested_key (blank_output true, [x01; x2a]) in
  LOutputScope.compress self' = true ∧
  LOutputScope.range_proof self' = None ∧
  LOutputScope.surjection_proof self' = None.
Proof.
  assert (confidential_key nested_key) as Hk
    by (exists [x0a], [x01]; by right).
  split; [exact Hk|].
  pose proof (proj1 (read_value_frame (io := compact_codec) nested_key Hk)
                (plain_output_base (io := compact_codec))
                (blank_output true) [x01; x2a]) as H.
  destruct (LOutputScope.read_value nested_key (blank_output true, [x01; x2a]))
    as [[self' rest] res].
  destruct H as (_ & _ & _ & Hc & Hp & _).
  split; [exact Hc|]. exact (Hp eq_refl).
Defined.

(** X9, witness: the value read from nine bytes is 2^64, and writing
    the input that holds it stops after the key. *)
Lemma write_to_integer_overflow_witness :
  LInputScope.write_to (io := compact_codec)
    (super := plain_input_base (io := compact_codec))
    (LInputScope.set_value (Some (2 ^ 64)) (blank_input false))
    false None [] =
  ([x0b; xfc; x08; x65; x6c; x65; x6d; x65; x6e; x74; x73; x00],
   Raise OverflowError).
Proof.
  exact (proj1 (proj2 (proj2
           (write_to_integer_overflow (io := compact_codec)
              false None [] [] 0)))
         (plain_input_base (io := compact_codec)) (blank_input false)
         (x09 :: nine_bytes) nine_bytes [] eq_refl
         ltac:(vm_compute; discriminate) eq_refl).
Defined.

(** ** The liquid fields of an input on the wire *)

Section input_layout.
Context {io : codec} {super : LInputScope.base}.
Import LInputScope.

(** X17. After what the base record writes, [write_to] on an input
    writes one record for each liquid field that is set, in the order
    value, value blinding factor, asset, asset blinding factor, range
    proof: the value as eight little-endian bytes, the first four under
    the legacy keys 00 to 03 and the range proof under the version 2
    key 0e, then the separator unless it is skipped; it returns the
    number of bytes written. The version changes nothing of what is
    written beyond the base record. *)
Theorem LInputScope_write_to_order (r : t) (skip : bool)
    (version : option Z) (stream stream' : bytes) (n : Z) :
  base_write_to r true version stream = (stream', Ok n) →
  (∀ v, value r = Some v → 0 ≤ v < 2 ^ 64) →
  let wire :=
    optional_record (elements_key x00) (little_endian 8 <$> value r) ++
    optional_record (elements_key x01) (value_blinding_factor r) ++
    optional_record (elements_key x02) (asset r) ++
    optional_record (elements_key x03) (asset_blinding_factor r) ++
    optional_record (pset_key x0e) (range_proof r) ++
    (if skip then [] else [x00]) in
  write_to r skip version stream =
    (stream' ++ wire, Ok (n + Z.of_nat (length wire))) ∧
  (∀ version' n',
     base_write_to r true version' stream = (stream', Ok n') →
     fst (write_to r skip version' stream) =
     fst (write_to r skip version stream)).
Proof.
  intros Hbase Hvalue wire.
  assert (∀ ver m, base_write_to r true ver stream = (stream', Ok m) →
            write_to r skip ver stream =
            (stream' ++ wire, Ok (m + Z.of_nat (length wire)))) as Hrun.
  { intros ver m Hb.
    rewrite (input_write_to_run r skip ver stream stream' m Hb Hvalue).
    rewrite input_wire_fields. subst wire.
    cbn [flat_map input_order input_field_value input_field_key].
    by rewrite app_nil_r, <- !app_assoc. }
  split; [by apply Hrun|].
  intros version' n' Hb. by rewrite (Hrun _ _ Hb), (Hrun _ _ Hbase).
Qed.

End input_layout.

(** X17, witness: an input with every liquid field set. *)
Lemma LInputScope_write_to_order_witness :
  LInputScope.write_to (io := compact_codec)
    (super := plain_input_base (io := compact_codec))
    full_input false None [] =
  ([x0b] ++ elements_key x00 ++
   [x08; xe8; x03; x00; x00; x00; x00; x00; x00] ++
   [x0b] ++ elements_key x01 ++ [x01; x21] ++
   [x0b] ++ elements_key x02 ++ [x01; x22] ++
   [x0b] ++ elements_key x03 ++ [x01; x23] ++
   [x07] ++ pset_key x0e ++ [x02; x24; x25] ++ [x00], Ok 75).
Proof.
  apply (proj1 (LInputScope_write_to_order (io := compact_codec)
                  (super := plain_input_base (io := compact_codec))
                  full_input false None [] [] 0 eq_refl
                  (proj2 full_input_serializable))).
Defined.

(** ** Keys written and keys read *)

Section written_keys.
Context {io : codec}.

(** X18. For a codec that reads back what it writes, [read_value]
    understands every key [write_to] uses, under either version alike:
    a value written behind the key of a field is stored in that field,
    the two integers decoded from their little-endian bytes, and a
    proof is stepped over under the compress flag. The blinder index
    and the input value written on four and eight bytes read back as
    they were. *)
Theorem read_value_written_keys (laws : codec_laws io) :
  (∀ (super : LOutputScope.base) version f v rest r,
     fits v →
     LOutputScope.read_value (output_field_key version f)
       (r, ser_string_bytes v ++ rest) =
     ((output_field_read f v r, rest), Ok tt)) ∧
  (∀ (super : LInputScope.base) f v rest r,
     fits v →
     LInputScope.read_value (input_field_key f)
       (r, ser_string_bytes v ++ rest) =
     ((input_field_read f v r, rest), Ok tt)) ∧
  (∀ i r, 0 ≤ i < 2 ^ 32 →
     output_field_read BlinderIndex (little_endian 4 i) r =
     LOutputScope.set_blinder_index (Some i) r) ∧
  (∀ v r, 0 ≤ v < 2 ^ 64 →
     input_field_read InValue (little_endian 8 v) r =
     LInputScope.set_value (Some v) r).
Proof.
  split; [|split; [|split]].
  - intros. by apply output_read_field.
  - intros. by apply input_read_field.
  - intros i r Hi. unfold output_field_read.
    by rewrite int_from_little_endian by (simpl; lia).
  - intros v r Hv. unfold input_field_read.
    by rewrite int_from_little_endian by (simpl; lia).
Qed.

End written_keys.

(** X18, witness: a blinder index of 3 read from its four bytes. *)
Lemma read_value_written_keys_witness :
  LOutputScope.read_value (io := compact_codec)
    (super := plain_output_base (io := compact_codec)) (pset_key x08)
    (blank_output false, [x04; x03; x00; x00; x00; xff]) =
  ((LOutputScope.set_blinder_index (Some 3) (blank_output false), [xff]),
   Ok tt).
Proof.
  apply (proj1 (read_value_written_keys (io := compact_codec)
                  compact_codec_laws)
         (plain_output_base (io := compact_codec)) (Some 2) BlinderIndex
         [x03; x00; x00; x00] [xff] (blank_output false)).
  unfold fits. simpl. lia.
Defined.

(** ** Verifying a cleared output *)

Section cleared_verify.
Context {engine : secp256k1} {super : LOutputScope.base}.
Import LOutputScope.

(** X19. After [clear_metadata] no check of [verify] applies, whatever
    the record held: a plaintext is cleared wherever its commitment is
    truthy. [verify] then sets the flag and returns [True] without
    calling the engine. *)
Theorem LOutputScope_clear_metadata_verify (r : t) :
  let r' := clear_metadata r in
  asset_checked r' = false ∧ value_checked r' = false ∧
  verify r' = (set__verified true r', Ok true).
Proof.
  intros r'.
  assert (asset_checked r' = false ∧ value_checked r' = false) as [Ha Hv].
  { subst r'. unfold clear_metadata, asset_checked, value_checked.
    destruct (base_clear_metadata r) as [vc ? ac ? ? ? ? ? a ? ? v ? ? ?].
    cbv zeta. simpl.
    destruct (truthy vc) eqn:Evc; simpl;
      destruct (truthy ac) eqn:Eac; simpl; rewrite ?Evc, ?Eac;
      by rewrite ?andb_false_r. }
  split; [done|]. split; [done|].
  rewrite verify_cases. simpl. by rewrite Ha, Hv.
Qed.

End cleared_verify.

(** ** Unblinding the inputs of a container *)

Section container_unblind.
Context {engine : secp256k1} {lib : bitcoin}.
Import PSET.

Lemma set_inputs_id (c : t) : set_inputs (inputs c) c = c.
Proof. by destruct c. Qed.

Lemma on_input_at (c : t) (done todo : list LInputScope.t)
    (inp : LInputScope.t) {A} (m : method LInputScope.t A) :
  inputs c = done ++ inp :: todo →
  on_input (length done) m c =
  let '(inp', r) := m inp in (set_inputs (done ++ inp' :: todo) c, r).
Proof.
  intros Hc. unfold on_input, on_inputs, at_index. rewrite Hc.
  rewrite lookup_app_r, Nat.sub_diag by lia. simpl.
  destruct (m inp) as [inp' r].
  by rewrite insert_app_r_alt, Nat.sub_diag by lia.
Qed.

Lemma unblind_loop (key : bytes) (todo done : list LInputScope.t) (c : t) :
  inputs c = done ++ todo →
  for_each (seq (length done) (length todo))
    (fun i => on_input i (LInputScope.unblind key)) c =
  let '(rest, r) := unblind_each key todo in (set_inputs (done ++ rest) c, r).
Proof.
  revert done c. induction todo as [|inp todo IH]; intros done c Hc; simpl.
  - rewrite app_nil_r in *. by rewrite <- Hc, set_inputs_id.
  - unfold mbind at 1, method_bind at 1.
    rewrite (on_input_at c done todo inp) by done.
    destruct (LInputScope.unblind key inp) as [inp' [[]|e]]; simpl; [|done].
    specialize (IH (done ++ [inp']) (set_inputs (done ++ inp' :: todo) c)).
    rewrite length_app, Nat.add_1_r in IH. rewrite IH.
    + destruct (unblind_each key todo) as [rest r].
      by rewrite <- app_assoc.
    + simpl. by rewrite <- app_assoc.
Qed.

Lemma unblind_unfold (key : bytes) (c : t) :
  unblind key c =
  let '(inps, r) := unblind_each key (inputs c) in (set_inputs inps c, r).
Proof.
  unfold unblind. unfold mbind at 1, method_bind at 1, get at 1.
  exact (unblind_loop key (inputs c) [] c eq_refl).
Qed.

(** The loop over the inputs, outcome by outcome. *)
Lemma unblind_each_outcome (key : bytes) (inps : list LInputScope.t) :
  let '(inps', res) := unblind_each key inps in
  match res with
  | Ok _ =>
      Forall2 (fun inp inp' => LInputScope.unblind key inp = (inp', Ok tt))
        inps inps'
  | Raise e =>
      ∃ done done' inp todo,
        inps = done ++ inp :: todo ∧ inps' = done' ++ inp :: todo ∧
        Forall2 (fun inp inp' => LInputScope.unblind key inp = (inp', Ok tt))
          done done' ∧
        LInputScope.unblind key inp = (inp, Raise e)
  end.
Proof.
  induction inps as [|inp inps IH]; simpl; [done|].
  destruct (LInputScope.unblind key inp) as [inp' [[]|e]] eqn:Hi.
  - destruct (unblind_each key inps) as [rest [[]|e]].
    + by constructor.
    + destruct IH as (done & done' & x & todo & -> & -> & Hd & Hx).
      exists (inp :: done), (inp' :: done'), x, todo.
      repeat split; try done. by constructor.
  - apply unblind_raises in Hi as Heq. subst inp'.
    exists [], [], inp, inps. by repeat split.
Qed.

Lemma unblind_each_unique (key : bytes) (inps inps' : list LInputScope.t) :
  Forall2 (fun inp inp' => LInputScope.unblind key inp = (inp', Ok tt))
    inps inps' →
  unblind_each key inps = (inps', Ok tt).
Proof.
  induction 1 as [|inp inp' inps inps' Hi _ IH]; simpl; [done|].
  by rewrite Hi, IH.
Qed.

(** X10. [unblind] unblinds the inputs one after the other and touches
    nothing else of the container. It returns when every input does,
    each input then being what its own [unblind] leaves. At the first
    input that raises it stops with that exception: the inputs before
    it stay unblinded, that input and the ones after it are as they
    were. With no range proof on any input the container is left as it
    is. *)
Theorem PSET_unblind_inputs (key : bytes) (c : t) :
  (let '(c', res) := unblind key c in
   outputs c' = outputs c ∧ tx_version c' = tx_version c ∧
   locktime c' = locktime c ∧
   match res with
   | Ok _ =>
       Forall2 (fun inp inp' => LInputScope.unblind key inp = (inp', Ok tt))
         (inputs c) (inputs c')
   | Raise e =>
       ∃ done done' inp todo,
         inputs c = done ++ inp :: todo ∧
         inputs c' = done' ++ inp :: todo ∧
         Forall2 (fun inp inp' => LInputScope.unblind key inp = (inp', Ok tt))
           done done' ∧
         LInputScope.unblind key inp = (inp, Raise e)
   end) ∧
  (∀ inps',
     Forall2 (fun inp inp' => LInputScope.unblind key inp = (inp', Ok tt))
       (inputs c) inps' →
     unblind key c = (set_inputs inps' c, Ok tt)) ∧
  (Forall (fun inp => LInputScope.range_proof inp = None) (inputs c) →
   unblind key c = (c, Ok tt)).
Proof.
  rewrite unblind_unfold. split; [|split].
  - pose proof (unblind_each_outcome key (inputs c)) as H.
    destruct (unblind_each key (inputs c)) as [inps' res]. simpl.
    by repeat split.
  - intros inps' H. by rewrite (unblind_each_unique key _ _ H).
  - intros Hnone. rewrite (unblind_each_unique key _ (inputs c)).
    + by rewrite set_inputs_id.
    + induction Hnone as [|inp inps Hi _ IH]; constructor; [|done].
      rewrite unblind_cases. by rewrite Hi.
Qed.

End container_unblind.

(** X10, witness: the one input of a container rewinds to the value 5
    of the committed output it spends. *)
Lemma PSET_unblind_inputs_witness :
  PSET.unblind (engine := plain_secp256k1) (lib := plain_bitcoin) [x00]
    unblinded_container =
  (PSET.set_inputs [store_unblinded 5 [x01] [x02] [x03] blinded_input]
     unblinded_container, Ok tt).
Proof.
  apply (proj1 (proj2 (PSET_unblind_inputs (engine := plain_secp256k1)
                         (lib := plain_bitcoin) [x00] unblinded_container))).
  repeat constructor.
Defined.

(** ** The transaction seed *)

Section container_txseed.
Context {lib : bitcoin}.
Import PSET.

Lemma comprehension_pure {S X Y} (f : X → method S Y) (g : X → result Y)
    (xs : list X) (s : S) :
  (∀ x s, f x s = (s, g x)) → comprehension f xs s = (s, collect g xs).
Proof.
  intros Hf. induction xs as [|x xs IH]; simpl; [done|].
  unfold mbind at 1, method_bind at 1. rewrite Hf.
  destruct (g x) as [y|e]; simpl; [|done].
  unfold mbind at 1, method_bind at 1. rewrite IH.
  by destruct (collect g xs).
Qed.

(** [txseed] reads the container and does not change it. *)
Lemma txseed_unfold (seed : bytes) (c : t) :
  txseed seed c =
  (c, if bool_decide (length seed = 32%nat) then
        ps ← collect outpoint_bytes (inputs c);
        ss ← collect script_bytes (outputs c);
        Ok (tagged_hash "liquid/txseed" (seed ++ concat ps ++ concat ss))
      else Raise AssertionError).
Proof.
  unfold txseed. unfold mbind at 1, method_bind at 1.
  case_bool_decide; [|done]. unfold mret at 1, method_ret at 1.
  unfold mbind at 1, method_bind at 1, get at 1.
  unfold mbind at 1, method_bind at 1.
  rewrite (comprehension_pure _ outpoint_bytes).
  2: { intros inp s. unfold outpoint_bytes.
       destruct (LInputScope.txid inp); [|done].
       destruct (LInputScope.vout inp) as [v|]; [|done]. run.
       by destruct (int_to_bytes v 4). }
  destruct (collect outpoint_bytes (inputs c)) as [ps|e]; simpl; [|done].
  unfold mbind at 1, method_bind at 1.
  rewrite (comprehension_pure _ script_bytes).
  2: { intros out s. unfold script_bytes.
       by destruct (LOutputScope.script_pubkey out). }
  by destruct (collect script_bytes (outputs c)).
Qed.

(** X11. [txseed] leaves the container as it is. It returns exactly
    when the seed is 32 bytes long, every input has a txid and a vout
    that fits four bytes and every output has a script, and fails the
    assertion for any other seed length. Its result depends on the
    container through the txids and vouts of the inputs and the scripts
    of the outputs only, and is the hash tagged "liquid/txseed" of the
    seed, then for each input the reversed txid and the four
    little-endian bytes of the vout, then the serialized script of each
    output. *)
Theorem PSET_txseed_data (seed : bytes) (c : t) :
  fst (txseed seed c) = c ∧
  ((∃ s, txseed seed c = (c, Ok s)) ↔
   length seed = 32%nat ∧ Forall has_outpoint (inputs c) ∧
   Forall has_script (outputs c)) ∧
  (length seed ≠ 32%nat → txseed seed c = (c, Raise AssertionError)) ∧
  (∀ c2,
     map LInputScope.txid (inputs c) = map LInputScope.txid (inputs c2) →
     map LInputScope.vout (inputs c) = map LInputScope.vout (inputs c2) →
     map LOutputScope.script_pubkey (outputs c) =
       map LOutputScope.script_pubkey (outputs c2) →
     snd (txseed seed c) = snd (txseed seed c2)) ∧
  (∀ ps ss,
     length seed = 32%nat →
     Forall2 (fun inp p =>
                ∃ txid vout,
                  LInputScope.txid inp = Some txid ∧
                  LInputScope.vout inp = Some vout ∧ 0 ≤ vout < 2 ^ 32 ∧
                  p = rev txid ++ little_endian 4 vout) (inputs c) ps →
     Forall2 (fun out s =>
                ∃ script,
                  LOutputScope.script_pubkey out = Some script ∧
                  s = script_serialize script) (outputs c) ss →
     txseed seed c =
     (c, Ok (tagged_hash "liquid/txseed" (seed ++ concat ps ++ concat ss)))).
Proof.
  rewrite txseed_unfold. simpl. split; [done|].
  split; [split|split; [|split]].
  - intros [s [= Hs]]. case_bool_decide as Hlen; [|done].
    destruct (collect outpoint_bytes (inputs c)) as [ps|] eqn:Hps; [|done].
    destruct (collect script_bytes (outputs c)) as [ss|] eqn:Hss; [|done].
    split; [done|]. apply collect_ok in Hps, Hss. split.
    + eapply Forall2_Forall_l; [exact Hps|]. apply Forall_forall.
      intros p _ inp. unfold outpoint_bytes, has_outpoint.
      destruct (LInputScope.txid inp) as [txid|]; [|done].
      destruct (LInputScope.vout inp) as [v|]; [|done]. simpl.
      destruct (int_to_bytes v 4) as [n|] eqn:Hn; [|done]. intros _.
      split; [done|]. exists v. split; [done|].
      apply int_to_bytes_defined in Hn. simpl in Hn. lia.
    + eapply Forall2_Forall_l; [exact Hss|]. apply Forall_forall.
      intros p _ out. unfold script_bytes, has_script.
      by destruct (LOutputScope.script_pubkey out).
  - intros (Hlen & Hin & Hout).
    destruct (txseed_ok seed c Hlen Hin Hout) as [s Hs].
    rewrite txseed_unfold in Hs. eauto.
  - intros Hlen. by rewrite bool_decide_eq_false_2.
  - intros c2 Ht Hv Hs. rewrite txseed_unfold. simpl.
    assert (collect outpoint_bytes (inputs c) =
            collect outpoint_bytes (inputs c2)) as ->.
    { apply collect_ext. revert Ht Hv. generalize (inputs c2).
      induction (inputs c) as [|inp l IH]; intros [|inp2 l2] Ht Hv;
        try done.
      injection Ht as Ht1 Ht2. injection Hv as Hv1 Hv2.
      constructor; [|by apply IH].
      unfold outpoint_bytes. by rewrite Ht1, Hv1. }
    assert (collect script_bytes (outputs c) =
            collect script_bytes (outputs c2)) as ->; [|done].
    apply collect_ext. revert Hs. generalize (outputs c2).
    induction (outputs c) as [|out l IH]; intros [|out2 l2] Hs;
      try done.
    injection Hs as Hs1 Hs2. constructor; [|by apply IH].
    unfold script_bytes. by rewrite Hs1.
  - intros ps ss Hlen Hps Hss. rewrite bool_decide_eq_true_2 by done.
    assert (collect outpoint_bytes (inputs c) = Ok ps) as ->.
    { apply collect_ok. eapply Forall2_impl; [exact Hps|].
      intros inp p (txid & v & Ht & Hv & Hrange & ->).
      unfold outpoint_bytes. rewrite Ht, Hv.
      by rewrite int_to_bytes_ok by (simpl; lia). }
    assert (collect script_bytes (outputs c) = Ok ss) as ->; [|done].
    apply collect_ok. eapply Forall2_impl; [exact Hss|].
    intros out s (script & Hs & ->). unfold script_bytes. by rewrite Hs.
Qed.

End container_txseed.

(** X11, witness: the seed data of a container with one input and two
    outputs. *)
Lemma PSET_txseed_data_witness :
  PSET.txseed (lib := plain_bitcoin) PSET.zero32 blinding_container =
  (blinding_container,
   Ok (PSET.zero32 ++ [xaa; x00; x00; x00; x00] ++ [x51])).
Proof.
  apply (proj2 (proj2 (proj2 (proj2
           (PSET_txseed_data (lib := plain_bitcoin) PSET.zero32
              blinding_container))))
         [[xaa; x00; x00; x00; x00]] [[x51]; []] eq_refl).
  - constructor; [|constructor]. exists [xaa], 0. by repeat split.
  - constructor; [by eexists|]. constructor; [by eexists|]. constructor.
Defined.

(** ** When the fee is defined *)

Section fee_errors.
Context {super : PSET.base}.
Import PSET.

(** [fee] is a fold of [fee_step] that stops at the first error. *)
Lemma fee_unfold (c : t) :
  fee c = (c, foldl fee_step (Ok 0) (LTransaction.vout (tx c))).
Proof. reflexivity. Qed.

Lemma fee_fold_raised (outs : list LTransactionOutput.t) (e : exn) :
  foldl fee_step (Raise e) outs = Raise e.
Proof. induction outs as [|out outs IH]; simpl; [done|exact IH]. Qed.

Lemma fee_fold_app (done todo : list LTransactionOutput.t) (acc : Z) :
  Forall fee_convention done →
  foldl fee_step (Ok acc) (done ++ todo) =
  foldl fee_step (Ok (acc + sum_of_fee_outputs done)) todo.
Proof.
  intros Hd. rewrite foldl_app. f_equal. by apply fee_fold.
Qed.

Lemma fee_fold_defined (outs : list LTransactionOutput.t) (acc z : Z) :
  foldl fee_step (Ok acc) outs = Ok z → Forall fee_convention outs.
Proof.
  revert acc. induction outs as [|out outs IH]; intros acc; cbn [foldl]; [done|].
  unfold fee_step at 2. simpl.
  destruct (LTransactionOutput.script_pubkey out) as [script|] eqn:Hs; simpl.
  2: { rewrite fee_fold_raised. done. }
  case_bool_decide as He.
  - destruct (LTransactionOutput.value out) as [|v|b] eqn:Hv;
      try (rewrite fee_fold_raised; done).
    intros H. constructor; [|by eapply IH].
    exists script. split; [done|]. intros _. by exists v.
  - intros H. constructor; [|by eapply IH].
    exists script. split; [done|]. done.
Qed.

(** X12. [fee] leaves the container as it is, and returns exactly when
    every output of the transaction has a script and every output with
    an empty script a plaintext integer value. The first output without
    a script stops it with an attribute error, the first output with an
    empty script and a value that is not an integer with a type
    error. *)
Theorem PSET_fee_defined_iff (c : t) :
  fst (fee c) = c ∧
  ((∃ z, fee c = (c, Ok z)) ↔
   Forall fee_convention (LTransaction.vout (tx c))) ∧
  (∀ done out todo,
     LTransaction.vout (tx c) = done ++ out :: todo →
     Forall fee_convention done →
     LTransactionOutput.script_pubkey out = None →
     fee c = (c, Raise AttributeError)) ∧
  (∀ done out todo script,
     LTransaction.vout (tx c) = done ++ out :: todo →
     Forall fee_convention done →
     LTransactionOutput.script_pubkey out = Some script →
     data script = [] →
     (∀ v, LTransactionOutput.value out ≠ PyInt v) →
     fee c = (c, Raise TypeError)).
Proof.
  rewrite fee_unfold. split; [done|]. split; [split|split].
  - intros [z Hz]. injection Hz as Hz. by eapply fee_fold_defined.
  - intros Hall. exists (0 + sum_of_fee_outputs (LTransaction.vout (tx c))).
    f_equal. by apply fee_fold.
  - intros done out todo Hc Hd Hs. rewrite Hc, fee_fold_app by done. cbn [foldl].
    unfold fee_step at 2. simpl. rewrite Hs. simpl.
    by rewrite fee_fold_raised.
  - intros done out todo script Hc Hd Hs He Hv.
    rewrite Hc, fee_fold_app by done. cbn [foldl].
    unfold fee_step at 2. simpl. rewrite Hs. simpl.
    rewrite bool_decide_eq_true_2 by done.
    destruct (LTransactionOutput.value out) as [|v|b] eqn:E;
      try by rewrite fee_fold_raised.
    by destruct (Hv v).
Qed.

End fee_errors.

(** X12, witness: an output without a script. *)
Lemma PSET_fee_defined_iff_witness :
  PSET.fee (super := plain_container_base) scriptless_container =
  (scriptless_container, Raise AttributeError).
Proof.
  apply (proj1 (proj2 (proj2
           (PSET_fee_defined_iff (super := plain_container_base)
              scriptless_container)))
         [] (LOutputScope.vout (lib := plain_bitcoin) zero_value_output) []);
    done.
Defined.

(** ** The transaction that is signed *)

Section container_tx.
Context {engine : secp256k1} {lib : bitcoin} {io : codec}
  {in_super : LInputScope.base} {out_super : LOutputScope.base}
  {super : PSET.base}.
Import PSET.

Lemma vin_sequence (inp : LInputScope.t) :
  LTransactionInput.sequence (LInputScope.vin inp) ≠ 0.
Proof.
  unfold LInputScope.vin. simpl.
  destruct (LInputScope.sequence inp) as [z|]; simpl; [|done].
  destruct (Z.eqb_spec z 0); simpl; done.
Qed.

(** X13. [blinded_tx] has one input for each input of the container and
    one output for each output, in order. Its version is the
    container's when that is set and not 0, and 2 when it is absent or
    0, so it is never 0; its locktime is the container's when that is
    set and 0 otherwise. No input has the sequence 0: an absent or zero
    sequence becomes 0xFFFFFFFF. Each output is what the constructor of
    the transaction output makes of the script and the ECDH key of its
    record, of the asset commitment and the value commitment whenever
    they are truthy and of the plaintext otherwise, and of a witness
    exactly when the surjection proof is truthy. *)
Theorem PSET_blinded_tx_shape (c : t) :
  let tx := blinded_tx c in
  LTransaction.version tx ≠ 0 ∧
  (tx_version c = None → LTransaction.version tx = 2) ∧
  (tx_version c = Some 0 → LTransaction.version tx = 2) ∧
  (∀ v, tx_version c = Some v → v ≠ 0 → LTransaction.version tx = v) ∧
  (locktime c = None → LTransaction.locktime tx = 0) ∧
  (∀ v, locktime c = Some v → LTransaction.locktime tx = v) ∧
  length (LTransaction.vin tx) = length (inputs c) ∧
  length (LTransaction.vout tx) = length (outputs c) ∧
  (∀ i inp, inputs c !! i = Some inp →
     ∃ txin, LTransaction.vin tx !! i = Some txin ∧
       LTransactionInput.txid txin = LInputScope.txid inp ∧
       LTransactionInput.vout txin = LInputScope.vout inp ∧
       LTransactionInput.sequence txin ≠ 0 ∧
       (LInputScope.sequence inp = None ∨ LInputScope.sequence inp = Some 0 →
        LTransactionInput.sequence txin = 0xFFFFFFFF) ∧
       (∀ n, LInputScope.sequence inp = Some n → n ≠ 0 →
        LTransactionInput.sequence txin = n)) ∧
  (∀ i out, outputs c !! i = Some out →
     ∃ asset value witness,
       LTransaction.vout tx !! i =
         Some (new_output asset value (LOutputScope.script_pubkey out)
                 (LOutputScope.ecdh_pubkey out) witness) ∧
       (truthy (LOutputScope.asset_commitment out) = true →
        asset = LOutputScope.asset_commitment out) ∧
       (truthy (LOutputScope.asset_commitment out) = false →
        asset = LOutputScope.asset out) ∧
       (truthy (LOutputScope.value_commitment out) = true →
        value = py_bytes (LOutputScope.value_commitment out)) ∧
       (truthy (LOutputScope.value_commitment out) = false →
        value = py_int (LOutputScope.value out)) ∧
       (witness = None ↔
        truthy (LOutputScope.surjection_proof out) = false) ∧
       (truthy (LOutputScope.surjection_proof out) = true →
        witness =
          Some (Build_TxOutWitness (LOutputScope.surjection_proof out)
                  (LOutputScope.range_proof out)))).
Proof.
  unfold blinded_tx. simpl.
  split; [|split; [|split; [|split; [|split; [|split; [|split;
    [|split; [|split]]]]]]]].
  - destruct (tx_version c) as [z|]; simpl; [|done].
    destruct (Z.eqb_spec z 0); simpl; done.
  - by intros ->.
  - by intros ->.
  - intros v -> Hv. simpl. by destruct (Z.eqb_spec v 0).
  - by intros ->.
  - intros v ->. simpl. by destruct (Z.eqb_spec v 0).
  - by rewrite length_map.
  - by rewrite length_map.
  - intros i inp Hi. exists (LInputScope.vin inp).
    rewrite list_lookup_fmap_Some. split; [by eexists|].
    split; [done|]. split; [done|]. split; [apply vin_sequence|].
    unfold LInputScope.vin. simpl. split; [by intros [-> | ->]|].
    intros n -> Hn. simpl. by destruct (Z.eqb_spec n 0).
  - intros i out Ho.
    exists (or_else (LOutputScope.asset_commitment out)
              (LOutputScope.asset out)),
      (if truthy (LOutputScope.value_commitment out)
       then py_bytes (LOutputScope.value_commitment out)
       else py_int (LOutputScope.value out)),
      (if negb (truthy (LOutputScope.surjection_proof out)) then None
       else Some (Build_TxOutWitness (LOutputScope.surjection_proof out)
                    (LOutputScope.range_proof out))).
    split; [by rewrite list_lookup_fmap, Ho|].
    unfold or_else. split; [by intros ->|]. split; [by intros ->|].
    split; [by intros ->|]. split; [by intros ->|].
    split; [|by intros ->].
    by destruct (truthy (LOutputScope.surjection_proof out)).
Qed.

End container_tx.

(** ** Blinding *)

Section outcomes.
Context {S : Type}.

(** The rules: one for each way a method is built. *)
Lemma wp_bind {A B} (m : method S A) (k : A → method S B) (s : S)
    (Q : B → S → Prop) (E : S → Prop) :
  wp m s (fun a s' => wp (k a) s' Q E) E → wp (m ≫= k) s Q E.
Proof.
  unfold wp, mbind, method_bind. by destruct (m s) as [s' [a|e]].
Qed.

Lemma wp_ret {A} (a : A) (s : S) (Q : A → S → Prop) (E : S → Prop) :
  Q a s → wp (mret a) s Q E.
Proof. done. Qed.

Lemma wp_get (s : S) (Q : S → S → Prop) (E : S → Prop) :
  Q s s → wp get s Q E.
Proof. done. Qed.

Lemma wp_modify (f : S → S) (s : S) (Q : unit → S → Prop) (E : S → Prop) :
  Q tt (f s) → wp (modify f) s Q E.
Proof. done. Qed.

Lemma wp_raise {A} (e : exn) (s : S) (Q : A → S → Prop) (E : S → Prop) :
  E s → wp (raise e) s Q E.
Proof. done. Qed.

Lemma wp_lift {A} (r : result A) (s : S) (Q : A → S → Prop) (E : S → Prop) :
  E s → (∀ a, r = Ok a → Q a s) → wp (lift r) s Q E.
Proof. intros He Hq. unfold wp, lift. destruct r; auto. Qed.

Lemma wp_attr {A} (o : option A) (s : S) (Q : A → S → Prop) (E : S → Prop) :
  E s → (∀ a, o = Some a → Q a s) → wp (attr o) s Q E.
Proof. intros He Hq. unfold wp, attr. destruct o; simpl; auto. Qed.

Lemma wp_item {X} (xs : list X) (i : nat) (s : S) (Q : X → S → Prop)
    (E : S → Prop) :
  E s → (∀ x, xs !! i = Some x → Q x s) → wp (PSET.item xs i) s Q E.
Proof. intros He Hq. unfold wp, PSET.item. destruct (xs !! i); simpl; auto. Qed.

Lemma wp_mono {A} (m : method S A) (s : S) (Q Q' : A → S → Prop)
    (E E' : S → Prop) :
  wp m s Q E → (∀ a s', Q a s' → Q' a s') → (∀ s', E s' → E' s') →
  wp m s Q' E'.
Proof.
  unfold wp. destruct (m s) as [s' [a|e]]; auto.
Qed.

(** Loops over consecutive positions, with an invariant [J] indexed by
    the position reached. *)
Lemma wp_for_each (J : nat → S → Prop) (body : nat → method S unit)
    (E : S → Prop) (n k : nat) (s : S) :
  J k s →
  (∀ i s, (k ≤ i < k + n)%nat → J i s →
          wp (body i) s (fun _ => J (Datatypes.S i)) E) →
  wp (for_each (seq k n) body) s (fun _ => J (k + n)%nat) E.
Proof.
  revert k s. induction n as [|n IH]; intros k s Hj Hbody; simpl.
  - rewrite Nat.add_0_r. by apply wp_ret.
  - apply wp_bind. eapply wp_mono; [apply (Hbody k s); [lia|done]| |done].
    intros ? s' Hj'. simpl.
    replace (k + Datatypes.S n)%nat with (Datatypes.S k + n)%nat by lia.
    apply IH; [done|]. intros i s'' Hi. apply Hbody. lia.
Qed.

Lemma wp_comprehension_seq {Y} (J : nat → S → Prop) (Qy : nat → Y → Prop)
    (f : nat → method S Y) (E : S → Prop) (n k : nat) (s : S) :
  J k s →
  (∀ i s, (k ≤ i < k + n)%nat → J i s →
          wp (f i) s (fun y s' => Qy i y ∧ J (Datatypes.S i) s') E) →
  wp (PSET.comprehension f (seq k n)) s
    (fun ys s' => Forall2 Qy (seq k n) ys ∧ J (k + n)%nat s') E.
Proof.
  revert k s. induction n as [|n IH]; intros k s Hj Hf; simpl.
  - rewrite Nat.add_0_r. by apply wp_ret.
  - apply wp_bind. eapply wp_mono; [apply (Hf k s); [lia|done]| |done].
    intros y s' [Hy Hj']. simpl. apply wp_bind.
    eapply wp_mono; [apply (IH (Datatypes.S k) s' Hj')| |done].
    + intros i s'' Hi. apply Hf. lia.
    + intros ys s'' [Hys Hj'']. simpl. apply wp_ret. split; [by constructor|].
      by replace (k + Datatypes.S n)%nat with (Datatypes.S k + n)%nat by lia.
Qed.

Lemma wp_comprehension {X Y} (P : S → Prop) (Qy : X → Y → Prop)
    (f : X → method S Y) (E : S → Prop) (xs : list X) (s : S) :
  P s →
  (∀ x s, P s → wp (f x) s (fun y s' => Qy x y ∧ P s') E) →
  wp (PSET.comprehension f xs) s (fun ys s' => Forall2 Qy xs ys ∧ P s') E.
Proof.
  intros Hp Hf. revert s Hp. induction xs as [|x xs IH]; intros s Hp; simpl.
  - by apply wp_ret.
  - apply wp_bind. eapply wp_mono; [apply (Hf x s Hp)| |done].
    intros y s' [Hy Hp']. simpl. apply wp_bind.
    eapply wp_mono; [apply (IH s' Hp')| |done].
    intros ys s'' [Hys Hp'']. simpl. apply wp_ret. split; [by constructor|done].
Qed.

End outcomes.

(** A method of the output at position [i], run from the container. *)
Lemma wp_on_output {A} (i : nat) (m : method LOutputScope.t A) (s : PSET.t)
    (Q : A → PSET.t → Prop) (E : PSET.t → Prop) :
  match PSET.outputs s !! i with
  | None => E s
  | Some out =>
      wp m out
        (fun a out' =>
           Q a (PSET.set_outputs (<[i:=out']> (PSET.outputs s)) s))
        (fun out' => E (PSET.set_outputs (<[i:=out']> (PSET.outputs s)) s))
  end →
  wp (PSET.on_output i m) s Q E.
Proof.
  unfold wp, PSET.on_output, PSET.on_outputs, at_index.
  destruct (PSET.outputs s !! i) as [out|]; simpl; [|by destruct s].
  by destruct (m out) as [out' [a|e]].
Qed.

Section blind_outcome.
Context {engine : secp256k1} {lib : bitcoin}.
Import PSET.

(** The frame of [blind] and the steps that keep it. *)
Lemma blind_frame_refl (c : t) : blind_frame c c.
Proof.
  repeat split. apply Forall_Forall2_diag, Forall_forall.
  intros out _. by repeat split.
Qed.

Lemma blind_frame_lookup (c0 s : t) (i : nat) (out : LOutputScope.t) :
  blind_frame c0 s → outputs s !! i = Some out →
  ∃ out0, outputs c0 !! i = Some out0 ∧ blind_keeps out0 out.
Proof.
  intros (_ & _ & _ & Hall) Hi.
  destruct (Forall2_lookup_r _ _ _ _ _ Hall Hi) as (out0 & ? & ?). eauto.
Qed.

Lemma blind_frame_insert (c0 s : t) (i : nat) (out0 out' : LOutputScope.t) :
  blind_frame c0 s → outputs c0 !! i = Some out0 → blind_keeps out0 out' →
  blind_frame c0 (set_outputs (<[i:=out']> (outputs s)) s).
Proof.
  intros (Hi & Hv & Hl & Hall) H0 Hk. repeat split; try done. simpl.
  rewrite <- (list_insert_id (outputs c0) i out0) by done.
  by apply Forall2_insert.
Qed.

Lemma blind_keeps_needs (out0 out : LOutputScope.t) :
  blind_keeps out0 out → needs_blinding out ↔ needs_blinding out0.
Proof.
  intros (Hb & Hv & _). unfold needs_blinding. by rewrite Hb, Hv.
Qed.

Lemma blind_keeps_step (out0 out out' : LOutputScope.t) :
  blind_keeps out0 out → needs_blinding out0 →
  LOutputScope.blinding_pubkey out' = LOutputScope.blinding_pubkey out →
  LOutputScope.value out' = LOutputScope.value out →
  LOutputScope.asset out' = LOutputScope.asset out →
  LOutputScope.script_pubkey out' = LOutputScope.script_pubkey out →
  LOutputScope.blinder_index out' = LOutputScope.blinder_index out →
  LOutputScope._verified out' = LOutputScope._verified out →
  LOutputScope.unknown out' = LOutputScope.unknown out →
  LOutputScope.compress out' = LOutputScope.compress out →
  blind_keeps out0 out'.
Proof.
  unfold blind_keeps. intros (?&?&?&?&?&?&?&?&?) Hn ? ? ? ? ? ? ? ?.
  repeat split; congruence.
Qed.

Lemma with_output_id (s : t) (i : nat) (out : LOutputScope.t) :
  outputs s !! i = Some out → with_output i out s = s.
Proof.
  intros Hi. unfold with_output. rewrite list_insert_id by done.
  by destruct s.
Qed.

Lemma lookup_with_output_eq (s : t) (i : nat) (out : LOutputScope.t) :
  (i < length (outputs s))%nat → outputs (with_output i out s) !! i = Some out.
Proof. intros Hi. simpl. by apply list_lookup_insert_eq. Qed.

Lemma lookup_with_output_ne (s : t) (i j : nat) (out : LOutputScope.t) :
  i ≠ j → outputs (with_output i out s) !! j = outputs s !! j.
Proof. intros Hi. simpl. by apply list_lookup_insert_ne. Qed.

Lemma wp_on_output_at {A} (i : nat) (m : method LOutputScope.t A) (s : t)
    (cur : LOutputScope.t) (Q : A → t → Prop) (E : t → Prop) :
  (i < length (outputs s))%nat →
  wp m cur (fun a out' => Q a (with_output i out' s))
    (fun out' => E (with_output i out' s)) →
  wp (on_output i m) (with_output i cur s) Q E.
Proof.
  intros Hi Hm. apply wp_on_output. rewrite lookup_with_output_eq by done.
  eapply wp_mono; [exact Hm| |]; simpl; intros;
    unfold with_output in *; simpl; by rewrite list_insert_insert_eq.
Qed.

Lemma blind_frame_with (c0 s : t) (i : nat) (out0 out' : LOutputScope.t) :
  blind_frame c0 s → outputs c0 !! i = Some out0 → blind_keeps out0 out' →
  blind_frame c0 (with_output i out' s).
Proof. apply blind_frame_insert. Qed.

(** The first loop of [blind]: it returns the positions to blind, and
    every output there holds the factors derived for its position. *)
Lemma assign_wp (txs : bytes) (c0 : t) :
  wp (assign_blinding_factors txs) c0
    (fun chosen s =>
       chosen = blinding_positions (outputs c0) ∧ blind_frame c0 s ∧
       factors_assigned txs (length (outputs c0)) (outputs s))
    (blind_frame c0).
Proof.
  unfold assign_blinding_factors. apply wp_bind, wp_get, wp_bind.
  unfold indices.
  eapply wp_mono;
    [apply (wp_comprehension_seq
              (fun k s => blind_frame c0 s ∧ factors_assigned txs k (outputs s))
              (fun i y =>
                 y = if match outputs c0 !! i with
                        | Some out => bool_decide (needs_blinding out)
                        | None => false
                        end then [i] else []))| |done].
  - split; [apply blind_frame_refl|]. intros j out Hj. lia.
  - intros i s _ [Hf Ha]. apply wp_bind, wp_get, wp_bind, wp_item; [done|].
    intros out Hout.
    destruct (blind_frame_lookup c0 s i out Hf Hout) as (out0 & Hout0 & Hk).
    pose proof (blind_keeps_needs _ _ Hk) as Hneeds. rewrite Hout0.
    pose proof (lookup_lt_Some _ _ _ Hout) as Hlen.
    destruct (LOutputScope.blinding_pubkey out) as [bp|] eqn:Hb,
             (LOutputScope.value out) as [v|] eqn:Hv.
    2-4: rewrite bool_decide_eq_false_2
           by (rewrite <- Hneeds; unfold needs_blinding;
               rewrite Hb, Hv; by intros [[] []]);
         apply wp_ret; (split; [done|]); (split; [done|]);
         intros j o Hj Ho Hn;
         (destruct (decide (j = i)) as [->|]; [|apply Ha; [lia|done..]]);
         rewrite Hout in Ho; injection Ho as <-;
         unfold needs_blinding in Hn; rewrite Hb, Hv in Hn;
         by destruct Hn as [[] []].
    assert (needs_blinding out0) as Hn0.
    { apply Hneeds. unfold needs_blinding. rewrite Hb, Hv. by split. }
    rewrite bool_decide_eq_true_2 by done.
    rewrite <- (with_output_id s i out Hout) at 1.
    apply wp_bind, wp_lift; [by rewrite with_output_id|].
    intros n ->%int_to_bytes_value.
    apply wp_bind, wp_on_output_at, wp_modify; [done|].
    assert (blind_keeps out0
              (LOutputScope.set_asset_blinding_factor
                 (Some (tagged_hash "liquid/abf"
                          (txs ++ little_endian 4 (Z.of_nat i)))) out)) as Hk1
      by (by eapply blind_keeps_step).
    apply wp_bind, wp_lift; [by eapply blind_frame_with|].
    intros n ->%int_to_bytes_value.
    apply wp_bind, wp_on_output_at, wp_modify; [done|].
    apply wp_ret. split; [done|]. split.
    + eapply blind_frame_with; [done..|]. by eapply blind_keeps_step.
    + intros j o Hj Ho Hn. destruct (decide (j = i)) as [->|].
      * rewrite lookup_with_output_eq in Ho by done. by injection Ho as <-.
      * rewrite lookup_with_output_ne in Ho by done. apply Ha; [lia|done..].
  - intros chosen s [Hchosen [Hf Ha]]. simpl. apply wp_ret.
    split; [|done]. by apply concat_filter in Hchosen.
Qed.

(** [reblind] assigns the ECDH key and the range proof at most. *)
Lemma wp_reblind (nonce : bytes) (key : option bytes) (extra : bytes)
    (r : LOutputScope.t) (Q : unit → LOutputScope.t → Prop)
    (E : LOutputScope.t → Prop) :
  (∀ rp ecdh,
     let r' := LOutputScope.set_range_proof rp
                 (LOutputScope.set_ecdh_pubkey ecdh r) in
     Q tt r' ∧ E r') →
  wp (LOutputScope.reblind nonce key extra) r Q E.
Proof.
  intros H. unfold wp. pose proof (reblind_frame nonce key extra r) as Hf.
  destruct (LOutputScope.reblind nonce key extra r) as [r' [[]|e]];
    destruct Hf as [-> _]; apply H.
Qed.

(** One turn of the last loop of [blind]: the output at position [i],
    if it qualifies, gets commitments that open. *)
Lemma blind_output_wp (txs : bytes) (in_tags in_gens abfs : list bytes)
    (c0 : t) (last : nat) (last_vbf : bytes) (i : nat) (s : t) :
  blind_frame c0 s →
  blinding_factors txs last last_vbf (outputs s) →
  commitments_open i (outputs s) →
  wp (blind_output txs in_tags in_gens abfs i) s
    (fun _ s' =>
       blind_frame c0 s' ∧ blinding_factors txs last last_vbf (outputs s') ∧
       commitments_open (Datatypes.S i) (outputs s'))
    (blind_frame c0).
Proof.
  intros Hf Hb Hc. unfold blind_output.
  apply wp_bind, wp_get, wp_bind, wp_item; [done|]. intros out Hout.
  destruct (blind_frame_lookup c0 s i out Hf Hout) as (out0 & Hout0 & Hk).
  pose proof (blind_keeps_needs _ _ Hk) as Hneeds.
  pose proof (lookup_lt_Some _ _ _ Hout) as Hlen.
  destruct (LOutputScope.blinding_pubkey out) as [bp|] eqn:Hbp;
    [destruct (LOutputScope.value out) as [v|] eqn:Hv;
       [destruct (LOutputScope.asset_blinding_factor out) as [abf|] eqn:Habf|]|].
  2-4: apply wp_ret; (split; [done|]); (split; [done|]);
       intros j o Hj Ho Hn;
       (destruct (decide (j = i)) as [->|]; [|apply (Hc j); [lia|done..]]);
       rewrite Hout in Ho; injection Ho as <-;
       try (destruct (Hb i out Hout Hn) as [Ha _]; congruence);
       unfold needs_blinding in Hn; rewrite Hbp, ?Hv in Hn;
       by destruct Hn as [[] []].
  assert (needs_blinding out) as Hn
    by (unfold needs_blinding; rewrite Hbp, Hv; by split).
  assert (needs_blinding out0) as Hn0 by by apply Hneeds.
  rewrite <- (with_output_id s i out Hout) at 1.
  apply wp_bind, wp_lift; [by rewrite with_output_id|]. intros gen Hgen.
  apply wp_bind, wp_lift; [by rewrite with_output_id|]. intros ser Hser.
  apply wp_bind, wp_on_output_at, wp_modify; [done|].
  set (out1 := LOutputScope.set_asset_commitment (Some ser) out).
  assert (blind_keeps out0 out1) as Hk1 by (by eapply blind_keeps_step).
  apply wp_bind, wp_lift; [by eapply blind_frame_with|]. intros cmt Hcmt.
  apply wp_bind, wp_lift; [by eapply blind_frame_with|]. intros ser2 Hser2.
  apply wp_bind, wp_on_output_at, wp_modify; [done|].
  set (out2 := LOutputScope.set_value_commitment (Some ser2) out1).
  assert (blind_keeps out0 out2) as Hk2 by (by eapply blind_keeps_step).
  apply wp_bind, wp_lift; [by eapply blind_frame_with|]. intros n _.
  apply wp_bind, wp_lift; [by eapply blind_frame_with|].
  intros [proof in_idx] _.
  apply wp_bind, wp_item; [by eapply blind_frame_with|]. intros in_abf _.
  apply wp_bind, wp_lift; [by eapply blind_frame_with|]. intros proof' _.
  apply wp_bind, wp_lift; [by eapply blind_frame_with|]. intros ser3 _.
  apply wp_bind, wp_on_output_at, wp_modify; [done|].
  set (out3 := LOutputScope.set_surjection_proof (Some ser3) out2).
  assert (blind_keeps out0 out3) as Hk3 by (by eapply blind_keeps_step).
  apply wp_bind, wp_lift; [by eapply blind_frame_with|]. intros n' _.
  apply wp_on_output_at, wp_reblind; [done|]. intros rp ecdh out4.
  assert (blind_keeps out0 out4) as Hk4 by (by eapply blind_keeps_step).
  assert (blind_frame c0 (with_output i out4 s)) as Hf4
    by (by eapply blind_frame_with).
  split; [|done]. split; [done|]. split.
  - intros j o Ho Hno. destruct (decide (j = i)) as [->|].
    + rewrite lookup_with_output_eq in Ho by done. injection Ho as <-.
      apply (Hb i out Hout Hn).
    + rewrite lookup_with_output_ne in Ho by done. by apply Hb.
  - intros j o Hj Ho Hno. destruct (decide (j = i)) as [->|].
    + rewrite lookup_with_output_eq in Ho by done. injection Ho as <-.
      exists gen. rewrite <- Habf in Hgen. rewrite <- Hv in Hcmt. split.
      * split; [exact Hgen|]. by exists ser.
      * by exists cmt, ser2.
    + rewrite lookup_with_output_ne in Ho by done. apply (Hc j); [lia|done..].
Qed.

Lemma wp_keeps {S A} (m : method S A) (s : S) (Q : A → S → Prop)
    (E : S → Prop) :
  fst (m s) = s → E s → (∀ a, Q a s) → wp m s Q E.
Proof.
  unfold wp. destruct (m s) as [s' [a|e]]; simpl; intros -> He Hq; auto.
Qed.

Lemma input_tags_state (s : t) : fst (input_tags s) = s.
Proof.
  unfold input_tags. unfold mbind at 1, method_bind at 1, get at 1.
  unfold mbind at 1, method_bind at 1.
  match goal with
  | |- context [comprehension ?f (inputs s) s] =>
      pose proof (comprehension_state f (inputs s) s) as H;
      destruct (comprehension f (inputs s) s) as [s' [l|e]]
  end; simpl in *; apply H; intros x s''; cases.
Qed.

Lemma blinding_positions_spec (outs : list LOutputScope.t) (i : nat) :
  In i (blinding_positions outs) →
  ∃ out, outs !! i = Some out ∧ needs_blinding out.
Proof.
  unfold blinding_positions. intros [_ Hi]%filter_In.
  destruct (outs !! i) as [out|]; [|done].
  apply bool_decide_eq_true in Hi. eauto.
Qed.

(** [blind] as a whole. *)
Lemma blind_wp (seed : bytes) (c0 : t) :
  wp (blind seed) c0
    (fun _ s =>
       blind_frame c0 s ∧
       ∃ txs final in_vals out_vals last_vbf,
         txseed seed c0 = (c0, Ok txs) ∧
         last (blinding_positions (outputs c0)) = Some final ∧
         Forall2 (fun sc v => input_value_of sc = Ok v) (inputs c0) in_vals ∧
         Forall2 (fun i v => ∃ out, outputs c0 !! i = Some out ∧
                                    v = py_int (LOutputScope.value out))
           (blinding_positions (outputs c0)) out_vals ∧
         pedersen_blind_generator_blind_sum (in_vals ++ out_vals)
           (map (fun sc => or_zero32 (LInputScope.asset_blinding_factor sc))
              (inputs c0) ++
            map (fun i => or_zero32 (Some (abf_of txs i)))
              (blinding_positions (outputs c0)))
           (map (fun sc => or_zero32 (LInputScope.value_blinding_factor sc))
              (inputs c0) ++
            map (fun i => or_zero32 (Some (vbf_of txs i)))
              (blinding_positions (outputs c0)))
           (length (inputs c0)) = Ok last_vbf ∧
         blinding_factors txs final last_vbf (outputs s) ∧
         commitments_open (length (outputs c0)) (outputs s))
    (blind_frame c0).
Proof.
  unfold blind. apply wp_bind. unfold wp at 1.
  pose proof (txseed_state seed c0) as Hst.
  destruct (txseed seed c0) as [c1 [txs|e]] eqn:Hts; simpl in Hst; subst c1;
    [|apply blind_frame_refl].
  apply wp_bind. eapply wp_mono; [apply assign_wp| |done].
  intros chosen s1 (-> & Hf1 & Ha1). simpl.
  set (positions := blinding_positions (outputs c0)).
  pose proof (Forall2_length _ _ _ (proj2 (proj2 (proj2 Hf1)))) as Hlen.
  apply wp_bind. case_bool_decide as Hnone; [by apply wp_raise|].
  apply wp_ret, wp_bind, wp_get, wp_bind.
  eapply wp_mono;
    [apply (wp_comprehension (eq s1)
              (fun i out => outputs s1 !! i = Some out)); [done|]| |done].
  { intros i s <-. by apply wp_item. }
  intros outs s [Houts <-]. simpl. apply wp_bind.
  eapply wp_mono;
    [apply (wp_comprehension (eq s1)
              (fun sc v => input_value_of sc = Ok v)); [done|]| |done].
  { intros sc s <-. unfold input_value, input_value_of.
    destruct (truthy_int (LInputScope.value sc)); [by apply wp_ret|].
    apply wp_bind, wp_attr; [done|]. intros utxo ->. by apply wp_ret. }
  intros in_vals s [Hin <-]. simpl.
  assert (Forall2 (fun i out => ∃ out0, outputs c0 !! i = Some out0 ∧
                     needs_blinding out0 ∧ blind_keeps out0 out ∧
                     LOutputScope.asset_blinding_factor out =
                       Some (abf_of txs i) ∧
                     LOutputScope.value_blinding_factor out =
                       Some (vbf_of txs i)) positions outs) as Houts'.
  { eapply Forall2_In_l; [exact Houts|]. intros i out Hi Ho. simpl in Ho.
    destruct (blinding_positions_spec _ _ Hi) as (out0 & Ho0 & Hn0).
    destruct (blind_frame_lookup c0 s1 i out Hf1 Ho) as (out0' & Ho0' & Hk).
    rewrite Ho0 in Ho0'. injection Ho0' as <-.
    exists out0. destruct (Ha1 i out) as [Ha Hv]; [|done| |done].
    - by apply lookup_lt_Some in Ho0.
    - by apply (blind_keeps_needs _ _ Hk). }
  rewrite (proj1 Hf1).
  rewrite (map_pointwise
             (fun sc => or_zero32 (LOutputScope.asset_blinding_factor sc))
             (fun i => or_zero32 (Some (abf_of txs i))) positions outs).
  2: { eapply Forall2_impl; [exact Houts'|].
       by intros i out (? & _ & _ & _ & -> & _). }
  rewrite (map_pointwise
             (fun sc => or_zero32 (LOutputScope.value_blinding_factor sc))
             (fun i => or_zero32 (Some (vbf_of txs i))) positions outs).
  2: { eapply Forall2_impl; [exact Houts'|].
       by intros i out (? & _ & _ & _ & _ & ->). }
  apply wp_bind, wp_lift; [done|]. intros last_vbf Hsum.
  apply wp_bind, wp_item; [done|]. intros final Hfinal.
  assert (last positions = Some final) as Hlast.
  { rewrite last_lookup. rewrite <- Hfinal. f_equal. lia. }
  destruct (blinding_positions_spec (outputs c0) final) as (out0 & Ho0 & Hn0).
  { apply list_elem_of_In. by eapply list_elem_of_lookup_2. }
  apply wp_bind, wp_on_output.
  destruct (outputs s1 !! final) as [out|] eqn:Hout; [|done].
  apply wp_modify. fold (with_output final
    (LOutputScope.set_value_blinding_factor (Some last_vbf) out) s1).
  destruct (blind_frame_lookup c0 s1 final out Hf1 Hout) as (out0' & Ho0' & Hk).
  rewrite Ho0 in Ho0'. injection Ho0' as <-.
  pose proof (lookup_lt_Some _ _ _ Hout) as Hlt.
  set (s2 := with_output final _ s1).
  assert (blind_frame c0 s2) as Hf2.
  { eapply blind_frame_with; [done..|]. by eapply blind_keeps_step. }
  assert (blinding_factors txs final last_vbf (outputs s2)) as Hb2.
  { intros j o Ho Hn. destruct (decide (j = final)) as [->|Hne].
    - subst s2. rewrite lookup_with_output_eq in Ho by done.
      injection Ho as <-. rewrite bool_decide_eq_true_2 by done. simpl.
      split; [|done]. apply (Ha1 final out); [lia|done|].
      by apply (blind_keeps_needs _ _ Hk).
    - subst s2. rewrite lookup_with_output_ne in Ho by done.
      rewrite bool_decide_eq_false_2 by done.
      apply (Ha1 j o); [|done..]. apply lookup_lt_Some in Ho. lia. }
  apply wp_bind, wp_keeps; [apply input_tags_state|done|].
  intros [in_tags in_gens]. apply wp_bind, wp_get. unfold indices.
  eapply wp_mono;
    [apply (wp_for_each
              (fun k s => blind_frame c0 s ∧
                          blinding_factors txs final last_vbf (outputs s) ∧
                          commitments_open k (outputs s)))| |done].
  - split; [done|]. split; [done|]. intros j o Hj. lia.
  - intros i s _ (Hf & Hb & Hc). by apply blind_output_wp.
  - intros _ s (Hf & Hb & Hc). split; [done|].
    exists txs, final, in_vals,
      (map (fun sc => py_int (LOutputScope.value sc)) outs), last_vbf.
    rewrite (proj1 Hf1) in Hin.
    split; [done|]. split; [done|]. split; [done|]. split; [|split; [done|]].
    + apply Forall2_fmap_r. eapply Forall2_impl; [exact Houts'|].
      intros i o (o0 & ? & _ & (_ & Hv & _) & _). exists o0. simpl.
      by rewrite Hv.
    + split; [done|].
      replace (length (outputs c0)) with (0 + length (outputs s2))%nat; [done|].
      subst s2. unfold with_output. simpl. rewrite length_insert. lia.
Qed.

(** X14. However [blind] ends, it leaves the inputs, the version and
    the locktime of the container as they are and keeps the number of
    outputs. An output without a blinding public key or without a value
    is untouched. Of the others it keeps the blinding public key, the
    value, the asset, the script, the blinder index, the verified flag,
    the unknown fields and the compress flag: it assigns commitments,
    blinding factors, proofs and the ECDH key only. *)
Theorem PSET_blind_frame (seed : bytes) (c : t) :
  let '(c', _) := blind seed c in
  blind_frame c c' ∧ length (outputs c') = length (outputs c).
Proof.
  pose proof (blind_wp seed c) as H. unfold wp in H.
  destruct (blind seed c) as [c' [[]|e]].
  - destruct H as [Hf _]. split; [done|].
    symmetry. apply (Forall2_length _ _ _ (proj2 (proj2 (proj2 Hf)))).
  - split; [done|].
    symmetry. apply (Forall2_length _ _ _ (proj2 (proj2 (proj2 H)))).
Qed.

(** X15. When [blind] returns, the commitments of every output that has
    a blinding public key and a value open under the blinding factors
    the output now stores: the asset commitment is the serialized
    generator of its asset and asset blinding factor, and the value
    commitment the serialized commitment to its value under its value
    blinding factor and that generator. [verify] then accepts the
    output whenever its asset, asset commitment and asset blinding
    factor are truthy. *)
Theorem PSET_blind_commitments_open (seed : bytes) (c c' : t) :
  blind seed c = (c', Ok tt) →
  Forall (fun out =>
            needs_blinding out →
            (∃ gen, asset_commitment_opens out gen ∧
                    value_commitment_opens out gen) ∧
            (asset_checked out = true →
             truthy (LOutputScope.asset_blinding_factor out) = true →
             LOutputScope.verify out =
               (LOutputScope.set__verified true out, Ok true)))
    (outputs c').
Proof.
  intros Hblind. pose proof (blind_wp seed c) as H. unfold wp in H.
  rewrite Hblind in H.
  destruct H as (Hf & txs & final & in_vals & out_vals & last_vbf & H).
  destruct H as (_ & _ & _ & _ & _ & _ & Hc).
  apply Forall_forall. intros out Hin Hn.
  apply list_elem_of_lookup in Hin as [i Hi].
  pose proof (Forall2_length _ _ _ (proj2 (proj2 (proj2 Hf)))) as Hlen.
  destruct (Hc i out) as (gen & Ha & Hv); [|done..|].
  { apply lookup_lt_Some in Hi. lia. }
  split; [by exists gen|]. intros Hac Habf.
  apply verify_passes_iff. split; [by eauto|]. by eauto.
Qed.

(** X16. When [blind] returns, the blinding factors of every output
    that has a blinding public key and a value are derived from the
    transaction seed and the position of the output: the asset blinding
    factor is the hash tagged "liquid/abf" of the seed and the four
    little-endian bytes of the position, and the value blinding factor
    the hash tagged "liquid/vbf" of the same, except for the last such
    output. Its value blinding factor is the one that balances the
    transaction: the blind sum over the values of the inputs and of the
    blinded outputs, with the blinding factors of the inputs, 32 zero
    bytes standing for one that is not truthy, and the derived ones of
    the blinded outputs. *)
Theorem PSET_blind_factors (seed : bytes) (c c' : t) :
  blind seed c = (c', Ok tt) →
  ∃ txs final in_vals out_vals last_vbf,
    txseed seed c = (c, Ok txs) ∧
    last (blinding_positions (outputs c)) = Some final ∧
    Forall2 (fun sc v => input_value_of sc = Ok v) (inputs c) in_vals ∧
    Forall2 (fun i v => ∃ out, outputs c !! i = Some out ∧
                               v = py_int (LOutputScope.value out))
      (blinding_positions (outputs c)) out_vals ∧
    pedersen_blind_generator_blind_sum (in_vals ++ out_vals)
      (map (fun sc => or_zero32 (LInputScope.asset_blinding_factor sc))
         (inputs c) ++
       map (fun i => or_zero32 (Some (abf_of txs i)))
         (blinding_positions (outputs c)))
      (map (fun sc => or_zero32 (LInputScope.value_blinding_factor sc))
         (inputs c) ++
       map (fun i => or_zero32 (Some (vbf_of txs i)))
         (blinding_positions (outputs c)))
      (length (inputs c)) = Ok last_vbf ∧
    blinding_factors txs final last_vbf (outputs c').
Proof.
  intros Hblind. pose proof (blind_wp seed c) as H. unfold wp in H.
  rewrite Hblind in H.
  destruct H as (Hf & txs & final & in_vals & out_vals & last_vbf & H).
  destruct H as (? & ? & ? & ? & ? & ? & _).
  by exists txs, final, in_vals, out_vals, last_vbf.
Qed.

End blind_outcome.

(** X15, witness: blinding a container with one output to blind; the
    commitments of that output open. *)
Lemma PSET_blind_commitments_open_witness :
  let c' := fst (PSET.blind (engine := plain_secp256k1) (lib := plain_bitcoin)
                   PSET.zero32 blinding_container) in
  Forall (fun out =>
            needs_blinding out →
            (∃ gen, asset_commitment_opens (engine := plain_secp256k1) out gen ∧
                    value_commitment_opens (engine := plain_secp256k1) out gen) ∧
            (asset_checked out = true →
             truthy (LOutputScope.asset_blinding_factor out) = true →
             LOutputScope.verify (engine := plain_secp256k1) out =
               (LOutputScope.set__verified true out, Ok true)))
    (PSET.outputs c').
Proof.
  intros c'.
  apply (PSET_blind_commitments_open (engine := plain_secp256k1)
           (lib := plain_bitcoin) PSET.zero32 blinding_container c').
  vm_compute. reflexivity.
Defined.

(** X16, witness: the same container; its one blinded output is the
    last, and holds the balancing factor. *)
Lemma PSET_blind_factors_witness :
  ∃ txs final in_vals out_vals last_vbf,
    PSET.txseed (lib := plain_bitcoin) PSET.zero32 blinding_container =
      (blinding_container, Ok txs) ∧
    last (blinding_positions (PSET.outputs blinding_container)) = Some final ∧
    Forall2 (fun sc v => input_value_of sc = Ok v)
      (PSET.inputs blinding_container) in_vals ∧
    Forall2 (fun i v => ∃ out,
               PSET.outputs blinding_container !! i = Some out ∧
               v = py_int (LOutputScope.value out))
      (blinding_positions (PSET.outputs blinding_container)) out_vals ∧
    pedersen_blind_generator_blind_sum (secp256k1 := plain_secp256k1)
      (in_vals ++ out_vals)
      (map (fun sc => PSET.or_zero32 (LInputScope.asset_blinding_factor sc))
         (PSET.inputs blinding_container) ++
       map (fun i => PSET.or_zero32 (Some (abf_of (lib := plain_bitcoin) txs i)))
         (blinding_positions (PSET.outputs blinding_container)))
      (map (fun sc => PSET.or_zero32 (LInputScope.value_blinding_factor sc))
         (PSET.inputs blinding_container) ++
       map (fun i => PSET.or_zero32 (Some (vbf_of (lib := plain_bitcoin) txs i)))
         (blinding_positions (PSET.outputs blinding_container)))
      (length (PSET.inputs blinding_container)) = Ok last_vbf ∧
    blinding_factors (lib := plain_bitcoin) txs final last_vbf
      (PSET.outputs
         (fst (PSET.blind (engine := plain_secp256k1) (lib := plain_bitcoin)
                 PSET.zero32 blinding_container))).
Proof.
  apply (PSET_blind_factors (engine := plain_secp256k1)
           (lib := plain_bitcoin) PSET.zero32 blinding_container).
  vm_compute. reflexivity.
Defined.
